(** * Tokenizer, glyph lines and text-render events: a shallow embedding

    The development follows the Python sources

    - [ptext/io/read/tokenize/low_level_tokenizer.py]
      (module [Tokenizer])
    - [borb/pdf/canvas/font/glyph_line.py]
      (modules [Glyph], [GlyphLine] and, for objects in a store, [Heap])
    - [ptext/pdf/canvas/event/text_render_event.py]
      (module [TextRenderEvent], with [LeftToRightComparator.cmp])
    - [ptext/toolkit/structure/line/line_render_event.py]
      (module [LineRenderEvent])

    Numbers of type [decimal.Decimal] are modelled by module [Decimal]:
    finite values, default context (28 significant digits, round half
    even).  Definitions come first, the facts about them afterwards. *)

From stdpp Require Import base option list gmap.
From Stdlib Require Import ZArith Lia Bool List.
From Stdlib Require Import Strings.String Strings.Ascii Strings.Byte.
Import ListNotations.

(* ------------------------------------------------------------------ *)
(** ** Python's [decimal.Decimal]                                       *)
(* ------------------------------------------------------------------ *)

Module Decimal.
Local Open Scope Z_scope.

(** A finite decimal [coef * 10 ^ expo].  The sign lives in [coef], so
    the two zeros of Python are one here; every operation below is
    Python's up to the numerical value of its result.  The exponent
    limits of the context (Emax = 999999) are not modelled. *)
Record t : Set := mk { coef : Z; expo : Z }.

Definition prec : Z := 28.

(** [len(str(n))] for [0 <= n]. *)
Fixpoint ndigits_aux (fuel : nat) (n : Z) : Z :=
  match fuel with
  | O => 1
  | S f => if n <? 10 then 1 else 1 + ndigits_aux f (n / 10)
  end.

Definition ndigits (n : Z) : Z := ndigits_aux (Z.to_nat (Z.log2 n)) n.

(** [n / 10 ^ k] rounded to an integer, ties to even ([0 <= n], [0 < k]). *)
Definition round_half_even (n k : Z) : Z :=
  let q := n / 10 ^ k in
  let r := n mod 10 ^ k in
  if (10 ^ k <? 2 * r) || ((2 * r =? 10 ^ k) && Z.odd q) then q + 1 else q.

(** [Decimal._fix]: round to the precision of the context. *)
Definition fix_ (d : t) : t :=
  let n := ndigits (Z.abs (coef d)) in
  if n <=? prec then d
  else
    let k := n - prec in
    let q := round_half_even (Z.abs (coef d)) k in
    if q =? 10 ^ prec
    then mk (Z.sgn (coef d) * (q / 10)) (expo d + k + 1)
    else mk (Z.sgn (coef d) * q) (expo d + k).

(** [Decimal(n)] for an int, and [Decimal(x)] for a float literal [x]
    whose [as_integer_ratio()] is [(n, 2 ** k)]: both are exact. *)
Definition of_Z (n : Z) : t := mk n 0.
Definition from_float (n k : Z) : t := mk (n * 5 ^ k) (- k).

(** The three float literals of the sources. *)
Definition d0_001 : t := from_float 1152921504606847 60.   (* Decimal(0.001) *)
Definition d0_90 : t := from_float 8106479329266893 53.    (* Decimal(0.90) *)
Definition d0_01 : t := from_float 5764607523034235 59.    (* Decimal(0.01) *)

(** Both operands brought to the smaller exponent. *)
Definition align (a b : t) : Z * Z :=
  let m := Z.min (expo a) (expo b) in
  (coef a * 10 ^ (expo a - m), coef b * 10 ^ (expo b - m)).

Definition ltb (a b : t) : bool := let (x, y) := align a b in x <? y.
Definition eqb (a b : t) : bool := let (x, y) := align a b in x =? y.
Definition gtb (a b : t) : bool := ltb b a.
Definition is_zero (a : t) : bool := coef a =? 0.

Definition copy_negate (a : t) : t := mk (- coef a) (expo a).
Definition neg (a : t) : t := fix_ (copy_negate a).
Definition abs (a : t) : t := fix_ (mk (Z.abs (coef a)) (expo a)).

Definition add (a b : t) : t :=
  let (x, y) := align a b in fix_ (mk (x + y) (Z.min (expo a) (expo b))).
Definition sub (a b : t) : t := add a (copy_negate b).
Definition mul (a b : t) : t := fix_ (mk (coef a * coef b) (expo a + expo b)).

(** The loop of [__truediv__] that brings an exact quotient as close to
    the ideal exponent as its trailing zeros allow. *)
Fixpoint strip_zeros (fuel : nat) (coeff exp ideal : Z) : Z * Z :=
  match fuel with
  | O => (coeff, exp)
  | S f =>
      if (exp <? ideal) && (coeff mod 10 =? 0)
      then strip_zeros f (coeff / 10) (exp + 1) ideal
      else (coeff, exp)
  end.

(** [a / b].  Python raises on a zero divisor; the sources divide by the
    constant 100 only. *)
Definition div (a b : t) : t :=
  let sign := Z.sgn (coef a) * Z.sgn (coef b) in
  let x := Z.abs (coef a) in
  let y := Z.abs (coef b) in
  if x =? 0 then fix_ (mk 0 (expo a - expo b))
  else
    let shift := ndigits y - ndigits x + prec + 1 in
    let exp := expo a - expo b - shift in
    let num := if 0 <=? shift then x * 10 ^ shift else x in
    let den := if 0 <=? shift then y else y * 10 ^ (- shift) in
    let q := num / den in
    let r := num mod den in
    if negb (r =? 0)
    then fix_ (mk (sign * (if q mod 5 =? 0 then q + 1 else q)) exp)
    else
      let (q', exp') := strip_zeros (Z.to_nat (expo a - expo b - exp)) q exp
                          (expo a - expo b) in
      fix_ (mk (sign * q') exp').

Definition adjusted (a : t) : Z := expo a + ndigits (Z.abs (coef a)) - 1.

(** [a % b] for [b] non-zero: the remainder takes the sign of [a];
    [None] stands for the InvalidOperation (DivisionImpossible) Python
    raises when the integer quotient does not fit the precision. *)
Definition rem (a b : t) : option t :=
  let ideal := Z.min (expo a) (expo b) in
  let expdiff := adjusted a - adjusted b in
  if is_zero a || (expdiff <=? -2)
  then Some (fix_ (mk (coef a * 10 ^ (expo a - ideal)) ideal))
  else if expdiff <=? prec then
    let (x, y) := align a b in
    let q := Z.abs x / Z.abs y in
    let r := Z.abs x mod Z.abs y in
    if q <? 10 ^ prec then Some (fix_ (mk (Z.sgn (coef a) * r) ideal)) else None
  else None.

(** [Decimal._rescale] to exponent [exp], round half even. *)
Definition rescale (a : t) (exp : Z) : t :=
  if exp <=? expo a then mk (coef a * 10 ^ (expo a - exp)) exp
  else mk (Z.sgn (coef a) * round_half_even (Z.abs (coef a)) (exp - expo a)) exp.

(** [round(a, n)], that is [a.quantize(Decimal((0, (1,), -n)))];
    [None] stands for the InvalidOperation raised when the result would
    need more digits than the precision. *)
Definition round (a : t) (n : Z) : option t :=
  if is_zero a then Some (fix_ (mk 0 (- n)))
  else if prec <? adjusted a + n + 1 then None
  else
    let ans := rescale a (- n) in
    if prec <? ndigits (Z.abs (coef ans)) then None else Some (fix_ ans).

(** Python's builtins [min] and [max] on two and on three arguments:
    the first extremal argument is returned. *)
Definition min2 (a b : t) : t := if ltb b a then b else a.
Definition max2 (a b : t) : t := if gtb b a then b else a.
Definition min3 (a b c : t) : t := min2 (min2 a b) c.
Definition max3 (a b c : t) : t := max2 (max2 a b) c.

(** Truth value of a Decimal, and [x or y]. *)
Definition or_ (x y : t) : t := if is_zero x then y else x.

(** Numerical equality, as a proposition. *)
Definition eq (a b : t) : Prop := eqb a b = true.

End Decimal.

Declare Scope dec_scope.
Delimit Scope dec_scope with dec.
Bind Scope dec_scope with Decimal.t.
Infix "+" := Decimal.add : dec_scope.
Infix "-" := Decimal.sub : dec_scope.
Infix "*" := Decimal.mul : dec_scope.
Infix "/" := Decimal.div : dec_scope.
Infix "<?" := Decimal.ltb : dec_scope.
Infix "=?" := Decimal.eqb : dec_scope.
Infix "==" := Decimal.eq (at level 70, no associativity) : dec_scope.
Notation "- x" := (Decimal.neg x) : dec_scope.
Abbreviation Dec := Decimal.of_Z.

(* ------------------------------------------------------------------ *)
(** ** Python strings                                                   *)
(* ------------------------------------------------------------------ *)

(** The tokenizer decodes bytes as latin-1, so its strings are strings
    of 8-bit characters. *)
Module PyStr.
Local Open Scope string_scope.

Definition len (s : string) : Z := Z.of_nat (String.length s).

(** [latin-1] decoding of a byte string. *)
Definition decode_latin1 (bs : list byte) : string :=
  string_of_list_ascii (map ascii_of_byte bs).

(** [needle in hay]: substring test; the empty string is in every string. *)
Fixpoint contains (hay needle : string) : bool :=
  String.prefix needle hay ||
  match hay with
  | EmptyString => false
  | String _ hay' => contains hay' needle
  end.

(** [s.endswith(suffix)]. *)
Fixpoint endswith (s suffix : string) : bool :=
  String.eqb s suffix ||
  match s with
  | EmptyString => false
  | String _ s' => endswith s' suffix
  end.

(** [ord(ch)]: defined on strings of length one ([None]: TypeError). *)
Definition ord (ch : string) : option Z :=
  match ch with
  | String c EmptyString => Some (Z.of_N (N_of_ascii c))
  | _ => None
  end.

Definition CR : string := String (ascii_of_nat 13) EmptyString.
Definition LF : string := String (ascii_of_nat 10) EmptyString.

End PyStr.

(* ------------------------------------------------------------------ *)
(** ** low_level_tokenizer.py                                           *)
(* ------------------------------------------------------------------ *)

Module Tokenizer.
Import PyStr.
Local Open Scope string_scope.
Local Open Scope Z_scope.

Inductive TokenType : Set :=
  | NUMBER | STRING | HEX_STRING | NAME | COMMENT | START_ARRAY | END_ARRAY
  | START_DICT | END_DICT | REF | OBJ | END_OBJ | OTHER | END_OF_FILE.

Record Token : Set := mkToken
  { byte_offset : Z; token_type : TokenType; text : string }.

(** pdf_exception.py: the two exceptions the tokenizer raises.
    [PDFEOFError()] is built without a byte offset. *)
Inductive PDFException : Set :=
  | PDFSyntaxError (message : string) (byte_offset : option Z)
  | PDFEOFError (byte_offset : option Z).

Inductive result (A : Type) : Type :=
  | Return (a : A)
  | Raise (e : PDFException).
Arguments Return {A} a.
Arguments Raise {A} e.

(** The byte source: an in-memory stream ([io.BytesIO]) with its cursor. *)
Record io_source : Set := mkIO { data : list byte; pos : nat }.

Definition tell (s : io_source) : Z := Z.of_nat (pos s).

(** [io_source.read(1)]: one byte, or none at the end of the stream. *)
Definition read1 (s : io_source) : list byte * io_source :=
  match nth_error (data s) (pos s) with
  | Some b => ([b], mkIO (data s) (S (pos s)))
  | None => ([], s)
  end.

(** [_next_char] and [_prev_char] ([seek(-1, SEEK_CUR)]). *)
Definition _next_char (s : io_source) : string * io_source :=
  let (bs, s') := read1 s in (decode_latin1 bs, s').

Definition _prev_char (s : io_source) : io_source :=
  mkIO (data s) (Nat.pred (pos s)).

Definition in_codes (ch : string) (codes : list Z) : bool :=
  match ord ch with
  | Some n => existsb (Z.eqb n) codes
  | None => false     (* TypeError; every caller tests [len(ch)] first *)
  end.

Definition _is_delimiter (ch : string) : bool :=
  in_codes ch [-1; 0; 9; 10; 12; 13; 32; 37; 40; 41; 47; 60; 62; 91; 93].

Definition _is_whitespace (ch : string) : bool :=
  in_codes ch [0; 9; 10; 12; 13; 32].

Definition is_number_char (ch : string) : bool :=
  contains "-+.0123456789" ch.

(** The loops of [next_token].  Each takes the lookahead [ch] and the
    source and returns them as they are when the loop is left; [None]
    means that the fuel ran out. *)

(** [while len(ch) > 0 and self._is_whitespace(ch): ch = self._next_char()] *)
Fixpoint skip_whitespace (fuel : nat) (ch : string) (s : io_source)
  : option (string * io_source) :=
  match fuel with
  | O => None
  | S f =>
      if (0 <? len ch) && _is_whitespace ch
      then let (ch', s') := _next_char s in skip_whitespace f ch' s'
      else Some (ch, s)
  end.

(** NAME: read up to a delimiter or the end of the stream. *)
Fixpoint name_loop (fuel : nat) (out_str : string) (s : io_source)
  : option (string * string * io_source) :=
  match fuel with
  | O => None
  | S f =>
      let (ch, s) := _next_char s in
      if len ch =? 0 then Some (ch, out_str, s)
      else if _is_delimiter ch then Some (ch, out_str, s)
      else name_loop f (out_str ++ ch) s
  end.

(** COMMENT: [while len(ch) != 0 and ch != CR and ch != LF]. *)
Fixpoint comment_loop (fuel : nat) (ch out_str : string) (s : io_source)
  : option (string * string * io_source) :=
  match fuel with
  | O => None
  | S f =>
      if negb (len ch =? 0) && negb (String.eqb ch CR) && negb (String.eqb ch LF)
      then let (ch', s') := _next_char s in comment_loop f ch' (out_str ++ ch) s'
      else Some (ch, out_str, s)
  end.

(** HEX_STRING: read up to and including the closing [>]. *)
Fixpoint hex_loop (fuel : nat) (out_str : string) (s : io_source)
  : option (string * string * io_source) :=
  match fuel with
  | O => None
  | S f =>
      let (ch, s) := _next_char s in
      if len ch =? 0 then Some (ch, out_str, s)
      else if String.eqb ch ">" then Some (ch, out_str ++ ch, s)
      else hex_loop f (out_str ++ ch) s
  end.

(** NUMBER: [while len(ch) != 0 and ch in "-+.0123456789"]. *)
Fixpoint number_loop (fuel : nat) (ch out_str : string) (s : io_source)
  : option (string * string * io_source) :=
  match fuel with
  | O => None
  | S f =>
      if negb (len ch =? 0) && is_number_char ch
      then let (ch', s') := _next_char s in number_loop f ch' (out_str ++ ch) s'
      else Some (ch, out_str, s)
  end.

(** STRING: the loop over the body of a parenthesized string, with the
    bracket nesting level. *)
Fixpoint string_loop (fuel : nat) (bracket_nesting_level : Z)
  (out_str : string) (s : io_source) : option (string * string * io_source) :=
  match fuel with
  | O => None
  | S f =>
      let (ch, s) := _next_char s in
      if len ch =? 0 then Some (ch, out_str, s)
      else if String.eqb ch "\" then
        let (ch, s) := _next_char s in
        string_loop f bracket_nesting_level (out_str ++ "\" ++ ch) s
      else
        let lvl := if String.eqb ch "(" then bracket_nesting_level + 1
                   else bracket_nesting_level in
        let lvl := if String.eqb ch ")" then lvl - 1 else lvl in
        let out_str := out_str ++ ch in
        if lvl =? 0 then Some (ch, out_str, s)
        else string_loop f lvl out_str s
  end.

(** OTHER: [while len(ch) != 0 and not self._is_delimiter(ch)]. *)
Fixpoint other_loop (fuel : nat) (ch out_str : string) (s : io_source)
  : option (string * string * io_source) :=
  match fuel with
  | O => None
  | S f =>
      if negb (len ch =? 0) && negb (_is_delimiter ch)
      then let (ch', s') := _next_char s in other_loop f ch' (out_str ++ ch) s'
      else Some (ch, out_str, s)
  end.

(** [if len(ch) != 0: self._prev_char()] *)
Definition push_back (ch : string) (s : io_source) : io_source :=
  if negb (len ch =? 0) then _prev_char s else s.

Definition token (out_pos : Z) (ty : TokenType) (out_str : string)
  : result (option Token) :=
  Return (Some (mkToken out_pos ty out_str)).

(** [next_token], every loop running on [fuel]. *)
Definition next_token_fuel (fuel : nat) (s : io_source)
  : option (result (option Token) * io_source) :=
  let (ch, s) := _next_char s in
  if len ch =? 0 then Some (Return None, s)
  else
    '(ch, s) ← skip_whitespace fuel ch s;
    if String.eqb ch "[" then Some (token (tell s - 1) START_ARRAY "[", s)
    else if String.eqb ch "]" then Some (token (tell s - 1) END_ARRAY "]", s)
    else if String.eqb ch "/" then
      let out_pos := tell s - 1 in
      '(ch, out_str, s) ← name_loop fuel "/" s;
      Some (token out_pos NAME out_str, push_back ch s)
    else if String.eqb ch ">" then
      let out_pos := tell s - 1 in
      let (ch, s) := _next_char s in
      if negb (String.eqb ch ">")
      then Some (Raise (PDFSyntaxError
                   ("invalid character, expected >, received " ++ ch)
                   (Some (tell s))), s)
      else Some (token out_pos END_DICT ">>", s)
    else if String.eqb ch "%" then
      let out_pos := tell s - 1 in
      '(ch, out_str, s) ← comment_loop fuel ch EmptyString s;
      Some (token out_pos COMMENT out_str, push_back ch s)
    else if String.eqb ch "<" then
      let out_pos := tell s - 1 in
      let (ch, s) := _next_char s in
      if String.eqb ch "<" then Some (token out_pos START_DICT "<<", s)
      else if String.eqb ch ">" then Some (token out_pos HEX_STRING "<>", s)
      else
        '(_, out_str, s) ← hex_loop fuel ("<" ++ ch) s;
        Some (token out_pos HEX_STRING out_str, s)
    else if is_number_char ch then
      let out_pos := tell s - 1 in
      '(ch, out_str, s) ← number_loop fuel ch EmptyString s;
      Some (token out_pos NUMBER out_str, push_back ch s)
    else if String.eqb ch "(" then
      let out_pos := tell s - 1 in
      '(ch, out_str, s) ← string_loop fuel 1 "(" s;
      if len ch =? 0 then Some (Raise (PDFEOFError None), s)
      else if endswith out_str "\"
      then Some (Raise (PDFSyntaxError "unterminated escape sequence"
                          (Some (tell s))), s)
      else Some (token out_pos STRING out_str, s)
    else
      let out_pos := tell s - 1 in
      '(ch, out_str, s) ← other_loop fuel ch EmptyString s;
      Some (token out_pos OTHER out_str, push_back ch s).

(** One more unit of fuel than the source has bytes is enough for every
    loop (see [Tokenizer_facts.next_token_total]). *)
Definition next_token (s : io_source)
  : option (result (option Token) * io_source) :=
  next_token_fuel (S (List.length (data s))) s.

(** A byte source over the latin-1 text [txt], cursor at the start. *)
Definition source_of (txt : string) : io_source :=
  mkIO (map byte_of_ascii (list_ascii_of_string txt)) 0.

(** [next_non_comment_token]: the loop
    [while t is not None and t.token_type == TokenType.COMMENT]. *)
Definition is_comment (t : option Token) : bool :=
  match t with
  | Some tok => match token_type tok with COMMENT => true | _ => false end
  | None => false
  end.

Fixpoint skip_comments (fuel : nat) (t : option Token) (s : io_source)
  : option (result (option Token) * io_source) :=
  match fuel with
  | O => None
  | S f =>
      if is_comment t
      then match next_token s with
           | Some (Return t', s') => skip_comments f t' s'
           | other => other
           end
      else Some (Return t, s)
  end.

Definition next_non_comment_token (s : io_source)
  : option (result (option Token) * io_source) :=
  match next_token s with
  | Some (Return t, s') => skip_comments (S (List.length (data s))) t s'
  | other => other
  end.

(** [seek(pos, whence)] on the byte source: absolute (0), relative to the
    cursor (1) or to the end (2); the new position is returned.  [None]
    stands for the ValueError of a negative absolute position or an
    unknown [whence]. *)
Definition seek (offset whence : Z) (s : io_source) : option (Z * io_source) :=
  if whence =? 0 then
    if offset <? 0 then None
    else Some (offset, mkIO (data s) (Z.to_nat offset))
  else if whence =? 1 then
    let p := Z.max 0 (tell s + offset) in Some (p, mkIO (data s) (Z.to_nat p))
  else if whence =? 2 then
    let p := Z.max 0 (Z.of_nat (List.length (data s)) + offset) in
    Some (p, mkIO (data s) (Z.to_nat p))
  else None.

End Tokenizer.

(* ------------------------------------------------------------------ *)
(** ** glyph_line.py                                                    *)
(* ------------------------------------------------------------------ *)

(** Glyph texts are Unicode strings: sequences of code points. *)
Definition ustr : Set := list Z.

Module UStr.
Local Open Scope Z_scope.

Definition SPACE : ustr := [32].
Definition REPLACEMENT_CHARACTER : ustr := [65533].

(** [s.startswith(" ")] and [s.endswith(" ")]. *)
Definition startswith_space (s : ustr) : bool :=
  match s with
  | c :: _ => c =? 32
  | [] => false
  end.

Definition endswith_space (s : ustr) : bool :=
  match rev s with
  | c :: _ => c =? 32
  | [] => false
  end.

Definition eqb (s1 s2 : ustr) : bool :=
  if list_eq_dec Z.eq_dec s1 s2 then true else false.

(** [".".join(parts)] with the empty separator. *)
Definition join (parts : list ustr) : ustr := List.concat parts.

End UStr.

Module Glyph.
(** [class Glyph]: immutable, and without an [__eq__] of its own. *)
Record t : Set := mk
  { character_code : Z; unicode_str : ustr; width : Decimal.t }.
End Glyph.

Module Font.
(** The Font capability, as far as glyph lines use it. *)
Record t : Type := mk
  { character_identifier_to_unicode : Z -> option ustr;
    get_width : Z -> option Decimal.t }.
End Font.

Module GlyphLine.
Local Open Scope Z_scope.

(** The state of a [GlyphLine] object.  No method hands the list
    [_glyphs] to another object, so the list lives in the object. *)
Record t : Type := mk
  { _glyphs : list Glyph.t;
    _font : Font.t;
    _font_size : Decimal.t;
    _character_spacing : Decimal.t;
    _word_spacing : Decimal.t;
    _horizontal_scaling : Decimal.t }.

Definition code (b : byte) : Z := Z.of_N (Byte.to_N b).

(** [font.get_width(c) or Decimal(0)]: [None] and zero are both false. *)
Definition width_or_zero (w : option Decimal.t) : Decimal.t :=
  match w with
  | Some d => Decimal.or_ d (Dec 0)
  | None => Dec 0
  end.

(** The glyph for the single byte [b]: its mapping, or the fallback. *)
Definition single_byte_glyph (font : Font.t) (b : byte) : Glyph.t :=
  match Font.character_identifier_to_unicode font (code b) with
  | Some unicode_chars =>
      Glyph.mk (code b) unicode_chars
        (width_or_zero (Font.get_width font (code b)))
  | None => Glyph.mk (code b) UStr.REPLACEMENT_CHARACTER (Dec 250)
  end.

(** The loop of [__init__], on the bytes [text_bytes[i:]] still to read:
    two bytes first, then one byte, then the fallback glyph. *)
Fixpoint glyphs_of_bytes (font : Font.t) (text_bytes : list byte)
  : list Glyph.t :=
  match text_bytes with
  | [] => []
  | b0 :: rest =>
      match rest with
      | b1 :: rest' =>
          let multi_byte_char_code := code b0 * 256 + code b1 in
          match Font.character_identifier_to_unicode font multi_byte_char_code with
          | Some unicode_chars =>
              Glyph.mk multi_byte_char_code unicode_chars
                (width_or_zero (Font.get_width font multi_byte_char_code))
              :: glyphs_of_bytes font rest'
          | None => single_byte_glyph font b0 :: glyphs_of_bytes font rest
          end
      | [] => single_byte_glyph font b0 :: glyphs_of_bytes font rest
      end
  end.

(** The object [__init__] leaves behind. *)
Definition init (text_bytes : list byte) (font : Font.t)
  (font_size character_spacing word_spacing horizontal_scaling : Decimal.t)
  : t :=
  mk (glyphs_of_bytes font text_bytes) font font_size character_spacing
     word_spacing horizontal_scaling.

(** [_isspace(c)] under the test [len(c) == 1]. *)
Definition _isspace (c : ustr) : bool :=
  match c with
  | [n] => existsb (Z.eqb n) [9; 10; 11; 12; 13; 32]
  | _ => false
  end.

Definition is_single_space (u : ustr) : bool :=
  (Z.of_nat (List.length u) =? 1) && _isspace u.

(** The body of the loop of [get_width_in_text_space] for one glyph. *)
Definition glyph_width_in_text_space (self : t) (g : Glyph.t) : Decimal.t :=
  let w := (Glyph.width g * _font_size self * Decimal.d0_001)%dec in
  let w := if is_single_space (Glyph.unicode_str g)
           then (w + _word_spacing self)%dec else w in
  let w := (w * (_horizontal_scaling self / Dec 100))%dec in
  (w + _character_spacing self)%dec.

Definition get_width_in_text_space (self : t) : Decimal.t :=
  let w := fold_left
             (fun w g => (w + glyph_width_in_text_space self g)%dec)
             (_glyphs self) (Dec 0) in
  (w - _character_spacing self)%dec.

Definition get_text (self : t) : ustr :=
  UStr.join (map Glyph.unicode_str (_glyphs self)).

(** [uses_descent]: some character of the text is one of
    [y p q f g j]. *)
Definition uses_descent (self : t) : bool :=
  existsb (fun x => existsb (Z.eqb x) [121; 112; 113; 102; 103; 106])
    (get_text self).

(** [__len__] *)
Definition len (self : t) : Z := Z.of_nat (List.length (_glyphs self)).

End GlyphLine.

(** *** Objects in a store: [GlyphLine.split] *)

Module Heap.

Abbreviation loc := nat.
Abbreviation heap := (gmap loc GlyphLine.t).

(** A constructor call: a new object at an unused location. *)
Definition new_GlyphLine (text_bytes : list byte) (font : Font.t)
  (font_size character_spacing word_spacing horizontal_scaling : Decimal.t)
  (h : heap) : loc * heap :=
  let l := fresh (dom h) in
  (l, <[l := GlyphLine.init text_bytes font font_size character_spacing
               word_spacing horizontal_scaling]> h).

(** [obj._glyphs = glyphs] *)
Definition set_glyphs (l : loc) (glyphs : list Glyph.t) (h : heap)
  : option heap :=
  o ← h !! l;
  Some (<[l := GlyphLine.mk glyphs (GlyphLine._font o)
                 (GlyphLine._font_size o) (GlyphLine._character_spacing o)
                 (GlyphLine._word_spacing o)
                 (GlyphLine._horizontal_scaling o)]> h).

(** The loop of [split]: the iterator over [self._glyphs] stands at
    index [i] and reads the receiver in the current store. *)
Fixpoint split_loop (fuel : nat) (self : loc) (i : nat) (out : list loc)
  (h : heap) : option (list loc * heap) :=
  match fuel with
  | O => None
  | S f =>
      o ← h !! self;
      match GlyphLine._glyphs o !! i with
      | None => Some (out, h)
      | Some g =>
          let '(l, h) :=
            new_GlyphLine [] (GlyphLine._font o) (GlyphLine._font_size o)
              (GlyphLine._character_spacing o) (GlyphLine._word_spacing o)
              (GlyphLine._horizontal_scaling o) h in
          let out := out ++ [l] in
          h ← set_glyphs l [g] h;
          split_loop f self (S i) out h
      end
  end.

(** [self.split()]; [None] if [self] is no object of the store or the
    fuel runs out. *)
Definition split (self : loc) (h : heap) : option (list loc * heap) :=
  o ← h !! self;
  split_loop (S (List.length (GlyphLine._glyphs o))) self 0 [] h.

(** The argument of [append]: a glyph, or a glyph line of the store. *)
Inductive glyph_or_glyphline : Type :=
  | a_Glyph (g : Glyph.t)
  | a_GlyphLine (l : loc).

(** [self._glyphs.append(g)]: the list of the object grows in place. *)
Definition push_glyph (self : loc) (g : Glyph.t) (h : heap) : option heap :=
  o ← h !! self;
  set_glyphs self (GlyphLine._glyphs o ++ [g]) h.

(** The loop of [append]: the iterator over the list of the argument
    stands at index [i] and reads that list in the current store, as a
    Python list iterator does; the loop ends when the index reaches the
    length the list has by then. *)
Fixpoint append_loop (fuel : nat) (self other : loc) (i : nat) (h : heap)
  : option heap :=
  match fuel with
  | O => None
  | S f =>
      o ← h !! other;
      match GlyphLine._glyphs o !! i with
      | None => Some h
      | Some g =>
          h ← push_glyph self g h;
          append_loop f self other (S i) h
      end
  end.

(** [self.append(glyph_or_glyphline)], which returns [self]; [None] if
    an object is missing from the store or the loop has not ended after
    [fuel] turns. *)
Definition append (fuel : nat) (self : loc) (x : glyph_or_glyphline)
  (h : heap) : option (loc * heap) :=
  match x with
  | a_Glyph g => h ← push_glyph self g h; Some (self, h)
  | a_GlyphLine other => h ← append_loop fuel self other 0 h; Some (self, h)
  end.

End Heap.

(* ------------------------------------------------------------------ *)
(** ** text_render_event.py                                             *)
(* ------------------------------------------------------------------ *)

Module LineSegment.
Record t : Set := mk
  { x0 : Decimal.t; y0 : Decimal.t; x1 : Decimal.t; y1 : Decimal.t }.
End LineSegment.

Module CanvasGraphicsState.
(** The fields of the graphics state that text-render events read. *)
Record t : Set := mk
  { font_size : Decimal.t;
    character_spacing : Decimal.t;
    word_spacing : Decimal.t;
    horizontal_scaling : Decimal.t;
    text_rise : Decimal.t }.
End CanvasGraphicsState.

Module TextRenderEvent.

Section WithGeometry.
(** The matrix and colour classes live elsewhere in the library; events
    need a matrix only to hand it to [LineSegment.transform_by]. *)
Variables Matrix Color : Type.
Variable transform_by : LineSegment.t -> Matrix -> LineSegment.t.

Record t : Type := mk
  { graphics_state : CanvasGraphicsState.t;
    raw_bytes : string;
    glyph_line : list Glyph.t;
    text_to_user_space_transform_matrix : Matrix;
    font_family : string;
    font_ascent : Decimal.t;
    font_size : Decimal.t;
    font_color : Color;
    character_spacing : Decimal.t;
    space_character_width : Decimal.t;
    baseline : LineSegment.t }.

Definition get_text (self : t) : ustr :=
  UStr.join (map Glyph.unicode_str (glyph_line self)).
Definition get_baseline (self : t) : LineSegment.t := baseline self.
Definition get_space_character_width_in_text_space (self : t) : Decimal.t :=
  space_character_width self.

(** [g == " "] for a glyph [g]: [Glyph] has no [__eq__], so Python falls
    back on identity, and a glyph is never the string [" "]. *)
Definition glyph_eq_str (g : Glyph.t) (s : ustr) : bool := false.

(** One turn of the loop of [_get_pdf_string_width_in_text_space]. *)
Definition character_width (gs : CanvasGraphicsState.t) (g : Glyph.t)
  : Decimal.t :=
  let w := (Glyph.width g * CanvasGraphicsState.font_size gs
            * Decimal.d0_001)%dec in
  let w := if UStr.eqb (Glyph.unicode_str g) UStr.SPACE
           then (w + CanvasGraphicsState.word_spacing gs)%dec else w in
  let w := (w * (CanvasGraphicsState.horizontal_scaling gs / Dec 100))%dec in
  (w + CanvasGraphicsState.character_spacing gs)%dec.

Definition _get_pdf_string_width_in_text_space (self : t)
  (gs : CanvasGraphicsState.t) : Decimal.t :=
  let total_width :=
    fold_left (fun total g => (total + character_width gs g)%dec)
      (glyph_line self) (Dec 0) in
  (total_width - CanvasGraphicsState.character_spacing gs)%dec.

(** [_get_baseline]: from [(0, text_rise)] to [(width, text_rise)],
    transformed to user space. *)
Definition _get_baseline (self : t) (gs : CanvasGraphicsState.t)
  : LineSegment.t :=
  transform_by
    (LineSegment.mk (Dec 0) (CanvasGraphicsState.text_rise gs)
       (Decimal.or_ (_get_pdf_string_width_in_text_space self gs) (Dec 0))
       (CanvasGraphicsState.text_rise gs))
    (text_to_user_space_transform_matrix self).

(** [__init__]: the width of a space, from the estimate of the font. *)
Definition space_character_width_of (estimate : Decimal.t)
  (gs : CanvasGraphicsState.t) : Decimal.t :=
  (estimate * Decimal.d0_001 * CanvasGraphicsState.font_size gs
   * CanvasGraphicsState.horizontal_scaling gs * Decimal.d0_01)%dec.

(** The advance [w] of one glyph in [split_on_glyphs]. *)
Definition glyph_advance (gs : CanvasGraphicsState.t) (g : Glyph.t)
  : Decimal.t :=
  (Glyph.width g * CanvasGraphicsState.font_size gs * Decimal.d0_001
   * (CanvasGraphicsState.horizontal_scaling gs / Dec 100)
   + (if glyph_eq_str g UStr.SPACE
      then CanvasGraphicsState.word_spacing gs else Dec 0)
   + CanvasGraphicsState.character_spacing gs)%dec.

(** The event [split_on_glyphs] builds for the glyph [g] whose segment
    starts at [prev_x]: a fresh event on the same graphics state (raw
    bytes [" "]), its fields overwritten one by one. *)
Definition glyph_event (self : t) (g : Glyph.t) (prev_x : Decimal.t) : t :=
  let gs := graphics_state self in
  let y := CanvasGraphicsState.text_rise gs in
  let w := glyph_advance gs g in
  mk gs " " [g]
     (text_to_user_space_transform_matrix self)
     (font_family self) (font_ascent self) (font_size self)
     (font_color self)
     (CanvasGraphicsState.character_spacing gs)
     (space_character_width self)
     (transform_by (LineSegment.mk prev_x y (prev_x + w)%dec y)
        (text_to_user_space_transform_matrix self)).

Fixpoint split_loop (self : t) (glyphs : list Glyph.t) (prev_x : Decimal.t)
  : list t :=
  match glyphs with
  | [] => []
  | g :: glyphs' =>
      glyph_event self g prev_x
      :: split_loop self glyphs'
           (prev_x + glyph_advance (graphics_state self) g)%dec
  end.

Definition split_on_glyphs (self : t) : list t :=
  split_loop self (glyph_line self) (Dec 0).

(** [LeftToRightComparator.cmp]; [None] when [%] raises. *)
Definition cmp (obj0 obj1 : t) : option Decimal.t :=
  let y0_round := LineSegment.y0 (get_baseline obj0) in
  r0 ← Decimal.rem y0_round (Dec 5);
  let y0_round := (y0_round - r0)%dec in
  let y1_round := LineSegment.y0 (get_baseline obj1) in
  r1 ← Decimal.rem y1_round (Dec 5);
  let y1_round := (y1_round - r1)%dec in
  if (y0_round =? y1_round)%dec
  then Some (LineSegment.x0 (get_baseline obj0)
             - LineSegment.x0 (get_baseline obj1))%dec
  else Some (- (y0_round - y1_round))%dec.

End WithGeometry.

Arguments graphics_state {Matrix Color} _.
Arguments raw_bytes {Matrix Color} _.
Arguments glyph_line {Matrix Color} _.
Arguments text_to_user_space_transform_matrix {Matrix Color} _.
Arguments font_family {Matrix Color} _.
Arguments font_ascent {Matrix Color} _.
Arguments font_size {Matrix Color} _.
Arguments font_color {Matrix Color} _.
Arguments character_spacing {Matrix Color} _.
Arguments space_character_width {Matrix Color} _.
Arguments baseline {Matrix Color} _.
Arguments get_text {Matrix Color} self.
Arguments get_baseline {Matrix Color} self.
Arguments get_space_character_width_in_text_space {Matrix Color} self.
Arguments _get_pdf_string_width_in_text_space {Matrix Color} self gs.
Arguments _get_baseline {Matrix Color} transform_by self gs.
Arguments glyph_event {Matrix Color} transform_by self g prev_x.
Arguments split_loop {Matrix Color} transform_by self glyphs prev_x.
Arguments split_on_glyphs {Matrix Color} transform_by self.
Arguments cmp {Matrix Color} obj0 obj1.

End TextRenderEvent.

(* ------------------------------------------------------------------ *)
(** ** line_render_event.py                                             *)
(* ------------------------------------------------------------------ *)

Module LineRenderEvent.

Section WithGeometry.
Variables Matrix Color : Type.
Abbreviation event := (TextRenderEvent.t Matrix Color).

(** [max(e.get_baseline().x0, e.get_baseline().x1)] *)
Definition right_end (e : event) : Decimal.t :=
  Decimal.max2 (LineSegment.x0 (TextRenderEvent.get_baseline e))
               (LineSegment.x1 (TextRenderEvent.get_baseline e)).

Definition left_end (e : event) : Decimal.t :=
  Decimal.min2 (LineSegment.x0 (TextRenderEvent.get_baseline e))
               (LineSegment.x1 (TextRenderEvent.get_baseline e)).

(** The space [get_text] puts before the text of [e], given the right
    edge reached so far; [None] when [round] raises. *)
Definition inferred_space (right : Decimal.t) (e : event) : option ustr :=
  let delta :=
    Decimal.abs (right - LineSegment.x0 (TextRenderEvent.get_baseline e))%dec in
  space_width ←
    Decimal.round (TextRenderEvent.get_space_character_width_in_text_space e) 1;
  Some (if (space_width * Decimal.d0_90 <? delta)%dec then UStr.SPACE else []).

(** The loop of [get_text], with its two variables. *)
Fixpoint get_text_loop (events : list event) (text : ustr)
  (right : Decimal.t) : option ustr :=
  match events with
  | [] => Some text
  | e :: events' =>
      if UStr.startswith_space (TextRenderEvent.get_text e)
         || UStr.endswith_space text
      then get_text_loop events' (text ++ TextRenderEvent.get_text e)
             (right_end e)
      else
        sp ← inferred_space right e;
        get_text_loop events' ((text ++ sp) ++ TextRenderEvent.get_text e)
          (right_end e)
  end.

(** [get_text]; [None] when an exception is raised (no contained event,
    or [round] out of range). *)
Definition get_text (contained_events : list event) : option ustr :=
  match contained_events with
  | [] => None
  | e0 :: _ => get_text_loop contained_events [] (left_end e0)
  end.

Fixpoint get_baseline_loop (events : list event) (min_x max_x : Decimal.t)
  : Decimal.t * Decimal.t :=
  match events with
  | [] => (min_x, max_x)
  | e :: events' =>
      let bl := TextRenderEvent.get_baseline e in
      get_baseline_loop events'
        (Decimal.min3 min_x (LineSegment.x0 bl) (LineSegment.x1 bl))
        (Decimal.max3 max_x (LineSegment.x0 bl) (LineSegment.x1 bl))
  end.

(** [get_baseline]; [None] for the IndexError of an empty line. *)
Definition get_baseline (contained_events : list event)
  : option LineSegment.t :=
  match contained_events with
  | [] => None
  | e0 :: _ =>
      let min_x := left_end e0 in
      let max_x := left_end e0 in
      let y := LineSegment.y0 (TextRenderEvent.get_baseline e0) in
      let (min_x, max_x) := get_baseline_loop contained_events min_x max_x in
      Some (LineSegment.mk min_x y max_x y)
  end.

End WithGeometry.

Arguments get_text {Matrix Color} contained_events.
Arguments get_baseline {Matrix Color} contained_events.
Arguments inferred_space {Matrix Color} right e.
Arguments right_end {Matrix Color} e.
Arguments left_end {Matrix Color} e.

End LineRenderEvent.

(* ------------------------------------------------------------------ *)
(** ** simple_non_ligature_text_extraction.py                           *)
(* ------------------------------------------------------------------ *)

Module SimpleNonLigatureTextExtraction.
Local Open Scope Z_scope.

(** [self.ligatures_to_replace], a dict: its items in insertion order,
    the characters by code point. *)
Definition ligatures_to_replace : list (ustr * ustr) :=
  [ ([42802], [65; 65]);
    ([42803], [97; 97]);
    ([198], [65; 69]);
    ([230], [97; 101]);
    ([43825], [97; 601]);
    ([42804], [65; 79]);
    ([42805], [97; 111]);
    ([42806], [65; 85]);
    ([42807], [97; 117]);
    ([42808], [65; 86]);
    ([42809], [97; 118]);
    ([42810], [65; 86]);
    ([42811], [97; 118]);
    ([42812], [65; 89]);
    ([42813], [97; 121]);
    ([128624], [101; 116]);
    ([43841], [601; 248]);
    ([64256], [102; 102]);
    ([64259], [102; 102; 105]);
    ([64260], [102; 102; 108]);
    ([64257], [102; 105]);
    ([64258], [102; 108]);
    ([8468], [108; 98]);
    ([7930], [73; 76]);
    ([7931], [108; 108]);
    ([338], [79; 69]);
    ([339], [111; 101]);
    ([42830], [79; 79]);
    ([42831], [111; 111]);
    ([43874], [596; 101]);
    ([383; 115], [7838]);
    ([383; 122], [223]);
    ([64262], [115; 116]);
    ([64261], [383; 116]);
    ([42792], [84; 90]);
    ([42793], [116; 122]);
    ([7531], [117; 101]);
    ([43875], [117; 111]);
    ([87], [86; 86]);
    ([119], [118; 118]);
    ([42848], [86; 89]);
    ([42849], [118; 121]) ].

(** What a call does: it returns a value or raises ValueError. *)
Inductive outcome (A : Type) : Type :=
  | Returned (a : A)
  | Raised_ValueError.
Arguments Returned {A} a.
Arguments Raised_ValueError {A}.

(** [k, v = s] for a str [s]: the two characters of [s]; [None] for the
    ValueError of a str of any other length. *)
Definition unpack_pair (s : ustr) : option (ustr * ustr) :=
  match s with
  | [a; b] => Some ([a], [b])
  | _ => None
  end.

Fixpoint startswith (text k : ustr) : bool :=
  match k, text with
  | [], _ => true
  | c :: k', d :: text' => (c =? d) && startswith text' k'
  | _ :: _, [] => false
  end.

(** [k in text] *)
Fixpoint contains (k text : ustr) : bool :=
  startswith text k
  || match text with
     | [] => false
     | _ :: text' => contains k text'
     end.

(** [text.replace(k, v)] for [k] not empty: from left to right, without
    overlap; [skip] characters of a match are still to pass over. *)
Fixpoint replace_from (k v : ustr) (skip : nat) (text : ustr) : ustr :=
  match text with
  | [] => []
  | c :: text' =>
      match skip with
      | S n => replace_from k v n text'
      | O =>
          if startswith text k
          then v ++ replace_from k v (List.length k - 1) text'
          else c :: replace_from k v 0 text'
      end
  end.

(** [text.replace(k, v)]; for the empty [k], [v] goes before every
    character and at the end. *)
Definition replace (text k v : ustr) : ustr :=
  match k with
  | [] => flat_map (fun c => v ++ [c]) text ++ v
  | _ => replace_from k v 0 text
  end.

(** [[k in text for k, v in self.ligatures_to_replace]]: iterating a
    dict gives its keys, and each key is unpacked into [k, v]. *)
Fixpoint key_flags (keys : list ustr) (text : ustr) : option (list bool) :=
  match keys with
  | [] => Some []
  | key :: keys' =>
      '(k, v) ← unpack_pair key;
      flags ← key_flags keys' text;
      Some (contains k text :: flags)
  end.

(** [for k, v in self.ligatures_to_replace.items():
       text = text.replace(k, v)] *)
Definition replace_ligatures (text : ustr) : ustr :=
  fold_left (fun text '(k, v) => replace text k v) ligatures_to_replace text.

(** The [while] loop of [get_text]. *)
Fixpoint get_text_loop (fuel : nat) (text : ustr) : option (outcome ustr) :=
  match fuel with
  | O => None
  | S f =>
      match key_flags (map fst ligatures_to_replace) text with
      | None => Some Raised_ValueError
      | Some flags =>
          if existsb id flags
          then get_text_loop f (replace_ligatures text)
          else Some (Returned text)
      end
  end.

(** [get_text(page_nr)], with the texts [self.text_per_page] of the
    pages; [None] if the loop has not ended after [fuel] turns. *)
Definition get_text (fuel : nat) (text_per_page : gmap Z ustr) (page_nr : Z)
  : option (outcome ustr) :=
  match text_per_page !! page_nr with
  | Some text => get_text_loop fuel text
  | None => Some (Returned [])
  end.

End SimpleNonLigatureTextExtraction.

(* ================================================================== *)
(** * Vocabulary of the statements and example inputs                   *)
(* ================================================================== *)

Module Decimal_defs.
Import Decimal.
Local Open Scope Z_scope.

(** The integer [a / 10 ^ m], for [m] up to the exponent of [a]. *)
Definition scaled (a : t) (m : Z) : Z := coef a * 10 ^ (expo a - m).

(** How [a] and [b] compare: -1, 0 or 1. *)
Definition order (a b : t) : Z :=
  if ltb a b then -1 else if ltb b a then 1 else 0.

End Decimal_defs.

Module Tokenizer_defs.
Import PyStr Tokenizer.
Local Open Scope string_scope.

(** Bytes not yet read. *)
Definition remaining (s : io_source) : nat := List.length (data s) - pos s.

(** What a loop needs of its result for the next one to go on. *)
Definition advanced (s s' : io_source) : Prop :=
  data s' = data s /\ (remaining s' <= remaining s)%nat /\ (pos s <= pos s')%nat.

(** Fuel a loop with a lookahead character needs: none of the stream is
    read once the lookahead is empty. *)
Definition budget (ch : string) (s : io_source) : nat :=
  match ch with
  | EmptyString => 0
  | _ => S (remaining s)
  end.

Definition whitespace_byte (b : byte) : Prop :=
  _is_whitespace (String (ascii_of_byte b) EmptyString) = true.

(** Only whitespace from the cursor on. *)
Definition only_whitespace_left (s : io_source) : Prop :=
  forall i b, (pos s <= i)%nat -> nth_error (data s) i = Some b ->
              whitespace_byte b.

(** [d[i:j]], decoded. *)
Definition slice (d : list byte) (i j : nat) : string :=
  decode_latin1 (firstn (j - i) (skipn i d)).

(** [ch] is what the read at position [p] returned, and [s] the source
    after it: the byte at [p], or nothing at the end of the stream. *)
Definition looked (p : nat) (ch : string) (s : io_source) : Prop :=
  (ch = EmptyString /\ pos s = p /\ (List.length (data s) <= p)%nat) \/
  (exists b, nth_error (data s) p = Some b /\
             ch = String (ascii_of_byte b) EmptyString /\ pos s = S p).

(** The bytes from [p] up to [q] are whitespace. *)
Definition whitespace_between (d : list byte) (p q : nat) : Prop :=
  forall i, (p <= i < q)%nat ->
    exists b, nth_error d i = Some b /\ whitespace_byte b.

(** Every character of [s] passes the test [P]. *)
Fixpoint every_char (P : string -> bool) (s : string) : bool :=
  match s with
  | EmptyString => true
  | String c s' => P (String c EmptyString) && every_char P s'
  end.

Definition tail (s : string) : string :=
  match s with
  | EmptyString => EmptyString
  | String _ s' => s'
  end.

(** The text a token of each kind can have. *)
Definition shape (ty : TokenType) (txt : string) : bool :=
  match ty with
  | START_ARRAY => String.eqb txt "["
  | END_ARRAY => String.eqb txt "]"
  | START_DICT => String.eqb txt "<<"
  | END_DICT => String.eqb txt ">>"
  | NAME => String.prefix "/" txt
            && every_char (fun c => negb (_is_delimiter c)) (tail txt)
  | COMMENT => String.prefix "%" txt
               && every_char (fun c => negb (String.eqb c CR)
                                       && negb (String.eqb c LF)) txt
  | HEX_STRING => String.prefix "<" txt
  | STRING => String.prefix "(" txt && endswith txt ")"
  | NUMBER => every_char is_number_char txt
  | OTHER => every_char (fun c => negb (_is_delimiter c)) txt
  | REF | OBJ | END_OBJ | END_OF_FILE => false
  end.

(** Where a token of each kind stops: the byte [next] after it, if
    there is one, is a delimiter after a NAME or an OTHER, no character
    of a number after a NUMBER, and a line end after a COMMENT. *)
Definition stops (ty : TokenType) (next : option byte) : bool :=
  match next with
  | None => true
  | Some b =>
      let c := String (ascii_of_byte b) EmptyString in
      match ty with
      | NAME | OTHER => _is_delimiter c
      | NUMBER => negb (is_number_char c)
      | COMMENT => String.eqb c CR || String.eqb c LF
      | _ => true
      end
  end.

(** What [next_token] makes of the input from [p] on, [p] being the
    position of the first byte that is not whitespace: a token that
    starts at [p] and whose text is the input up to the new cursor, or
    one of two exceptions.  The cursor stays at [p] only on a closing
    parenthesis, and a token stops where [stops] says. *)
Definition scanned (d : list byte) (p : nat) (r : result (option Token))
  (s' : io_source) : Prop :=
  data s' = d /\ (p <= pos s')%nat /\
  (pos s' = p -> nth_error d p = Some ")"%byte) /\
  match r with
  | Return (Some tok) =>
      byte_offset tok = Z.of_nat p /\
      text tok = slice d p (pos s') /\
      shape (token_type tok) (text tok) = true /\
      stops (token_type tok) (nth_error d (pos s')) = true
  | Return None => False
  | Raise e =>
      e = PDFEOFError None \/
      exists ch, e = PDFSyntaxError
                       ("invalid character, expected >, received " ++ ch)
                       (Some (tell s'))
  end.

End Tokenizer_defs.

Module GlyphLine_defs.
Import GlyphLine.
Local Open Scope Z_scope.

(** A font that maps every single-byte code, and no other code, to a
    text of one character, with width 500. *)
Definition single_byte_font (font : Font.t) : Prop :=
  (forall c, 0 <= c <= 255 ->
     (exists u, Font.character_identifier_to_unicode font c = Some [u]) /\
     Font.get_width font c = Some (Dec 500)) /\
  (forall c, ~ 0 <= c <= 255 ->
     Font.character_identifier_to_unicode font c = None).

(** The text of the bytes under the font's mapping, byte by byte. *)
Definition decode (font : Font.t) (text_bytes : list byte) : ustr :=
  UStr.join
    (map (fun b => default [] (Font.character_identifier_to_unicode font (code b)))
       text_bytes).

(** No zero byte has a byte after it. *)
Fixpoint zero_only_last (text_bytes : list byte) : bool :=
  match text_bytes with
  | b0 :: (_ :: _) as rest => negb (code b0 =? 0) && zero_only_last rest
  | _ => true
  end.

(** The glyph the constructor makes of the bytes [chunk] it reads in
    one turn of its loop: two bytes whose code the font maps, or one
    byte. *)
Definition chunk_glyph (font : Font.t) (chunk : list byte) (g : Glyph.t)
  : Prop :=
  match chunk with
  | [b] => g = single_byte_glyph font b
  | [b0; b1] =>
      exists u,
        Font.character_identifier_to_unicode font (code b0 * 256 + code b1)
        = Some u /\
        g = Glyph.mk (code b0 * 256 + code b1) u
              (width_or_zero (Font.get_width font (code b0 * 256 + code b1)))
  | _ => False
  end.

(** A font that maps no code. *)
Definition unmapped_font : Font.t := Font.mk (fun _ => None) (fun _ => None).

(** The line [self] with another word spacing. *)
Definition with_word_spacing (self : t) (word_spacing : Decimal.t) : t :=
  mk (_glyphs self) (_font self) (_font_size self) (_character_spacing self)
     word_spacing (_horizontal_scaling self).

(** The font of the examples: code [c] is the character [c]. *)
Definition latin1_font : Font.t :=
  Font.mk (fun c => if (0 <=? c) && (c <=? 255) then Some [c] else None)
          (fun c => if (0 <=? c) && (c <=? 255) then Some (Dec 500) else None).

End GlyphLine_defs.

Module Heap_defs.
Import Heap.

(** The line [split] makes for the glyph [g] of the receiver [o]. *)
Definition singleton_of (o : GlyphLine.t) (g : Glyph.t) : GlyphLine.t :=
  GlyphLine.mk [g] (GlyphLine._font o) (GlyphLine._font_size o)
    (GlyphLine._character_spacing o) (GlyphLine._word_spacing o)
    (GlyphLine._horizontal_scaling o).

(** The glyphs of the object at [l]. *)
Definition glyphs_at (h : heap) (l : loc) : list Glyph.t :=
  default [] (GlyphLine._glyphs <$> h !! l).

(** Every object of [h] is in [h'], unchanged. *)
Definition preserved (h h' : heap) : Prop :=
  forall l x, h !! l = Some x -> h' !! l = Some x.

(** The line [o] with the glyphs [glyphs]. *)
Definition with_glyphs (o : GlyphLine.t) (glyphs : list Glyph.t)
  : GlyphLine.t :=
  GlyphLine.mk glyphs (GlyphLine._font o) (GlyphLine._font_size o)
    (GlyphLine._character_spacing o) (GlyphLine._word_spacing o)
    (GlyphLine._horizontal_scaling o).

(** [for l in lines: self.append(l)] *)
Fixpoint append_all (fuel : nat) (self : loc) (lines : list loc) (h : heap)
  : option heap :=
  match lines with
  | [] => Some h
  | l :: lines' =>
      '(_, h) ← append fuel self (a_GlyphLine l) h;
      append_all fuel self lines' h
  end.

(** A line of two glyphs, for a store that holds it at location 0. *)
Definition two_glyph_line : GlyphLine.t :=
  GlyphLine.init ["H"%byte; "i"%byte] GlyphLine_defs.latin1_font (Dec 12)
    (Dec 0) (Dec 0) (Dec 100).

End Heap_defs.

Module Event_defs.
Import TextRenderEvent.
Local Open Scope Z_scope.

(** A whitespace character other than the space: tab, line feed,
    vertical tab, form feed or carriage return. *)
Definition other_whitespace (u : ustr) : bool :=
  match u with
  | [n] => existsb (Z.eqb n) [9; 10; 11; 12; 13]
  | _ => false
  end.

(** The graphics state carries the scalars of the line. *)
Definition same_scalars (gs : CanvasGraphicsState.t) (line : GlyphLine.t)
  : Prop :=
  CanvasGraphicsState.font_size gs = GlyphLine._font_size line /\
  CanvasGraphicsState.character_spacing gs = GlyphLine._character_spacing line /\
  CanvasGraphicsState.word_spacing gs = GlyphLine._word_spacing line /\
  CanvasGraphicsState.horizontal_scaling gs = GlyphLine._horizontal_scaling line.

(** The text-space segments of [split_on_glyphs], before
    [transform_by]. *)
Fixpoint text_space_segments (gs : CanvasGraphicsState.t)
  (glyphs : list Glyph.t) (prev_x : Decimal.t) : list LineSegment.t :=
  match glyphs with
  | [] => []
  | g :: glyphs' =>
      let y := CanvasGraphicsState.text_rise gs in
      let w := glyph_advance gs g in
      LineSegment.mk prev_x y (prev_x + w)%dec y
      :: text_space_segments gs glyphs' (prev_x + w)%dec
  end.

(** Segments that start at [start], each where the one before ends. *)
Fixpoint chained (start : Decimal.t) (segments : list LineSegment.t) : Prop :=
  match segments with
  | [] => True
  | seg :: segments' =>
      LineSegment.x0 seg = start /\ chained (LineSegment.x1 seg) segments'
  end.

(** The graphics state [gs] with another word spacing. *)
Definition state_with_word_spacing (gs : CanvasGraphicsState.t)
  (word_spacing : Decimal.t) : CanvasGraphicsState.t :=
  CanvasGraphicsState.mk (CanvasGraphicsState.font_size gs)
    (CanvasGraphicsState.character_spacing gs) word_spacing
    (CanvasGraphicsState.horizontal_scaling gs)
    (CanvasGraphicsState.text_rise gs).

(** The event [e] on another graphics state. *)
Definition on_state {Matrix Color : Type} (e : TextRenderEvent.t Matrix Color)
  (gs : CanvasGraphicsState.t) : TextRenderEvent.t Matrix Color :=
  TextRenderEvent.mk Matrix Color gs (raw_bytes e) (glyph_line e)
    (text_to_user_space_transform_matrix e) (font_family e) (font_ascent e)
    (font_size e) (font_color e) (character_spacing e)
    (space_character_width e) (baseline e).

(** What [split_on_glyphs] copies from the event [e] to the event [e']
    of a glyph. *)
Definition copied_from {Matrix Color : Type}
  (e e' : TextRenderEvent.t Matrix Color) : Prop :=
  graphics_state e' = graphics_state e /\
  text_to_user_space_transform_matrix e'
  = text_to_user_space_transform_matrix e /\
  font_size e' = font_size e /\
  font_color e' = font_color e /\
  font_family e' = font_family e /\
  font_ascent e' = font_ascent e /\
  space_character_width e' = space_character_width e.

(** The band of five units the comparator puts an event in:
    [y0 - y0 % 5]. *)
Definition band {Matrix Color : Type} (e : TextRenderEvent.t Matrix Color)
  : option Decimal.t :=
  let y := LineSegment.y0 (get_baseline e) in
  r ← Decimal.rem y (Dec 5); Some (y - r)%dec.

(** The x-coordinates of the two ends of the baselines of [events]. *)
Definition endpoints {Matrix Color : Type}
  (events : list (TextRenderEvent.t Matrix Color)) : list Decimal.t :=
  flat_map (fun e => [LineSegment.x0 (get_baseline e);
                      LineSegment.x1 (get_baseline e)]) events.

(** The texts [texts], each after its separator of [seps]. *)
Fixpoint interleave (seps texts : list ustr) : ustr :=
  match seps, texts with
  | sep :: seps', t :: texts' => sep ++ t ++ interleave seps' texts'
  | _, _ => []
  end.

(** Separators for [texts] after the text [text]: each is empty, or one
    space that neither follows a space nor comes before one. *)
Fixpoint separators (text : ustr) (seps texts : list ustr) : Prop :=
  match seps, texts with
  | [], [] => True
  | sep :: seps', t :: texts' =>
      (sep = [] \/
       (sep = UStr.SPACE /\ UStr.startswith_space t = false /\
        UStr.endswith_space text = false)) /\
      separators (text ++ sep ++ t) seps' texts'
  | _, _ => False
  end.

(** The events of the examples carry no matrix and no colour, and
    [transform_by] leaves their segments in text space. *)
Definition plain_event (gs : CanvasGraphicsState.t) (glyphs : list Glyph.t)
  (space_character_width : Decimal.t) (baseline : LineSegment.t)
  : TextRenderEvent.t unit unit :=
  TextRenderEvent.mk unit unit gs " " glyphs tt "Helvetica" (Dec 718)
    (CanvasGraphicsState.font_size gs) tt
    (CanvasGraphicsState.character_spacing gs) space_character_width baseline.

Definition no_transform (seg : LineSegment.t) (m : unit) : LineSegment.t := seg.

(** Font size 12, no character spacing, word spacing 5, scaling 100. *)
Definition spaced_state : CanvasGraphicsState.t :=
  CanvasGraphicsState.mk (Dec 12) (Dec 0) (Dec 5) (Dec 100) (Dec 0).

Definition origin_segment : LineSegment.t :=
  LineSegment.mk (Dec 0) (Dec 0) (Dec 0) (Dec 0).

Definition plain_state : CanvasGraphicsState.t :=
  CanvasGraphicsState.mk (Dec 12) (Dec 0) (Dec 0) (Dec 100) (Dec 0).

(** A one-glyph event with text [c], space width 10, from [x0] to [x1]
    on the line [y = 0]. *)
Definition letter_event (c : Z) (x0 x1 : Decimal.t)
  : TextRenderEvent.t unit unit :=
  plain_event plain_state [Glyph.mk c [c] (Dec 500)] (Dec 10)
    (LineSegment.mk x0 (Dec 0) x1 (Dec 0)).

End Event_defs.

(* ================================================================== *)
(** * Facts                                                             *)
(* ================================================================== *)

(* ------------------------------------------------------------------ *)
(** ** Decimal arithmetic                                               *)
(* ------------------------------------------------------------------ *)

Module Decimal_facts.
Import Decimal Decimal_defs.
Local Open Scope Z_scope.

Lemma ndigits_aux_bounds (fuel : nat) :
  forall n, 0 <= n < 2 ^ (Z.of_nat fuel + 1) ->
    1 <= ndigits_aux fuel n /\ n < 10 ^ ndigits_aux fuel n /\
    (0 < n -> 10 ^ (ndigits_aux fuel n - 1) <= n).
Proof.
  induction fuel as [|fuel IH]; intros n Hn; cbn [ndigits_aux].
  - change (2 ^ (Z.of_nat 0 + 1)) with 2 in Hn.
    repeat split; try lia.
  - destruct (Z.ltb_spec n 10) as [Hlt|Hge].
    + repeat split; try lia.
    + assert (Hq : 0 <= n / 10 < 2 ^ (Z.of_nat fuel + 1)).
      { split; [apply Z.div_pos; lia|].
        apply Z.div_lt_upper_bound; [lia|].
        replace (Z.of_nat (S fuel) + 1) with (Z.succ (Z.of_nat fuel + 1)) in Hn by lia.
        rewrite Z.pow_succ_r in Hn by lia. lia. }
      destruct (IH _ Hq) as (H1 & H2 & H3).
      set (d := ndigits_aux fuel (n / 10)) in *.
      assert (Hpos : 0 < n / 10) by (apply Z.div_str_pos; lia).
      specialize (H3 Hpos).
      pose proof (Z.div_mod n 10 ltac:(lia)) as Hdm.
      pose proof (Z.mod_pos_bound n 10 ltac:(lia)) as Hmod.
      replace (1 + d) with (Z.succ d) by lia.
      rewrite Z.pow_succ_r by lia.
      replace (Z.succ d - 1) with (Z.succ (d - 1)) by lia.
      rewrite Z.pow_succ_r by lia.
      repeat split; try lia.
  Qed.

Lemma ndigits_bounds (n : Z) :
  0 <= n ->
  1 <= ndigits n /\ n < 10 ^ ndigits n /\ (0 < n -> 10 ^ (ndigits n - 1) <= n).
Proof.
  intros Hn. unfold ndigits. apply ndigits_aux_bounds.
  split; [lia|].
  destruct (Z.eq_dec n 0) as [->|Hne]; [reflexivity|].
  rewrite Z2Nat.id by apply Z.log2_nonneg.
  replace (Z.log2 n + 1) with (Z.succ (Z.log2 n)) by lia.
  apply Z.log2_spec. lia.
Qed.

Lemma ndigits_le (n d : Z) : 0 <= n -> 0 < d -> n < 10 ^ d -> ndigits n <= d.
Proof.
  intros Hn Hd Hlt.
  destruct (ndigits_bounds n Hn) as (H1 & _ & H3).
  destruct (Z.eq_dec n 0) as [->|Hne]; [change (ndigits 0) with 1; lia|].
  specialize (H3 ltac:(lia)).
  destruct (Z.le_gt_cases (ndigits n) d) as [|Hgt]; [assumption|exfalso].
  assert (10 ^ d <= 10 ^ (ndigits n - 1)) by (apply Z.pow_le_mono_r; lia).
  lia.
Qed.

Lemma round_half_even_range (n k : Z) :
  0 <= n -> 0 < k ->
  n / 10 ^ k <= round_half_even n k <= n / 10 ^ k + 1.
Proof.
  intros _ _. unfold round_half_even.
  destruct (_ || _); lia.
Qed.

(** What [fix_] returns fits the precision. *)
Lemma fix_fits (d : t) : ndigits (Z.abs (coef (fix_ d))) <= prec.
Proof.
  unfold fix_.
  destruct (Z.leb_spec (ndigits (Z.abs (coef d))) prec) as [Hle|Hgt];
    [assumption|].
  set (n := Z.abs (coef d)) in *.
  assert (Hn : 0 <= n) by (subst n; lia).
  destruct (ndigits_bounds n Hn) as (_ & Hub & _).
  set (k := ndigits n - prec) in *.
  assert (Hk : 0 < k) by (subst k; lia).
  pose proof (round_half_even_range n k Hn Hk) as Hr.
  assert (Hq : 0 <= n / 10 ^ k < 10 ^ prec).
  { split; [apply Z.div_pos; [lia|apply Z.pow_pos_nonneg; lia]|].
    apply Z.div_lt_upper_bound; [apply Z.pow_pos_nonneg; lia|].
    rewrite <- Z.pow_add_r by (unfold prec; lia).
    replace (k + prec) with (ndigits n) by (subst k; lia). assumption. }
  set (q := round_half_even n k) in *.
  destruct (Z.eqb_spec q (10 ^ prec)) as [He|Hne]; cbn [coef].
  - rewrite He. change (10 ^ prec / 10) with (10 ^ 27).
    apply ndigits_le; [lia|unfold prec; lia|].
    rewrite Z.abs_mul. destruct (Z.sgn_spec (coef d)) as [[_ ->]|[[_ ->]|[_ ->]]];
      cbn; unfold prec; lia.
  - apply ndigits_le; [lia|unfold prec; lia|].
    rewrite Z.abs_mul.
    destruct (Z.sgn_spec (coef d)) as [[_ ->]|[[_ ->]|[_ ->]]];
      rewrite ?Z.abs_0, ?Z.mul_0_l; cbn [Z.abs Z.opp]; lia.
Qed.

Lemma fix_idempotent (d : t) : fix_ (fix_ d) = fix_ d.
Proof.
  pose proof (fix_fits d) as H.
  unfold fix_ at 1.
  destruct (Z.leb_spec (ndigits (Z.abs (coef (fix_ d)))) prec); [reflexivity|lia].
Qed.

(** Rounding works on the magnitude: it commutes with a change of sign. *)
Lemma fix_copy_negate (d : t) : fix_ (copy_negate d) = copy_negate (fix_ d).
Proof.
  unfold fix_, copy_negate; cbn [coef expo].
  rewrite Z.abs_opp, Z.sgn_opp.
  destruct (_ <=? prec); [reflexivity|].
  destruct (_ =? 10 ^ prec); cbn [coef expo]; f_equal; lia.
Qed.

Lemma copy_negate_involutive (d : t) : copy_negate (copy_negate d) = d.
Proof. destruct d; unfold copy_negate; cbn. f_equal. lia. Qed.

Lemma eqb_refl (a : t) : eqb a a = true.
Proof. unfold eqb, align. apply Z.eqb_refl. Qed.

Lemma eqb_sym (a b : t) : eqb a b = eqb b a.
Proof.
  unfold eqb, align. rewrite (Z.min_comm (expo b)). apply Z.eqb_sym.
Qed.

Lemma ltb_irrefl (a : t) : ltb a a = false.
Proof. unfold ltb, align. apply Z.ltb_irrefl. Qed.

Lemma ltb_asym (a b : t) : ltb a b = true -> ltb b a = false.
Proof.
  unfold ltb, align. rewrite (Z.min_comm (expo b)). lia.
Qed.

Lemma ltb_not_eqb (a b : t) : ltb a b = true -> eqb a b = false.
Proof. unfold ltb, eqb, align. lia. Qed.

Lemma ltb_not_eqb_sym (a b : t) : ltb a b = true -> eqb b a = false.
Proof. rewrite eqb_sym. apply ltb_not_eqb. Qed.

Lemma not_ltb_eqb (a b : t) : ltb a b = false -> ltb b a = false -> eqb a b = true.
Proof.
  unfold ltb, eqb, align. rewrite (Z.min_comm (expo b)). lia.
Qed.

Lemma zero_eq (e1 e2 : Z) : eq (mk 0 e1) (mk 0 e2).
Proof. unfold eq, eqb, align; cbn [coef expo]. rewrite !Z.mul_0_l. reflexivity. Qed.

(** [a - b] and [b - a] differ by the sign only. *)
Lemma sub_swap (a b : t) : sub b a = copy_negate (sub a b).
Proof.
  unfold sub, add, align, copy_negate at 1 2; cbn [coef expo].
  rewrite <- fix_copy_negate. unfold copy_negate; cbn [coef expo].
  rewrite (Z.min_comm (expo b)). f_equal. f_equal. lia.
Qed.

Lemma sub_fixed (a b : t) : fix_ (sub a b) = sub a b.
Proof. unfold sub, add, align. apply fix_idempotent. Qed.

(** [-(b - a)] is [a - b], and [-(a - b)] is [b - a]. *)
Lemma neg_sub (a b : t) : neg (sub b a) = sub a b.
Proof.
  unfold neg. rewrite (sub_swap a b), copy_negate_involutive.
  apply sub_fixed.
Qed.

Lemma sub_self (a : t) : sub a a = mk 0 (expo a).
Proof.
  unfold sub, add, align, copy_negate; cbn [coef expo].
  rewrite Z.min_id, Z.sub_diag. change (10 ^ 0) with 1.
  replace (coef a * 1 + - coef a * 1) with 0 by lia.
  reflexivity.
Qed.

(** Rounding keeps the sign: a number with more digits than the
    precision is not rounded to zero. *)
Lemma fix_sgn (d : t) : Z.sgn (coef (fix_ d)) = Z.sgn (coef d).
Proof.
  unfold fix_.
  destruct (Z.leb_spec (ndigits (Z.abs (coef d))) prec) as [Hle|Hgt];
    [reflexivity|].
  set (n := Z.abs (coef d)) in *.
  assert (Hn : 0 <= n) by (subst n; lia).
  destruct (ndigits_bounds n Hn) as (_ & _ & Hlb).
  assert (Hpos : 0 < n).
  { destruct (Z.eq_dec n 0) as [E|]; [|lia].
    rewrite E in Hgt. change (ndigits 0) with 1 in Hgt. unfold prec in Hgt. lia. }
  specialize (Hlb Hpos).
  set (k := ndigits n - prec) in *.
  assert (Hk : 0 < k) by (subst k; lia).
  pose proof (round_half_even_range n k Hn Hk) as Hr.
  assert (Hq : 10 ^ 27 <= n / 10 ^ k).
  { apply Z.div_le_lower_bound; [apply Z.pow_pos_nonneg; lia|].
    rewrite Z.mul_comm, <- Z.pow_add_r by lia.
    replace (27 + k) with (ndigits n - 1) by (subst k; unfold prec; lia).
    assumption. }
  set (q := round_half_even n k) in *.
  assert (H27 : 0 < 10 ^ 27) by (apply Z.pow_pos_nonneg; lia).
  destruct (Z.eqb_spec q (10 ^ prec)) as [He|Hne]; cbn [coef];
    rewrite Z.sgn_mul, Z.sgn_sgn.
  - rewrite He. change (10 ^ prec / 10) with (10 ^ 27).
    rewrite (Z.sgn_pos (10 ^ 27)) by lia. lia.
  - rewrite (Z.sgn_pos q) by lia. lia.
Qed.

(** The sign of [a - b] tells how [a] and [b] compare. *)
Lemma sub_sgn (a b : t) : Z.sgn (coef (sub a b)) = order a b.
Proof.
  unfold sub, add, order, ltb, align, copy_negate; cbn [coef expo].
  rewrite fix_sgn; cbn [coef]. rewrite (Z.min_comm (expo b)).
  set (x := coef a * _). set (y := coef b * _).
  replace (x + - coef b * 10 ^ (expo b - Z.min (expo a) (expo b)))
    with (x - y) by (subst y; lia).
  destruct (Z.ltb_spec x y); [apply Z.sgn_neg; lia|].
  destruct (Z.ltb_spec y x); [apply Z.sgn_pos; lia|].
  replace (x - y) with 0 by lia. reflexivity.
Qed.

Lemma neg_sgn (a : t) : Z.sgn (coef (neg a)) = - Z.sgn (coef a).
Proof. unfold neg. rewrite fix_sgn. cbn [copy_negate coef]. apply Z.sgn_opp. Qed.

Lemma order_swap (a b : t) : order b a = - order a b.
Proof.
  unfold order. destruct (ltb a b) eqn:E.
  - rewrite (ltb_asym _ _ E). reflexivity.
  - destruct (ltb b a); reflexivity.
Qed.

(** Comparison does not depend on the common exponent. *)
Lemma scaled_split (a : t) (m m' : Z) :
  m' <= m <= expo a -> scaled a m' = scaled a m * 10 ^ (m - m').
Proof.
  intros H. unfold scaled. rewrite <- Z.mul_assoc, <- Z.pow_add_r by lia.
  do 2 f_equal. lia.
Qed.

Lemma ltb_scaled (a b : t) (m : Z) :
  m <= expo a -> m <= expo b -> ltb a b = (scaled a m <? scaled b m).
Proof.
  intros Ha Hb. unfold ltb, align. fold (scaled a (Z.min (expo a) (expo b))).
  fold (scaled b (Z.min (expo a) (expo b))).
  rewrite (scaled_split a (Z.min (expo a) (expo b)) m) by lia.
  rewrite (scaled_split b (Z.min (expo a) (expo b)) m) by lia.
  assert (0 < 10 ^ (Z.min (expo a) (expo b) - m))
    by (apply Z.pow_pos_nonneg; lia).
  destruct (Z.ltb_spec (scaled a (Z.min (expo a) (expo b)))
                       (scaled b (Z.min (expo a) (expo b))));
    symmetry; [apply Z.ltb_lt|apply Z.ltb_ge]; nia.
Qed.

Lemma eqb_scaled (a b : t) (m : Z) :
  m <= expo a -> m <= expo b -> eqb a b = (scaled a m =? scaled b m).
Proof.
  intros Ha Hb. unfold eqb, align. fold (scaled a (Z.min (expo a) (expo b))).
  fold (scaled b (Z.min (expo a) (expo b))).
  rewrite (scaled_split a (Z.min (expo a) (expo b)) m) by lia.
  rewrite (scaled_split b (Z.min (expo a) (expo b)) m) by lia.
  assert (0 < 10 ^ (Z.min (expo a) (expo b) - m))
    by (apply Z.pow_pos_nonneg; lia).
  destruct (Z.eqb_spec (scaled a (Z.min (expo a) (expo b)))
                       (scaled b (Z.min (expo a) (expo b))));
    symmetry; [apply Z.eqb_eq|apply Z.eqb_neq]; nia.
Qed.

(** [<] on decimals is transitive, and compatible with [==]. *)
Lemma ltb_trans (a b c : t) :
  ltb a b = true -> ltb b c = true -> ltb a c = true.
Proof.
  set (m := Z.min (expo a) (Z.min (expo b) (expo c))).
  rewrite (ltb_scaled a b m), (ltb_scaled b c m), (ltb_scaled a c m)
    by (subst m; lia).
  lia.
Qed.

Lemma eqb_trans (a b c : t) :
  eqb a b = true -> eqb b c = true -> eqb a c = true.
Proof.
  set (m := Z.min (expo a) (Z.min (expo b) (expo c))).
  rewrite (eqb_scaled a b m), (eqb_scaled b c m), (eqb_scaled a c m)
    by (subst m; lia).
  lia.
Qed.

Lemma ltb_eqb_trans (a b c : t) :
  ltb a b = true -> eqb b c = true -> ltb a c = true.
Proof.
  set (m := Z.min (expo a) (Z.min (expo b) (expo c))).
  rewrite (ltb_scaled a b m), (eqb_scaled b c m), (ltb_scaled a c m)
    by (subst m; lia).
  lia.
Qed.

Lemma eqb_ltb_trans (a b c : t) :
  eqb a b = true -> ltb b c = true -> ltb a c = true.
Proof.
  set (m := Z.min (expo a) (Z.min (expo b) (expo c))).
  rewrite (eqb_scaled a b m), (ltb_scaled b c m), (ltb_scaled a c m)
    by (subst m; lia).
  lia.
Qed.

(** [y % 5] is defined for every [y] below [10 ^ 28] in magnitude. *)
Lemma rem_5_defined (y : t) :
  adjusted y <= 27 -> exists r, rem y (of_Z 5) = Some r.
Proof.
  intros Hadj. unfold rem.
  change (adjusted (of_Z 5)) with 0. rewrite Z.sub_0_r.
  destruct (is_zero y || (adjusted y <=? -2)) eqn:E; [eauto|].
  apply orb_false_elim in E as [_ Hlow]. apply Z.leb_gt in Hlow.
  destruct (Z.leb_spec (adjusted y) prec) as [_|Hgt]; [|unfold prec in Hgt; lia].
  unfold align, of_Z; cbn [coef expo].
  set (m := Z.min (expo y) 0).
  assert (Hm : m <= 0 /\ m <= expo y) by (subst m; lia).
  match goal with |- context [?q <? 10 ^ prec] =>
    assert (Hq : q < 10 ^ prec); [|apply Z.ltb_lt in Hq; rewrite Hq; eauto] end.
  unfold adjusted in *.
  set (n := Z.abs (coef y)) in *.
  destruct (ndigits_bounds n ltac:(subst n; lia)) as (Hd & Hub & _).
  set (d := ndigits n) in *.
  assert (Hp : 0 < 10 ^ (0 - m)) by (apply Z.pow_pos_nonneg; lia).
  rewrite Z.abs_mul, (Z.abs_mul 5).
  rewrite !(Z.abs_eq (10 ^ _)) by (apply Z.pow_nonneg; lia).
  fold n. change (Z.abs 5) with 5.
  apply Z.div_lt_upper_bound; [lia|].
  assert (H1 : n * 10 ^ (expo y - m) < 10 ^ d * 10 ^ (expo y - m)).
  { apply Z.mul_lt_mono_pos_r; [apply Z.pow_pos_nonneg; lia|assumption]. }
  rewrite <- Z.pow_add_r in H1 by lia.
  assert (H2 : 10 ^ (d + (expo y - m)) <= 10 ^ (prec + (0 - m))).
  { apply Z.pow_le_mono_r; unfold prec; lia. }
  rewrite (Z.pow_add_r 10 prec (0 - m)) in H2 by (unfold prec; lia).
  assert (H3 : 0 < 10 ^ prec) by (apply Z.pow_pos_nonneg; unfold prec; lia).
  set (X := 10 ^ prec) in *. set (P := 10 ^ (0 - m)) in *.
  clearbody X P.
  apply Z.lt_le_trans with (X * P); [lia|].
  assert (0 < X * P) by (apply Z.mul_pos_pos; lia). lia.
Qed.

(** The constants: the doubles nearest to 0.001, 0.9 and 0.01.  A double
    with 53-bit significand [m] and exponent [e] is nearest to [p / q]
    when [|m * q - p * 2 ^ (-e)| * 2 <= q]. *)
Lemma d0_001_is_nearest_double :
  let m := 1152921504606847 * 4 in
  2 ^ 52 <= m < 2 ^ 53 /\ Z.abs (m * 1000 - 2 ^ 62) * 2 <= 1000.
Proof. cbv zeta. split; [split|]; vm_compute; congruence. Qed.

Lemma d0_90_is_nearest_double :
  let m := 8106479329266893 in
  2 ^ 52 <= m < 2 ^ 53 /\ Z.abs (m * 10 - 9 * 2 ^ 53) * 2 <= 10.
Proof. cbv zeta. split; [split|]; vm_compute; congruence. Qed.

End Decimal_facts.

(* ------------------------------------------------------------------ *)
(** ** The tokenizer                                                    *)
(* ------------------------------------------------------------------ *)

Module Tokenizer_facts.
Import PyStr Tokenizer Tokenizer_defs.
Local Open Scope string_scope.

Lemma next_char_cases (s : io_source) :
  (remaining s = 0 /\ _next_char s = (EmptyString, s)) \/
  (exists b, nth_error (data s) (pos s) = Some b /\
             _next_char s = (String (ascii_of_byte b) EmptyString,
                             mkIO (data s) (S (pos s))) /\
             remaining s = S (remaining (mkIO (data s) (S (pos s))))).
Proof.
  unfold _next_char, read1, remaining.
  destruct (nth_error (data s) (pos s)) as [b|] eqn:E.
  - right. exists b. repeat split.
    assert (pos s < List.length (data s))%nat
      by (apply nth_error_Some; congruence).
    cbn [data pos]. lia.
  - left. split; [|reflexivity].
    apply nth_error_None in E. lia.
Qed.

Lemma advanced_refl s : advanced s s.
Proof. unfold advanced. auto. Qed.

Lemma advanced_step s : advanced s (mkIO (data s) (S (pos s))).
Proof. unfold advanced, remaining; cbn. repeat split; lia. Qed.

Lemma advanced_trans s1 s2 s3 : advanced s1 s2 -> advanced s2 s3 -> advanced s1 s3.
Proof. unfold advanced. intros (?&?&?) (?&?&?). repeat split; [congruence|lia..]. Qed.

Create HintDb tok.
#[local] Hint Resolve advanced_refl advanced_step advanced_trans : tok.

(** The shape shared by the four loops [while len(ch) != 0 and cond(ch)]. *)
Section LookaheadLoop.
Variable loop : nat -> string -> string -> io_source ->
                option (string * string * io_source).
Variable cond : string -> bool.
Hypothesis loop_eq : forall f ch out s,
  loop (S f) ch out s =
  if negb (len ch =? 0)%Z && cond ch
  then let (ch', s') := _next_char s in loop f ch' (out ++ ch) s'
  else Some (ch, out, s).

Lemma lookahead_loop_total (fuel : nat) : forall ch out s,
  (budget ch s < fuel)%nat ->
  exists ch' out' s', loop fuel ch out s = Some (ch', out', s') /\ advanced s s'.
Proof.
  induction fuel as [|f IH]; intros ch out s Hb; [lia|].
  rewrite loop_eq.
  destruct ch as [|c ch0].
  { cbn. eauto 6 with tok. }
  destruct (negb _ && cond _); [|eauto 6 with tok].
  cbn [budget] in Hb.
  destruct (next_char_cases s) as [(Hr & ->)|(b & _ & -> & Hr)].
  - destruct (IH EmptyString (out ++ String c ch0) s) as (?&?&?&->&?);
      [cbn; lia|eauto 6].
  - destruct (IH (String (ascii_of_byte b) EmptyString)
                 (out ++ String c ch0) (mkIO (data s) (S (pos s))))
      as (?&?&?&->&?); [cbn [budget]; lia|].
    eauto 7 with tok.
Qed.
End LookaheadLoop.

Lemma comment_loop_total fuel ch out s :
  (budget ch s < fuel)%nat ->
  exists ch' out' s', comment_loop fuel ch out s = Some (ch', out', s') /\ advanced s s'.
Proof.
  apply (lookahead_loop_total comment_loop
           (fun ch => negb (String.eqb ch CR) && negb (String.eqb ch LF))).
  intros. cbn [comment_loop]. rewrite andb_assoc. reflexivity.
Qed.

Lemma number_loop_total fuel ch out s :
  (budget ch s < fuel)%nat ->
  exists ch' out' s', number_loop fuel ch out s = Some (ch', out', s') /\ advanced s s'.
Proof. apply (lookahead_loop_total number_loop is_number_char). reflexivity. Qed.

Lemma other_loop_total fuel ch out s :
  (budget ch s < fuel)%nat ->
  exists ch' out' s', other_loop fuel ch out s = Some (ch', out', s') /\ advanced s s'.
Proof.
  apply (lookahead_loop_total other_loop (fun ch => negb (_is_delimiter ch))).
  reflexivity.
Qed.

Lemma skip_whitespace_total (fuel : nat) : forall ch s,
  (budget ch s < fuel)%nat ->
  exists ch' s', skip_whitespace fuel ch s = Some (ch', s') /\ advanced s s'.
Proof.
  induction fuel as [|f IH]; intros ch s Hb; [lia|].
  cbn [skip_whitespace].
  destruct ch as [|c ch0]; [cbn; eauto with tok|].
  destruct (_ && _); [|eauto with tok].
  cbn [budget] in Hb.
  destruct (next_char_cases s) as [(Hr & ->)|(b & _ & -> & Hr)].
  - apply IH. cbn. lia.
  - destruct (IH (String (ascii_of_byte b) EmptyString)
                 (mkIO (data s) (S (pos s)))) as (?&?&->&?);
      [cbn [budget]; lia|].
    eauto 6 with tok.
Qed.

Lemma name_loop_total (fuel : nat) : forall out s,
  (remaining s < fuel)%nat ->
  exists ch' out' s', name_loop fuel out s = Some (ch', out', s') /\ advanced s s'.
Proof.
  induction fuel as [|f IH]; intros out s Hb; [lia|].
  cbn [name_loop].
  destruct (next_char_cases s) as [(Hr & ->)|(b & _ & -> & Hr)].
  - cbn. eauto 6 with tok.
  - destruct (len _ =? 0)%Z; [eauto 6 with tok|].
    destruct (_is_delimiter _); [eauto 6 with tok|].
    destruct (IH (out ++ String (ascii_of_byte b) EmptyString)
                 (mkIO (data s) (S (pos s)))) as (?&?&?&->&?); [lia|].
    eauto 7 with tok.
Qed.

Lemma hex_loop_total (fuel : nat) : forall out s,
  (remaining s < fuel)%nat ->
  exists ch' out' s', hex_loop fuel out s = Some (ch', out', s') /\ advanced s s'.
Proof.
  induction fuel as [|f IH]; intros out s Hb; [lia|].
  cbn [hex_loop].
  destruct (next_char_cases s) as [(Hr & ->)|(b & _ & -> & Hr)].
  - cbn. eauto 6 with tok.
  - destruct (len _ =? 0)%Z; [eauto 6 with tok|].
    destruct (String.eqb _ _); [eauto 6 with tok|].
    destruct (IH (out ++ String (ascii_of_byte b) EmptyString)
                 (mkIO (data s) (S (pos s)))) as (?&?&?&->&?); [lia|].
    eauto 7 with tok.
Qed.

Lemma next_char_advanced s ch s' : _next_char s = (ch, s') -> advanced s s'.
Proof.
  destruct (next_char_cases s) as [(Hr & ->)|(b & _ & -> & Hr)];
    intros [= <- <-]; auto with tok.
Qed.

Lemma string_loop_total (fuel : nat) : forall lvl out s,
  (remaining s < fuel)%nat ->
  exists ch' out' s', string_loop fuel lvl out s = Some (ch', out', s') /\ advanced s s'.
Proof.
  induction fuel as [|f IH]; intros lvl out s Hb; [lia|].
  cbn [string_loop].
  destruct (next_char_cases s) as [(Hr & ->)|(b & _ & -> & Hr)].
  - cbn. eauto 6 with tok.
  - destruct (len _ =? 0)%Z; [eauto 6 with tok|].
    set (s1 := mkIO (data s) (S (pos s))) in *.
    assert (H1 : advanced s s1) by (subst s1; auto with tok).
    destruct (String.eqb _ "\").
    + destruct (_next_char s1) as [ch2 s2] eqn:E2.
      apply next_char_advanced in E2.
      destruct (IH lvl (out ++ "\" ++ ch2) s2) as (?&?&?&->&?).
      { destruct E2 as (_ & ? & _). lia. }
      eauto 8 with tok.
    + match goal with |- context [if ?c then Some _ else _] => destruct c end;
        [eauto 6 with tok|].
      match goal with |- context [string_loop f ?l ?o s1] =>
        destruct (IH l o s1) as (?&?&?&->&?); [lia|] end.
      eauto 7 with tok.
Qed.

(** [next_token] never runs out of fuel: it returns a token or the
    end-of-stream sentinel, or raises. *)
Theorem next_token_total (s : io_source) :
  exists r s', next_token s = Some (r, s').
Proof.
  unfold next_token, next_token_fuel.
  set (fuel := S (List.length (data s))).
  destruct (next_char_cases s) as [(Hr & ->)|(b & _ & -> & Hr)].
  { cbn. eauto. }
  set (s1 := mkIO (data s) (S (pos s))) in *.
  assert (Hfuel : forall s', advanced s1 s' -> (S (remaining s') < fuel)%nat).
  { intros s' (Hd & Hrem & Hp). subst fuel s1. unfold remaining in *.
    cbn [data pos] in *. lia. }
  destruct (len _ =? 0)%Z; [eauto|].
  destruct (skip_whitespace_total fuel (String (ascii_of_byte b) EmptyString) s1)
    as (ch & s2 & -> & H2).
  { specialize (Hfuel s1 (advanced_refl _)). cbn [budget]. lia. }
  cbn [mbind option_bind].
  assert (Hb : forall ch' s', advanced s1 s' -> (budget ch' s' < fuel)%nat).
  { intros ch' s' H. specialize (Hfuel s' H). destruct ch'; cbn [budget]; lia. }
  assert (Hr' : forall s', advanced s1 s' -> (remaining s' < fuel)%nat).
  { intros s' H. specialize (Hfuel s' H). lia. }
  repeat match goal with
  | |- context [if ?c then _ else _] => destruct c; eauto
  | |- context [_next_char ?x] =>
      let E := fresh "E" in
      destruct (_next_char x) as [? ?] eqn:E; apply next_char_advanced in E
  end.
  - destruct (name_loop_total fuel "/" s2) as (?&?&?&->&?); eauto.
  - destruct (comment_loop_total fuel ch EmptyString s2) as (?&?&?&->&?); eauto.
  - match goal with |- context [hex_loop fuel ?o ?x] =>
      destruct (hex_loop_total fuel o x) as (?&?&?&->&?); eauto with tok end.
  - destruct (number_loop_total fuel ch EmptyString s2) as (?&?&?&->&?); eauto.
  - destruct (string_loop_total fuel 1 "(" s2) as (?&?&?&->&?); eauto.
    cbn [mbind option_bind].
    repeat match goal with
    | |- context [if ?c then _ else _] => destruct c; eauto end.
  - destruct (other_loop_total fuel ch EmptyString s2) as (?&?&?&->&?); eauto.
Qed.

(** *** The end of the stream *)

Lemma next_token_at_end (s : io_source) :
  (List.length (data s) <= pos s)%nat -> next_token s = Some (Return None, s).
Proof.
  intros H. unfold next_token, next_token_fuel.
  destruct (next_char_cases s) as [(Hr & ->)|(b & Hb & _)]; [reflexivity|].
  assert (pos s < List.length (data s))%nat
    by (apply nth_error_Some; congruence).
  lia.
Qed.

Lemma skip_whitespace_to_end (fuel : nat) : forall c s,
  (S (remaining s) < fuel)%nat ->
  (pos s <= List.length (data s))%nat ->
  _is_whitespace (String c EmptyString) = true ->
  only_whitespace_left s ->
  skip_whitespace fuel (String c EmptyString) s
  = Some (EmptyString, mkIO (data s) (List.length (data s))).
Proof.
  induction fuel as [|f IH]; intros c s Hf Hp Hc Hws; [lia|].
  cbn [skip_whitespace]. rewrite Hc.
  change (0 <? len (String c EmptyString))%Z with true. cbn [andb].
  destruct (next_char_cases s) as [(Hr & ->)|(b & Hb & -> & Hr)].
  - destruct f as [|f]; [lia|]. cbn [skip_whitespace].
    change (0 <? len EmptyString)%Z with false. cbn [andb].
    unfold remaining in Hr. destruct s as [d p]; cbn [data pos] in *.
    do 3 f_equal. lia.
  - assert (pos s < List.length (data s))%nat
      by (apply nth_error_Some; congruence).
    rewrite (IH (ascii_of_byte b) (mkIO (data s) (S (pos s)))); cbn [data pos];
      [reflexivity|lia|lia|exact (Hws _ _ (Nat.le_refl _) Hb)|].
    intros i b' Hi. apply Hws. cbn [data pos] in Hi. lia.
Qed.

(** X1: With whitespace only before the end of the stream, and at least one
    byte of it, [next_token] returns a NUMBER token with empty text: the
    empty lookahead passes the test [ch in "-+.0123456789"]. *)
Theorem whitespace_only_gives_empty_number (s : io_source) :
  (pos s < List.length (data s))%nat ->
  only_whitespace_left s ->
  next_token s
  = Some (Return (Some (mkToken (Z.of_nat (List.length (data s)) - 1)
                          NUMBER EmptyString)),
          mkIO (data s) (List.length (data s))).
Proof.
  intros Hp Hws. unfold next_token, next_token_fuel.
  destruct (next_char_cases s) as [(Hr & _)|(b & Hb & -> & Hr)];
    [unfold remaining in Hr; lia|].
  change (len (String (ascii_of_byte b) EmptyString) =? 0)%Z with false.
  cbv iota.
  rewrite skip_whitespace_to_end; cbn [data pos].
  - reflexivity.
  - unfold remaining in *; cbn [data pos] in *. lia.
  - lia.
  - exact (Hws _ _ (Nat.le_refl _) Hb).
  - intros i b' Hi. apply Hws. cbn [data pos] in Hi. lia.
Qed.

(** A tab, a line feed and a space. *)
Lemma whitespace_only_gives_empty_number_witness :
  next_token (mkIO [x09; x0a; x20] 0)
  = Some (Return (Some (mkToken (Z.of_nat 3 - 1) NUMBER EmptyString)),
          mkIO [x09; x0a; x20] 3).
Proof.
  apply (whitespace_only_gives_empty_number (mkIO [x09; x0a; x20] 0)).
  - cbn. lia.
  - intros i b _ H. destruct i as [|[|[|i]]]; cbn in H;
      [injection H as <-; vm_compute; reflexivity ..|destruct i; discriminate].
Defined.

(** *** The body of a parenthesized string *)

Lemma endswith_app_char (out : string) (c : ascii) :
  c <> "\"%char ->
  endswith (out ++ String c EmptyString) "\" = false.
Proof.
  intros Hc. induction out as [|a out IH].
  - change (EmptyString ++ String c EmptyString) with (String c EmptyString).
    cbn [endswith].
    replace (String.eqb (String c EmptyString) "\") with false; [reflexivity|].
    symmetry. apply String.eqb_neq. congruence.
  - change (String a out ++ String c EmptyString)
      with (String a (out ++ String c EmptyString)).
    cbn [endswith]. rewrite IH, orb_false_r. cbn [String.eqb].
    destruct (Ascii.eqb a "\"%char); [|reflexivity].
    destruct out; reflexivity.
Qed.

(** The loop is left at the end of the stream, or on a character other
    than a backslash. *)
Lemma string_loop_result (fuel : nat) : forall lvl out s ch out' s',
  string_loop fuel lvl out s = Some (ch, out', s') ->
  (1 <= lvl)%Z ->
  len ch = 0%Z \/ endswith out' "\" = false.
Proof.
  induction fuel as [|f IH]; intros lvl out s ch out' s' H Hl; [discriminate|].
  cbn [string_loop] in H.
  destruct (next_char_cases s) as [(Hr & E)|(b & _ & E & Hr)];
    rewrite E in H; clear E.
  - injection H as <- <- <-. left; reflexivity.
  - change (len (String (ascii_of_byte b) EmptyString) =? 0)%Z with false in H.
    cbv iota in H.
    destruct (String.eqb_spec (String (ascii_of_byte b) EmptyString) "\") as [E|E].
    + destruct (_next_char _) as [ch2 s2]. eapply IH; eauto.
    + match type of H with (if ?c then _ else _) = _ =>
        destruct c eqn:Ec end.
      * injection H as <- <- <-. right. apply endswith_app_char. congruence.
      * eapply IH; [exact H|].
        apply Z.eqb_neq in Ec.
        repeat match goal with
        | H : context [if ?c then _ else _] |- _ => destruct c
        | |- context [if ?c then _ else _] => destruct c
        end; lia.
Qed.

(** No input makes [next_token] raise the syntax error of the STRING
    branch: at the end of the stream the end-of-file error comes first,
    and otherwise the token text ends with the closing parenthesis. *)
Theorem unterminated_escape_unreachable (s s' : io_source) (e : PDFException) :
  next_token s = Some (Raise e, s') ->
  forall off, e <> PDFSyntaxError "unterminated escape sequence" off.
Proof.
  unfold next_token, next_token_fuel. intros H off.
  repeat match type of H with
  | context [_next_char ?x] => destruct (_next_char x) as [? ?]
  | (if ?c then _ else _) = _ => destruct c eqn:?
  | (mbind _ ?m) = _ => destruct m as [[[? ?] ?]|] eqn:?; cbn [mbind option_bind] in H
  | (mbind _ ?m) = _ => destruct m as [[? ?]|] eqn:?; cbn [mbind option_bind] in H
  end; try discriminate; injection H as <- <-; try discriminate.
  match goal with
  | Hl : string_loop _ _ _ _ = Some _ |- _ =>
      destruct (string_loop_result _ _ _ _ _ _ _ Hl ltac:(lia)) as [E|E]
  end.
  - match goal with
    | Hz : (len ?c =? 0)%Z = false |- _ => rewrite E in Hz; discriminate
    end.
  - congruence.
Qed.

(** C1: on the input [(bad\], where the byte source is exhausted right
    after the backslash, [next_token] raises the end-of-file error, which
    carries no byte offset, and not the syntax error for the unterminated
    escape. *)
Theorem dangling_escape_raises_eof :
  next_token (source_of "(bad\")
  = Some (Raise (PDFEOFError None), mkIO (data (source_of "(bad\")) 5).
Proof. vm_compute. reflexivity. Qed.

(** The end-of-file case of a string that is not closed. *)
Example unterminated_string_raises_eof :
  next_token (source_of "(unterminated")
  = Some (Raise (PDFEOFError None), mkIO (data (source_of "(unterminated")) 13).
Proof. vm_compute. reflexivity. Qed.

(** C2: on the input of one space, where only whitespace is left before
    the end of the stream, [next_token] returns a NUMBER token with empty
    text at offset 0, and not the end-of-stream sentinel. *)
Theorem space_only_gives_number_token :
  next_token (source_of " ")
  = Some (Return (Some (mkToken 0 NUMBER EmptyString)),
          mkIO (data (source_of " ")) 1).
Proof. vm_compute. reflexivity. Qed.

Example tokens_of_names :
  next_token (source_of "/Foo/Bar")
  = Some (Return (Some (mkToken 0 NAME "/Foo")),
          mkIO (data (source_of "/Foo/Bar")) 4).
Proof. vm_compute. reflexivity. Qed.

Example token_of_escaped_string :
  next_token (source_of "(a\)b)")
  = Some (Return (Some (mkToken 0 STRING "(a\)b)")),
          mkIO (data (source_of "(a\)b)")) 6).
Proof. vm_compute. reflexivity. Qed.

End Tokenizer_facts.

(* ------------------------------------------------------------------ *)
(** ** What [next_token] scans                                          *)
(* ------------------------------------------------------------------ *)

Module Tokenizer_scan.
Import PyStr Tokenizer Tokenizer_defs Tokenizer_facts.
Local Open Scope string_scope.

(** *** Strings and slices *)

Lemma str_app_assoc (a b c : string) : (a ++ b) ++ c = a ++ (b ++ c).
Proof.
  induction a as [|x a IH]; [reflexivity|].
  change (String x ((a ++ b) ++ c) = String x (a ++ (b ++ c))). f_equal. exact IH.
Qed.

Lemma str_app_nil_r (a : string) : a ++ EmptyString = a.
Proof.
  induction a as [|x a IH]; [reflexivity|].
  change (String x (a ++ EmptyString) = String x a). f_equal. exact IH.
Qed.

Lemma decode_latin1_app (a b : list byte) :
  decode_latin1 (a ++ b)%list = decode_latin1 a ++ decode_latin1 b.
Proof.
  unfold decode_latin1. induction a as [|x a IH]; [reflexivity|].
  cbn [app map string_of_list_ascii].
  change (String (ascii_of_byte x) ?u ++ ?v) with (String (ascii_of_byte x) (u ++ v)).
  f_equal. exact IH.
Qed.

Lemma slice_empty (d : list byte) (i : nat) : slice d i i = EmptyString.
Proof. unfold slice. rewrite Nat.sub_diag. reflexivity. Qed.

Lemma slice_app (d : list byte) (i j k : nat) :
  (i <= j)%nat -> (j <= k)%nat -> slice d i j ++ slice d j k = slice d i k.
Proof.
  intros Hij Hjk. unfold slice. rewrite <- decode_latin1_app. f_equal.
  replace (skipn j d) with (skipn (j - i) (skipn i d))
    by (rewrite skipn_skipn; f_equal; lia).
  replace (k - i)%nat with ((j - i) + (k - j))%nat by lia.
  generalize (skipn i d) (j - i)%nat (k - j)%nat. clear.
  intros l a b. revert l. induction a as [|a IH]; intros [|x l]; cbn;
    rewrite ?firstn_nil; try reflexivity.
  rewrite IH. reflexivity.
Qed.

Lemma slice_one (d : list byte) (i : nat) (b : byte) :
  nth_error d i = Some b -> slice d i (S i) = String (ascii_of_byte b) EmptyString.
Proof.
  intros H. unfold slice. replace (S i - i)%nat with 1%nat by lia.
  revert i H. induction d as [|x d IH]; intros [|i] H; try discriminate.
  - injection H as ->. reflexivity.
  - cbn [skipn]. apply IH, H.
Qed.

Lemma slice_past_end (d : list byte) (i j : nat) :
  (List.length d <= i)%nat -> slice d i j = EmptyString.
Proof.
  intros H. unfold slice. rewrite skipn_all2 by exact H.
  rewrite firstn_nil. reflexivity.
Qed.

(** *** What a read leaves behind *)

Lemma next_char_looked (s : io_source) (ch : string) (s1 : io_source) :
  _next_char s = (ch, s1) -> looked (pos s) ch s1 /\ data s1 = data s.
Proof.
  destruct (next_char_cases s) as [(Hr & ->)|(b & Hb & -> & Hr)];
    intros [= <- <-].
  - split; [|reflexivity]. left. unfold remaining in Hr. repeat split. lia.
  - split; [|reflexivity]. right. exists b. repeat split. exact Hb.
Qed.

Lemma looked_slice (p : nat) (ch : string) (s : io_source) :
  looked p ch s -> ch = slice (data s) p (pos s) /\ (p <= pos s)%nat.
Proof.
  intros [(-> & <- & _)|(b & Hb & -> & ->)].
  - rewrite slice_empty. split; [reflexivity|lia].
  - rewrite (slice_one _ _ _ Hb). split; [reflexivity|lia].
Qed.

Lemma looked_push_back (p : nat) (ch : string) (s : io_source) :
  looked p ch s -> push_back ch s = mkIO (data s) p.
Proof.
  intros [(-> & <- & _)|(b & _ & -> & Hp)]; unfold push_back; cbn.
  - destruct s; reflexivity.
  - unfold _prev_char. rewrite Hp. reflexivity.
Qed.

Lemma looked_nonempty (p : nat) (ch : string) (s : io_source) :
  looked p ch s -> ch <> EmptyString ->
  exists b, nth_error (data s) p = Some b /\
            ch = String (ascii_of_byte b) EmptyString /\ pos s = S p.
Proof. intros [(-> & _)|H] Hne; [contradiction|exact H]. Qed.

Lemma looked_transport (p : nat) (ch : string) (s s' : io_source) :
  looked p ch s -> data s' = data s -> pos s' = pos s -> looked p ch s'.
Proof. unfold looked. intros H -> ->. exact H. Qed.

Lemma every_char_app (P : string -> bool) (a b : string) :
  every_char P (a ++ b) = every_char P a && every_char P b.
Proof.
  induction a as [|x a IH]; [reflexivity|].
  change (every_char P (String x (a ++ b))
          = every_char P (String x a) && every_char P b).
  cbn [every_char]. rewrite IH, andb_assoc. reflexivity.
Qed.

(** The character a loop stops on is the byte at the cursor that is
    pushed back. *)
Lemma looked_stop (P : string -> bool) (p : nat) (ch : string) (s : io_source) :
  looked p ch s -> ch = EmptyString \/ P ch = false ->
  forall b, nth_error (data s) p = Some b ->
            P (String (ascii_of_byte b) EmptyString) = false.
Proof.
  intros [(-> & _ & Hlen)|(b' & Hb' & -> & _)] Hx b Hb.
  - assert (p < List.length (data s))%nat
      by (apply nth_error_Some; congruence).
    lia.
  - rewrite Hb in Hb'. injection Hb' as <-.
    destruct Hx as [Hx|Hx]; [discriminate|exact Hx].
Qed.

(** *** The loops *)

Section LookaheadLoopSpec.
Variable loop : nat -> string -> string -> io_source ->
                option (string * string * io_source).
Variable cond : string -> bool.
Hypothesis loop_eq : forall f ch out s,
  loop (S f) ch out s =
  if negb (len ch =? 0)%Z && cond ch
  then let (ch', s') := _next_char s in loop f ch' (out ++ ch) s'
  else Some (ch, out, s).
Hypothesis loop_O : forall ch out s, loop O ch out s = None.

Lemma lookahead_loop_spec (fuel : nat) : forall ch out s p0 ch' out' s',
  loop fuel ch out s = Some (ch', out', s') ->
  looked p0 ch s ->
  exists p1, looked p1 ch' s' /\ data s' = data s /\ (p0 <= p1)%nat /\
    out' = out ++ slice (data s) p0 p1 /\
    every_char cond (slice (data s) p0 p1) = true /\
    (ch' = EmptyString \/ cond ch' = false) /\
    (ch <> EmptyString -> cond ch = true -> (p0 < p1)%nat).
Proof.
  induction fuel as [|f IH]; intros ch out s p0 ch' out' s' H Hl.
  { rewrite loop_O in H. discriminate. }
  rewrite loop_eq in H.
  destruct (negb (len ch =? 0)%Z && cond ch) eqn:Hc.
  - apply andb_prop in Hc as [Hne Hcond].
    assert (Hch : ch <> EmptyString) by (intros ->; discriminate).
    destruct (looked_nonempty _ _ _ Hl Hch) as (b & Hb & Ech & Hp).
    destruct (_next_char s) as [ch1 s1] eqn:E1.
    apply next_char_looked in E1 as [Hl1 Hd1]. rewrite Hp in Hl1.
    destruct (IH _ _ _ _ _ _ _ H Hl1) as (p1 & Hl' & Hd' & Hle & Ho & He & Hx & _).
    rewrite Hd1 in *.
    exists p1. repeat split; try assumption; try lia.
    + rewrite Ho, str_app_assoc. f_equal.
      rewrite <- (slice_app _ p0 (S p0) p1) by lia.
      rewrite (slice_one _ _ _ Hb), Ech. reflexivity.
    + rewrite <- (slice_app _ p0 (S p0) p1) by lia.
      rewrite every_char_app, He, (slice_one _ _ _ Hb), andb_true_r.
      cbn [every_char]. rewrite <- Ech, Hcond. reflexivity.
  - injection H as <- <- <-. exists p0. repeat split; try assumption; try lia.
    + rewrite slice_empty, str_app_nil_r. reflexivity.
    + rewrite slice_empty. reflexivity.
    + apply andb_false_iff in Hc as [Hc|Hc]; [left|right; exact Hc].
      destruct ch; [reflexivity|discriminate].
    + intros Hne Hcond. apply andb_false_iff in Hc as [Hc|Hc]; [|congruence].
      destruct ch; [contradiction|discriminate].
Qed.
End LookaheadLoopSpec.

Lemma comment_loop_spec fuel ch out s p0 ch' out' s' :
  comment_loop fuel ch out s = Some (ch', out', s') ->
  looked p0 ch s ->
  exists p1, looked p1 ch' s' /\ data s' = data s /\ (p0 <= p1)%nat /\
    out' = out ++ slice (data s) p0 p1 /\
    every_char (fun c => negb (String.eqb c CR) && negb (String.eqb c LF))
      (slice (data s) p0 p1) = true /\
    (ch' = EmptyString \/
     negb (String.eqb ch' CR) && negb (String.eqb ch' LF) = false) /\
    (ch <> EmptyString ->
     negb (String.eqb ch CR) && negb (String.eqb ch LF) = true -> (p0 < p1)%nat).
Proof.
  apply (lookahead_loop_spec comment_loop
           (fun c => negb (String.eqb c CR) && negb (String.eqb c LF)));
    [|reflexivity].
  intros. cbn [comment_loop]. rewrite andb_assoc. reflexivity.
Qed.

Lemma number_loop_spec fuel ch out s p0 ch' out' s' :
  number_loop fuel ch out s = Some (ch', out', s') ->
  looked p0 ch s ->
  exists p1, looked p1 ch' s' /\ data s' = data s /\ (p0 <= p1)%nat /\
    out' = out ++ slice (data s) p0 p1 /\
    every_char is_number_char (slice (data s) p0 p1) = true /\
    (ch' = EmptyString \/ is_number_char ch' = false) /\
    (ch <> EmptyString -> is_number_char ch = true -> (p0 < p1)%nat).
Proof.
  apply (lookahead_loop_spec number_loop is_number_char); reflexivity.
Qed.

Lemma other_loop_spec fuel ch out s p0 ch' out' s' :
  other_loop fuel ch out s = Some (ch', out', s') ->
  looked p0 ch s ->
  exists p1, looked p1 ch' s' /\ data s' = data s /\ (p0 <= p1)%nat /\
    out' = out ++ slice (data s) p0 p1 /\
    every_char (fun c => negb (_is_delimiter c)) (slice (data s) p0 p1) = true /\
    (ch' = EmptyString \/ negb (_is_delimiter ch') = false) /\
    (ch <> EmptyString -> negb (_is_delimiter ch) = true -> (p0 < p1)%nat).
Proof.
  apply (lookahead_loop_spec other_loop (fun c => negb (_is_delimiter c)));
    reflexivity.
Qed.

Lemma whitespace_between_empty (d : list byte) (p : nat) : whitespace_between d p p.
Proof. intros i Hi. lia. Qed.

Lemma whitespace_between_cons (d : list byte) (p q : nat) (b : byte) :
  nth_error d p = Some b -> whitespace_byte b ->
  whitespace_between d (S p) q -> whitespace_between d p q.
Proof.
  intros Hb Hw H i Hi. destruct (Nat.eq_dec i p) as [->|Hne]; [eauto|].
  apply H. lia.
Qed.

Lemma skip_whitespace_spec (fuel : nat) : forall ch s p0 ch' s',
  skip_whitespace fuel ch s = Some (ch', s') ->
  looked p0 ch s ->
  exists p1, looked p1 ch' s' /\ data s' = data s /\ (p0 <= p1)%nat /\
    whitespace_between (data s) p0 p1 /\
    (ch' = EmptyString \/ _is_whitespace ch' = false).
Proof.
  induction fuel as [|f IH]; intros ch s p0 ch' s' H Hl; [discriminate|].
  cbn [skip_whitespace] in H.
  destruct ((0 <? len ch)%Z && _is_whitespace ch) eqn:Hc.
  - apply andb_prop in Hc as [Hne Hws].
    assert (Hch : ch <> EmptyString) by (intros ->; discriminate).
    destruct (looked_nonempty _ _ _ Hl Hch) as (b & Hb & Ech & Hp).
    destruct (_next_char s) as [ch1 s1] eqn:E1.
    apply next_char_looked in E1 as [Hl1 Hd1]. rewrite Hp in Hl1.
    destruct (IH _ _ _ _ _ H Hl1) as (p1 & Hl' & Hd' & Hle & Hw & Hx).
    rewrite Hd1 in *. exists p1. repeat split; try assumption; try lia.
    apply (whitespace_between_cons _ _ _ b Hb); [|exact Hw].
    unfold whitespace_byte. rewrite <- Ech. exact Hws.
  - injection H as <- <-. exists p0. repeat split; try assumption; try lia.
    + apply whitespace_between_empty.
    + apply andb_false_iff in Hc as [Hc|Hc]; [left|right; exact Hc].
      destruct ch; [reflexivity|discriminate].
Qed.

Lemma name_loop_spec (fuel : nat) : forall out s ch' out' s',
  name_loop fuel out s = Some (ch', out', s') ->
  exists p1, looked p1 ch' s' /\ data s' = data s /\ (pos s <= p1)%nat /\
    out' = out ++ slice (data s) (pos s) p1 /\
    every_char (fun c => negb (_is_delimiter c)) (slice (data s) (pos s) p1) = true /\
    (ch' = EmptyString \/ negb (_is_delimiter ch') = false).
Proof.
  induction fuel as [|f IH]; intros out s ch' out' s' H; [discriminate|].
  cbn [name_loop] in H.
  destruct (_next_char s) as [ch1 s1] eqn:E1.
  apply next_char_looked in E1 as [Hl1 Hd1].
  destruct (len ch1 =? 0)%Z eqn:Hlen;
    [|destruct (_is_delimiter ch1) eqn:Hdel].
  1,2: injection H as <- <- <-; exists (pos s);
       rewrite slice_empty, str_app_nil_r; repeat split; auto.
  { left. destruct ch1; [reflexivity|discriminate]. }
  { right. rewrite Hdel. reflexivity. }
  assert (Hch : ch1 <> EmptyString) by (intros ->; discriminate).
  destruct (looked_nonempty _ _ _ Hl1 Hch) as (b & Hb & Ech & Hp).
  destruct (IH _ _ _ _ _ H) as (p1 & Hl' & Hd' & Hle & Ho & He & Hx).
  rewrite Hd1, Hp in *. exists p1. repeat split; try assumption; try lia.
  - rewrite Ho, str_app_assoc. f_equal.
    rewrite <- (slice_app _ (pos s) (S (pos s)) p1) by lia.
    rewrite (slice_one _ _ _ Hb), Ech. reflexivity.
  - rewrite <- (slice_app _ (pos s) (S (pos s)) p1) by lia.
    rewrite every_char_app, He, (slice_one _ _ _ Hb), andb_true_r.
    cbn [every_char]. rewrite <- Ech, Hdel. reflexivity.
Qed.

Lemma hex_loop_spec (fuel : nat) : forall out s ch' out' s',
  hex_loop fuel out s = Some (ch', out', s') ->
  data s' = data s /\ (pos s <= pos s')%nat /\
  out' = out ++ slice (data s) (pos s) (pos s').
Proof.
  induction fuel as [|f IH]; intros out s ch' out' s' H; [discriminate|].
  cbn [hex_loop] in H.
  destruct (_next_char s) as [ch1 s1] eqn:E1.
  apply next_char_looked in E1 as [Hl1 Hd1].
  destruct (looked_slice _ _ _ Hl1) as [Es Hle]. rewrite Hd1 in Es.
  destruct (len ch1 =? 0)%Z eqn:Hlen;
    [|destruct (String.eqb ch1 ">") eqn:Hgt].
  - injection H as <- <- <-.
    assert (ch1 = EmptyString) as -> by (destruct ch1; [reflexivity|discriminate]).
    rewrite <- Es, str_app_nil_r. auto.
  - injection H as <- <- <-. rewrite <- Es. auto.
  - destruct (IH _ _ _ _ _ H) as (Hd' & Hle' & Ho).
    rewrite Hd1 in *. repeat split; try assumption; try lia.
    rewrite Ho, str_app_assoc. f_equal.
    rewrite <- (slice_app _ (pos s) (pos s1) (pos s')) by lia.
    rewrite <- Es. reflexivity.
Qed.

Lemma endswith_app_same (out : string) (c : ascii) :
  endswith (out ++ String c EmptyString) (String c EmptyString) = true.
Proof.
  induction out as [|a out IH].
  - change (EmptyString ++ String c EmptyString) with (String c EmptyString).
    cbn [endswith]. rewrite String.eqb_refl. reflexivity.
  - change (String a out ++ String c EmptyString)
      with (String a (out ++ String c EmptyString)).
    cbn [endswith]. rewrite IH. apply orb_true_r.
Qed.

Lemma string_loop_spec (fuel : nat) : forall lvl out s ch' out' s',
  string_loop fuel lvl out s = Some (ch', out', s') ->
  (1 <= lvl)%Z ->
  data s' = data s /\ (pos s <= pos s')%nat /\
  out' = out ++ slice (data s) (pos s) (pos s') /\
  (len ch' = 0%Z \/ endswith out' ")" = true).
Proof.
  induction fuel as [|f IH]; intros lvl out s ch' out' s' H Hlvl; [discriminate|].
  cbn [string_loop] in H.
  destruct (_next_char s) as [ch1 s1] eqn:E1.
  apply next_char_looked in E1 as [Hl1 Hd1].
  destruct (looked_slice _ _ _ Hl1) as [Es Hle]. rewrite Hd1 in Es.
  destruct (len ch1 =? 0)%Z eqn:Hlen.
  { injection H as <- <- <-.
    assert (ch1 = EmptyString) as -> by (destruct ch1; [reflexivity|discriminate]).
    rewrite <- Es, str_app_nil_r. auto. }
  destruct (String.eqb ch1 "\") eqn:Hesc.
  - destruct (_next_char s1) as [ch2 s2] eqn:E2.
    apply next_char_looked in E2 as [Hl2 Hd2].
    destruct (looked_slice _ _ _ Hl2) as [Es2 Hle2]. rewrite Hd2, Hd1 in Es2.
    destruct (IH _ _ _ _ _ _ H Hlvl) as (Hd' & Hle' & Ho & Hend).
    rewrite Hd2, Hd1 in *. repeat split; try assumption; try lia.
    rewrite Ho, str_app_assoc. f_equal.
    apply String.eqb_eq in Hesc. rewrite <- Hesc, str_app_assoc.
    rewrite <- (slice_app _ (pos s) (pos s1) (pos s')) by lia.
    rewrite <- (slice_app _ (pos s1) (pos s2) (pos s')) by lia.
    rewrite <- Es, <- Es2. reflexivity.
  - match type of H with (if ?c then _ else _) = _ => destruct c eqn:Ec end.
    + injection H as <- <- <-. rewrite <- Es.
      repeat split; try assumption. right.
      destruct (String.eqb_spec ch1 ")") as [->|Hne];
        [apply endswith_app_same|].
      exfalso. apply Z.eqb_eq in Ec.
      destruct (String.eqb ch1 "("); lia.
    + assert (Hl' : (1 <= (if String.eqb ch1 ")"
                           then (if String.eqb ch1 "(" then lvl + 1 else lvl) - 1
                           else (if String.eqb ch1 "(" then lvl + 1 else lvl)))%Z).
      { apply Z.eqb_neq in Ec.
        destruct (String.eqb ch1 ")"), (String.eqb ch1 "("); lia. }
      destruct (IH _ _ _ _ _ _ H Hl') as (Hd' & Hle' & Ho & Hend).
      rewrite Hd1 in *. repeat split; try assumption; try lia.
      rewrite Ho, str_app_assoc. f_equal.
      rewrite <- (slice_app _ (pos s) (pos s1) (pos s')) by lia.
      rewrite <- Es. reflexivity.
Qed.

Lemma code_eq (c : ascii) (k : N) :
  (k < 256)%N -> (Z.of_N (N_of_ascii c) =? Z.of_N k)%Z = true -> c = ascii_of_N k.
Proof.
  intros _ H. apply Z.eqb_eq, N2Z.inj in H. rewrite <- H.
  symmetry. apply ascii_N_embedding.
Qed.

(** A delimiter that is not whitespace and opens no token of its own is
    the closing parenthesis. *)
Lemma lone_delimiter (c : ascii) :
  _is_delimiter (String c EmptyString) = true ->
  _is_whitespace (String c EmptyString) = false ->
  c <> "["%char -> c <> "]"%char -> c <> "/"%char -> c <> ">"%char ->
  c <> "%"%char -> c <> "<"%char -> c <> "("%char ->
  c = ")"%char.
Proof.
  unfold _is_delimiter, _is_whitespace, in_codes, ord. cbn [existsb].
  intros Hd Hw. intros.
  repeat (apply orb_false_elim in Hw as [? Hw]).
  repeat match type of Hd with
  | (_ || _) = true => apply orb_prop in Hd as [Hd|Hd]
  end; try congruence.
  - exfalso. pose proof (N2Z.is_nonneg (N_of_ascii c)). lia.
  - apply (code_eq c 37) in Hd; [contradiction|reflexivity].
  - apply (code_eq c 40) in Hd; [contradiction|reflexivity].
  - apply (code_eq c 41) in Hd; [exact Hd|reflexivity].
  - apply (code_eq c 47) in Hd; [contradiction|reflexivity].
  - apply (code_eq c 60) in Hd; [contradiction|reflexivity].
  - apply (code_eq c 62) in Hd; [contradiction|reflexivity].
  - apply (code_eq c 91) in Hd; [contradiction|reflexivity].
  - apply (code_eq c 93) in Hd; [contradiction|reflexivity].
Qed.

(** With an empty lookahead after the whitespace, the NUMBER branch is
    taken. *)
Lemma next_token_fuel_empty_lookahead (f : nat) (s s1 s2 : io_source) (c : ascii) :
  _next_char s = (String c EmptyString, s1) ->
  skip_whitespace (S f) (String c EmptyString) s1 = Some (EmptyString, s2) ->
  next_token_fuel (S f) s
  = Some (token (tell s2 - 1) NUMBER EmptyString, s2).
Proof.
  intros E1 E2. unfold next_token_fuel. rewrite E1.
  change (len (String c EmptyString) =? 0)%Z with false. cbv iota.
  rewrite E2. reflexivity.
Qed.

Lemma prefix_cons (c : ascii) (s : string) :
  String.prefix (String c EmptyString) (String c s) = true.
Proof.
  cbn. destruct (ascii_dec c c); [|contradiction]. destruct s; reflexivity.
Qed.

Ltac scanned_basics :=
  unfold scanned, token; cbn [byte_offset text token_type data pos];
  repeat match goal with
  | |- _ /\ _ => split
  end; try assumption; try lia; try reflexivity;
  try (unfold stops;
       match goal with
       | |- context [nth_error ?l ?i] => destruct (nth_error l i)
       end; reflexivity).

(** The scan from the first byte [b] that is not whitespace, at [p]. *)
Lemma dispatch_scanned (f : nat) (s s1 s2 : io_source) (c1 : ascii)
  (p : nat) (b : byte) (r : result (option Token)) (s' : io_source) :
  _next_char s = (String c1 EmptyString, s1) ->
  skip_whitespace (S f) (String c1 EmptyString) s1
  = Some (String (ascii_of_byte b) EmptyString, s2) ->
  nth_error (data s2) p = Some b -> pos s2 = S p ->
  _is_whitespace (String (ascii_of_byte b) EmptyString) = false ->
  next_token_fuel (S f) s = Some (r, s') ->
  scanned (data s2) p r s'.
Proof.
  intros E1 E2 Hb Hp Hws. unfold next_token_fuel. rewrite E1.
  change (len (String c1 EmptyString) =? 0)%Z with false. cbv iota.
  rewrite E2. cbn [mbind option_bind].
  set (fuel := S f). set (d := data s2) in *.
  pose proof (slice_one d p b Hb) as Hone.
  assert (Hl2 : looked p (String (ascii_of_byte b) EmptyString) s2)
    by (right; exists b; auto).
  assert (Htell : (tell s2 - 1 = Z.of_nat p)%Z) by (unfold tell; lia).
  set (c2 := String (ascii_of_byte b) EmptyString) in *.
  rewrite Htell.
  destruct (String.eqb_spec c2 "[") as [e|n1].
  { intros [= <- <-]. scanned_basics. rewrite Hp, Hone. exact (eq_sym e). }
  destruct (String.eqb_spec c2 "]") as [e|n2].
  { intros [= <- <-]. scanned_basics. rewrite Hp, Hone. exact (eq_sym e). }
  destruct (String.eqb_spec c2 "/") as [e|n3].
  { destruct (name_loop fuel "/" s2) as [[[ch3 out] s3]|] eqn:E3;
      cbn [mbind option_bind]; [|discriminate].
    intros [= <- <-].
    destruct (name_loop_spec _ _ _ _ _ _ E3)
      as (p1 & Hl3 & Hd3 & Hle & Ho & He & Hx).
    pose proof (looked_stop (fun c => negb (_is_delimiter c)) _ _ _ Hl3 Hx) as Hstop.
    rewrite (looked_push_back _ _ _ Hl3), Hd3, Hp in *.
    fold d in Ho, He, Hstop |- *.
    scanned_basics.
    - rewrite Ho, <- (slice_app d p (S p) p1) by lia. rewrite Hone, e. reflexivity.
    - rewrite Ho.
      change ("/" ++ slice d (S p) p1) with (String "/" (slice d (S p) p1)).
      unfold shape. cbn [tail]. rewrite prefix_cons. exact He.
    - destruct (nth_error d p1) as [b0|] eqn:Hb0; [|reflexivity].
      apply negb_false_iff, (Hstop b0 eq_refl). }
  destruct (String.eqb_spec c2 ">") as [e|n4].
  { destruct (_next_char s2) as [ch3 s3] eqn:E3.
    apply next_char_looked in E3 as [Hl3 Hd3]. rewrite Hp in Hl3.
    destruct (looked_slice _ _ _ Hl3) as [Es3 Hle3]. rewrite Hd3 in Es3.
    fold d in Es3.
    destruct (String.eqb_spec ch3 ">") as [e3|n]; cbn [negb];
      intros [= <- <-].
    - scanned_basics.
      rewrite <- (slice_app d p (S p) (pos s3)) by lia.
      rewrite Hone, <- Es3, e, e3. reflexivity.
    - scanned_basics. right. eauto. }
  destruct (String.eqb_spec c2 "%") as [e|n5].
  { destruct (comment_loop fuel c2 EmptyString s2) as [[[ch3 out] s3]|] eqn:E3;
      cbn [mbind option_bind]; [|discriminate].
    intros [= <- <-].
    destruct (comment_loop_spec _ _ _ _ _ _ _ _ E3 Hl2)
      as (p1 & Hl3 & Hd3 & Hle & Ho & He & Hx & Hlt).
    pose proof (looked_stop (fun c => negb (String.eqb c CR) && negb (String.eqb c LF)) _ _ _ Hl3 Hx) as Hstop.
    rewrite (looked_push_back _ _ _ Hl3), Hd3 in *.
    fold d in Ho, He, Hstop |- *.
    assert (p < p1)%nat by (apply Hlt; rewrite e; [discriminate|reflexivity]).
    scanned_basics.
    - rewrite Ho.
      change (EmptyString ++ slice d p p1) with (slice d p p1).
      unfold shape. rewrite He, andb_true_r.
      rewrite <- (slice_app d p (S p) p1) by lia. rewrite Hone, e.
      apply prefix_cons.
    - destruct (nth_error d p1) as [b0|] eqn:Hb0; [|reflexivity].
      specialize (Hstop b0 eq_refl). cbv beta in Hstop. cbn [stops].
      apply andb_false_iff in Hstop as [Hs|Hs];
        apply negb_false_iff in Hs; rewrite Hs;
        [reflexivity|apply orb_true_r]. }
  destruct (String.eqb_spec c2 "<") as [e|n6].
  { destruct (_next_char s2) as [ch3 s3] eqn:E3.
    apply next_char_looked in E3 as [Hl3 Hd3]. rewrite Hp in Hl3.
    destruct (looked_slice _ _ _ Hl3) as [Es3 Hle3]. rewrite Hd3 in Es3.
    fold d in Es3.
    assert (Hpair : forall x, ch3 = String x EmptyString ->
              slice d p (pos s3) = String "<" (String x EmptyString)).
    { intros x Hx. rewrite <- (slice_app d p (S p) (pos s3)) by lia.
      rewrite Hone, <- Es3, e, Hx. reflexivity. }
    destruct (String.eqb_spec ch3 "<") as [e3|n].
    { intros [= <- <-]. scanned_basics.
      rewrite (Hpair _ e3). reflexivity. }
    destruct (String.eqb_spec ch3 ">") as [e3|n'].
    { intros [= <- <-]. scanned_basics.
      rewrite (Hpair _ e3). reflexivity. }
    destruct (hex_loop fuel ("<" ++ ch3) s3) as [[[ch4 out] s4]|] eqn:E4;
      cbn [mbind option_bind]; [|discriminate].
    intros [= <- <-].
    destruct (hex_loop_spec _ _ _ _ _ _ E4) as (Hd4 & Hle4 & Ho).
    rewrite Hd3 in *. fold d in Ho |- *.
    scanned_basics.
    - rewrite Ho. rewrite <- (slice_app d p (S p) (pos s4)) by lia.
      rewrite <- (slice_app d (S p) (pos s3) (pos s4)) by lia.
      rewrite Hone, <- Es3, e, str_app_assoc. reflexivity.
    - rewrite Ho.
      change (("<" ++ ch3) ++ slice d (pos s3) (pos s4))
        with (String "<" (ch3 ++ slice d (pos s3) (pos s4))).
      apply prefix_cons. }
  destruct (is_number_char c2) eqn:Hnum.
  { destruct (number_loop fuel c2 EmptyString s2) as [[[ch3 out] s3]|] eqn:E3;
      cbn [mbind option_bind]; [|discriminate].
    intros [= <- <-].
    destruct (number_loop_spec _ _ _ _ _ _ _ _ E3 Hl2)
      as (p1 & Hl3 & Hd3 & Hle & Ho & He & Hx & Hlt).
    pose proof (looked_stop is_number_char _ _ _ Hl3 Hx) as Hstop.
    rewrite (looked_push_back _ _ _ Hl3), Hd3 in *.
    fold d in Ho, He, Hstop |- *.
    assert (p < p1)%nat by (apply Hlt; [discriminate|exact Hnum]).
    scanned_basics; [rewrite Ho; exact He|].
    destruct (nth_error d p1) as [b0|] eqn:Hb0; [|reflexivity].
    apply negb_true_iff, (Hstop b0 eq_refl). }
  destruct (String.eqb_spec c2 "(") as [e|n7].
  { destruct (string_loop fuel 1 "(" s2) as [[[ch3 out] s3]|] eqn:E3;
      cbn [mbind option_bind]; [|discriminate].
    destruct (string_loop_spec _ _ _ _ _ _ _ E3 ltac:(reflexivity))
      as (Hd3 & Hle3 & Ho & Hend).
    destruct (string_loop_result _ _ _ _ _ _ _ E3 ltac:(lia)) as [Hz|Hesc].
    { rewrite Hz. cbn. intros [= <- <-]. scanned_basics. left; reflexivity. }
    destruct (len ch3 =? 0)%Z eqn:Hlen.
    { intros [= <- <-]. scanned_basics. left; reflexivity. }
    rewrite Hesc. intros [= <- <-].
    destruct Hend as [Hz|Hend]; [rewrite Hz in Hlen; discriminate|].
    rewrite Hp in *. fold d in Ho |- *.
    scanned_basics.
    - rewrite Ho, <- (slice_app d p (S p) (pos s3)) by lia.
      rewrite Hone, e. reflexivity.
    - unfold shape. rewrite Hend, Ho, andb_true_r.
      change ("(" ++ slice d (S p) (pos s3))
        with (String "(" (slice d (S p) (pos s3))).
      apply prefix_cons. }
  destruct (other_loop fuel c2 EmptyString s2) as [[[ch3 out] s3]|] eqn:E3;
    cbn [mbind option_bind]; [|discriminate].
  intros [= <- <-].
  destruct (other_loop_spec _ _ _ _ _ _ _ _ E3 Hl2)
    as (p1 & Hl3 & Hd3 & Hle & Ho & He & Hx & Hlt).
  pose proof (looked_stop (fun c => negb (_is_delimiter c)) _ _ _ Hl3 Hx) as Hstop.
  rewrite (looked_push_back _ _ _ Hl3), Hd3 in *.
  fold d in Ho, He, Hstop |- *.
  scanned_basics;
    [|rewrite Ho; exact He
     |destruct (nth_error d p1) as [b0|] eqn:Hb0; [|reflexivity];
      apply negb_false_iff, (Hstop b0 eq_refl)].
  intros Epp.
  assert (Hdel : _is_delimiter c2 = true).
  { destruct (_is_delimiter c2) eqn:E; [reflexivity|].
    exfalso. assert (p < p1)%nat; [apply Hlt; [discriminate|reflexivity]|lia]. }
  assert (Hc : ascii_of_byte b = ")"%char).
  { apply lone_delimiter; try assumption; intros E; subst c2; rewrite E in *;
      try contradiction; discriminate. }
  rewrite Hb. f_equal.
  rewrite <- (byte_of_ascii_of_byte b), Hc. reflexivity.
Qed.

Lemma next_token_fuel_after_skip (f : nat) (s s1 sA sA1 s2 : io_source)
  (c1 cA : ascii) (c2 : string) :
  _next_char s = (String c1 EmptyString, s1) ->
  skip_whitespace (S f) (String c1 EmptyString) s1 = Some (c2, s2) ->
  _next_char sA = (String cA EmptyString, sA1) ->
  skip_whitespace (S f) (String cA EmptyString) sA1 = Some (c2, s2) ->
  next_token_fuel (S f) s = next_token_fuel (S f) sA.
Proof.
  intros E1 E2 EA1 EA2. unfold next_token_fuel. rewrite E1, EA1.
  change (len (String c1 EmptyString) =? 0)%Z with false.
  change (len (String cA EmptyString) =? 0)%Z with false. cbv iota.
  rewrite E2, EA2. reflexivity.
Qed.

(** The first read and the whitespace loop of [next_token], when the
    source is not at its end. *)
Lemma first_lookahead (s : io_source) :
  (pos s < List.length (data s))%nat ->
  exists c1 s1 ch2 s2 p,
    _next_char s = (String c1 EmptyString, s1) /\
    skip_whitespace (S (List.length (data s))) (String c1 EmptyString) s1
    = Some (ch2, s2) /\
    looked p ch2 s2 /\ data s2 = data s /\ (pos s <= p)%nat /\
    whitespace_between (data s) (pos s) p /\
    (ch2 = EmptyString \/ _is_whitespace ch2 = false).
Proof.
  intros Hlt.
  destruct (next_char_cases s) as [(Hr & _)|(b & Hb & E & Hr)];
    [unfold remaining in Hr; lia|].
  set (s1 := mkIO (data s) (S (pos s))) in *.
  destruct (skip_whitespace_total (S (List.length (data s)))
              (String (ascii_of_byte b) EmptyString) s1) as (ch2 & s2 & Esk & _).
  { cbn [budget]. unfold remaining in *. cbn [data pos] in *. lia. }
  assert (Hl1 : looked (pos s) (String (ascii_of_byte b) EmptyString) s1)
    by (right; exists b; auto).
  destruct (skip_whitespace_spec _ _ _ _ _ _ Esk Hl1)
    as (p & Hl2 & Hd2 & Hle & Hws & Hx).
  exists (ascii_of_byte b), s1, ch2, s2, p. cbn [data] in *. auto 10.
Qed.

(** What [next_token] does, case by case. *)
Lemma next_token_scanned (s : io_source) r s' :
  next_token s = Some (r, s') ->
  ((List.length (data s) <= pos s)%nat /\ r = Return None /\ s' = s) \/
  ((pos s < List.length (data s))%nat /\
   exists p, (pos s <= p)%nat /\ whitespace_between (data s) (pos s) p /\
     ((p = List.length (data s) /\
       r = token (Z.of_nat p - 1) NUMBER EmptyString /\
       s' = mkIO (data s) p) \/
      (exists b, nth_error (data s) p = Some b /\ ~ whitespace_byte b /\
                 scanned (data s) p r s'))).
Proof.
  intros H.
  destruct (Nat.le_gt_cases (List.length (data s)) (pos s)) as [Hend|Hlt].
  { left. rewrite (next_token_at_end s Hend) in H. injection H as <- <-. auto. }
  right. split; [exact Hlt|].
  destruct (first_lookahead s Hlt)
    as (c1 & s1 & ch2 & s2 & p & E1 & Esk & Hl2 & Hd2 & Hle & Hws & Hx).
  exists p. split; [exact Hle|]. split; [exact Hws|].
  unfold next_token in H.
  destruct Hl2 as [(-> & Hp2 & Hlen2)|(b2 & Hb2 & -> & Hp2)].
  - left. rewrite (next_token_fuel_empty_lookahead _ _ _ _ _ E1 Esk) in H.
    injection H as <- <-.
    assert (p = List.length (data s)) as Ep.
    { rewrite Hd2 in Hlen2. destruct (Nat.eq_dec p (pos s)) as [->|Hne]; [lia|].
      destruct (Hws (p - 1)%nat ltac:(lia)) as (b & Hb & _).
      assert (p - 1 < List.length (data s))%nat
        by (apply nth_error_Some; congruence).
      lia. }
    split; [exact Ep|]. unfold tell. rewrite Hp2. split; [reflexivity|].
    destruct s2; cbn [data pos] in *; subst; reflexivity.
  - right. exists b2. rewrite <- Hd2. split; [exact Hb2|]. split.
    + destruct Hx as [Hx|Hx]; [discriminate|].
      unfold whitespace_byte. rewrite Hx. discriminate.
    + eapply dispatch_scanned; eauto.
      destruct Hx as [Hx|Hx]; [discriminate|exact Hx].
Qed.

(** X2: [next_token] returns the end-of-stream sentinel exactly when the
    cursor is at or past the end of the bytes, and then leaves the source
    as it is. *)
Theorem sentinel_iff_at_end (s s' : io_source) :
  next_token s = Some (Return None, s') <->
  (List.length (data s) <= pos s)%nat /\ s' = s.
Proof.
  split.
  - intros H. destruct (next_token_scanned _ _ _ H)
      as [(Hend & _ & ->)|(_ & p & _ & _ & [(_ & Hr & _)|(b & _ & _ & Hsc)])].
    + auto.
    + discriminate.
    + destruct Hsc as (_ & _ & _ & []).
  - intros [Hend ->]. apply next_token_at_end, Hend.
Qed.

(** X3: [next_token] never changes the bytes and never moves the cursor
    back; the cursor stays where it was only at the end of the stream or
    on a closing parenthesis. *)
Theorem cursor_never_moves_back (s s' : io_source) (r : result (option Token)) :
  next_token s = Some (r, s') ->
  data s' = data s /\ (pos s <= pos s')%nat /\
  (pos s' = pos s ->
   (List.length (data s) <= pos s)%nat \/
   nth_error (data s) (pos s) = Some ")"%byte).
Proof.
  intros H. destruct (next_token_scanned _ _ _ H)
    as [(Hend & _ & ->)|(Hlt & p & Hle & _ & [(-> & _ & ->)|(b & _ & _ & Hsc)])].
  - auto.
  - cbn [data pos]. repeat split; try lia.
  - destruct Hsc as (Hd & Hp & Hparen & _).
    repeat split; [exact Hd|lia|]. intros E. right.
    assert (p = pos s) as -> by lia. apply Hparen. exact E.
Qed.

Lemma cursor_never_moves_back_witness :
  data (mkIO (data (source_of "[1]")) 1) = data (source_of "[1]") /\
  (pos (source_of "[1]") <= pos (mkIO (data (source_of "[1]")) 1))%nat /\
  (pos (mkIO (data (source_of "[1]")) 1) = pos (source_of "[1]") ->
   (List.length (data (source_of "[1]")) <= pos (source_of "[1]"))%nat \/
   nth_error (data (source_of "[1]")) (pos (source_of "[1]")) = Some ")"%byte).
Proof.
  apply (cursor_never_moves_back (source_of "[1]") _
           (token 0 START_ARRAY "[")).
  vm_compute. reflexivity.
Defined.

(** On a closing parenthesis [next_token] returns an OTHER token with
    empty text and pushes the parenthesis back. *)
Lemma close_paren_pushed_back (s : io_source) :
  nth_error (data s) (pos s) = Some ")"%byte ->
  next_token s = Some (token (tell s) OTHER EmptyString, s).
Proof.
  intros Hb. unfold next_token, next_token_fuel.
  destruct (next_char_cases s) as [(Hr & _)|(b & Hb' & -> & _)].
  { assert (pos s < List.length (data s))%nat
      by (apply nth_error_Some; congruence).
    unfold remaining in Hr. lia. }
  rewrite Hb in Hb'. injection Hb' as <-.
  change (ascii_of_byte ")"%byte) with ")"%char.
  change (len ")" =? 0)%Z with false. cbv iota.
  cbn [skip_whitespace].
  change (_is_whitespace ")") with false. rewrite andb_false_r.
  cbn [mbind option_bind].
  change (")" =? "[")%string with false.
  change (")" =? "]")%string with false.
  change (")" =? "/")%string with false.
  change (")" =? ">")%string with false.
  change (")" =? "%")%string with false.
  change (")" =? "<")%string with false.
  change (")" =? "(")%string with false.
  change (is_number_char ")") with false. cbv iota.
  cbn [other_loop].
  change (negb (len ")" =? 0)%Z && negb (_is_delimiter ")")) with false.
  cbv iota. cbn [mbind option_bind].
  unfold push_back. change (negb (len ")" =? 0)%Z) with true. cbv iota.
  unfold _prev_char, tell. destruct s as [d p]. cbn [data pos].
  replace (Z.of_nat (S p) - 1)%Z with (Z.of_nat p) by lia.
  reflexivity.
Qed.

(** The whitespace before a token does not change it. *)
Lemma next_token_skips_whitespace (s : io_source) (p : nat) (b : byte) :
  (pos s <= p)%nat -> whitespace_between (data s) (pos s) p ->
  nth_error (data s) p = Some b -> ~ whitespace_byte b ->
  next_token s = next_token (mkIO (data s) p).
Proof.
  intros Hle Hws Hb Hnw.
  assert (Hp : (p < List.length (data s))%nat)
    by (apply nth_error_Some; congruence).
  assert (Hlt : (pos s < List.length (data s))%nat) by lia.
  destruct (first_lookahead s Hlt)
    as (c1 & s1 & ch2 & s2 & p' & E1 & Esk & Hl2 & Hd2 & Hle' & Hws' & Hx).
  assert (Hb' : exists b2, nth_error (data s2) p' = Some b2 /\
                  ch2 = String (ascii_of_byte b2) EmptyString /\
                  pos s2 = S p' /\ ~ whitespace_byte b2).
  { destruct Hl2 as [(-> & Hp2 & Hlen2)|(b2 & Hb2 & -> & Hp2)].
    - exfalso. rewrite Hd2 in Hlen2.
      destruct (Hws' p) as (b0 & Hb0 & Hw0); [lia|].
      rewrite Hb in Hb0. injection Hb0 as <-. contradiction.
    - exists b2. repeat split; try assumption.
      destruct Hx as [Hx|Hx]; [discriminate|].
      unfold whitespace_byte. rewrite Hx. discriminate. }
  destruct Hb' as (b2 & Hb2 & -> & Hp2 & Hnw2). rewrite Hd2 in Hb2.
  assert (p' = p).
  { destruct (Nat.lt_trichotomy p' p) as [Hlt'|[E|Hgt]]; [|exact E|].
    - destruct (Hws p') as (b0 & Hb0 & Hw0); [lia|].
      rewrite Hb2 in Hb0. injection Hb0 as <-. contradiction.
    - destruct (Hws' p) as (b0 & Hb0 & Hw0); [lia|].
      rewrite Hb in Hb0. injection Hb0 as <-. contradiction. }
  subst p'. rewrite Hb in Hb2. injection Hb2 as <-.
  unfold next_token. cbn [data].
  assert (E0 : _next_char (mkIO (data s) p)
               = (String (ascii_of_byte b) EmptyString, s2)).
  { unfold _next_char, read1. cbn [data pos]. rewrite Hb.
    destruct s2 as [d2 p2]. cbn [data pos] in *. subst. reflexivity. }
  apply (next_token_fuel_after_skip _ _ _ _ _ _ _ _ _ E1 Esk E0).
  cbn [skip_whitespace].
  destruct (_is_whitespace (String (ascii_of_byte b) EmptyString)) eqn:Hw;
    [contradiction|].
  rewrite andb_false_r. reflexivity.
Qed.

(** X4: A closing parenthesis outside a string stalls the tokenizer:
    [next_token] skips the whitespace before it, returns an OTHER token
    with empty text at its offset and leaves the cursor on it, so that
    the next call returns the same token again. *)
Theorem stray_close_paren_stalls (s : io_source) (p : nat) :
  (pos s <= p)%nat -> whitespace_between (data s) (pos s) p ->
  nth_error (data s) p = Some ")"%byte ->
  let stalled := mkIO (data s) p in
  next_token s = Some (token (Z.of_nat p) OTHER EmptyString, stalled) /\
  next_token stalled = Some (token (Z.of_nat p) OTHER EmptyString, stalled).
Proof.
  intros Hle Hws Hb stalled.
  assert (Hs : next_token stalled
               = Some (token (Z.of_nat p) OTHER EmptyString, stalled))
    by (apply (close_paren_pushed_back stalled); exact Hb).
  split; [|exact Hs].
  rewrite <- Hs. apply (next_token_skips_whitespace s p _ Hle Hws Hb).
  unfold whitespace_byte. vm_compute. discriminate.
Qed.

Lemma stray_close_paren_stalls_witness :
  let stalled := mkIO (data (source_of "1  )")) 3 in
  next_token (mkIO (data (source_of "1  )")) 1)
  = Some (token 3 OTHER EmptyString, stalled) /\
  next_token stalled = Some (token 3 OTHER EmptyString, stalled).
Proof.
  apply (stray_close_paren_stalls (mkIO (data (source_of "1  )")) 1) 3).
  - cbn. lia.
  - intros i Hi. cbn in Hi.
    assert (i = 1 \/ i = 2)%nat as [-> | ->] by lia;
      (eexists; split; [reflexivity|vm_compute; reflexivity]).
  - reflexivity.
Defined.

(** X5: The tokens with empty text: a NUMBER token when only whitespace is
    left before the end of the input, and an OTHER token on a closing
    parenthesis outside a string, where the cursor stays. *)
Theorem empty_text_tokens (s s' : io_source) (tok : Token) :
  next_token s = Some (Return (Some tok), s') ->
  text tok = EmptyString ->
  (token_type tok = NUMBER /\ only_whitespace_left s /\
   (pos s < List.length (data s))%nat /\
   s' = mkIO (data s) (List.length (data s)) /\
   byte_offset tok = (Z.of_nat (List.length (data s)) - 1)%Z) \/
  (token_type tok = OTHER /\
   whitespace_between (data s) (pos s) (pos s') /\
   nth_error (data s) (pos s') = Some ")"%byte /\
   data s' = data s /\ byte_offset tok = tell s').
Proof.
  intros H Htxt. destruct (next_token_scanned _ _ _ H)
    as [(_ & Hr & _)|(Hlt & p & Hle & Hws & [(Hp & Hr & Hs')|(b & Hb & Hnw & Hsc)])].
  - discriminate.
  - left. injection Hr as ->. subst p. repeat split; try assumption.
    intros i b Hi Hb. destruct (Hws i) as (b0 & Hb0 & Hw0).
    { split; [exact Hi|]. apply nth_error_Some. congruence. }
    rewrite Hb in Hb0. injection Hb0 as <-. exact Hw0.
  - right. destruct Hsc as (Hd & Hp & Hstay & Hoff & Hslice & _).
    assert (Hp' : pos s' = p).
    { destruct (Nat.eq_dec (pos s') p) as [E|Hne]; [exact E|exfalso].
      rewrite Htxt in Hslice.
      assert (Hl : (p < List.length (data s))%nat)
        by (apply nth_error_Some; congruence).
      unfold slice in Hslice.
      destruct (skipn p (data s)) as [|x l] eqn:Esk.
      - apply (f_equal (@List.length byte)) in Esk.
        rewrite length_skipn in Esk. cbn in Esk. lia.
      - destruct (pos s' - p)%nat as [|n] eqn:En; [lia|].
        cbn in Hslice. discriminate. }
    pose proof (Hstay Hp') as Hparen.
    rewrite (next_token_skips_whitespace s p _ Hle Hws Hparen) in H
      by (unfold whitespace_byte; vm_compute; discriminate).
    rewrite (close_paren_pushed_back (mkIO (data s) p) Hparen) in H.
    injection H as <- <-. cbn [token_type data pos byte_offset].
    repeat split; assumption.
Qed.

Lemma empty_text_tokens_witness :
  (token_type (mkToken 1 NUMBER EmptyString) = NUMBER /\
   only_whitespace_left (source_of "  ") /\
   (pos (source_of "  ") < List.length (data (source_of "  ")))%nat /\
   mkIO (data (source_of "  ")) 2
   = mkIO (data (source_of "  ")) (List.length (data (source_of "  "))) /\
   byte_offset (mkToken 1 NUMBER EmptyString)
   = (Z.of_nat (List.length (data (source_of "  "))) - 1)%Z) \/
  (token_type (mkToken 1 NUMBER EmptyString) = OTHER /\
   whitespace_between (data (source_of "  ")) (pos (source_of "  "))
     (pos (mkIO (data (source_of "  ")) 2)) /\
   nth_error (data (source_of "  ")) (pos (mkIO (data (source_of "  ")) 2))
   = Some ")"%byte /\
   data (mkIO (data (source_of "  ")) 2) = data (source_of "  ") /\
   byte_offset (mkToken 1 NUMBER EmptyString)
   = tell (mkIO (data (source_of "  ")) 2)).
Proof.
  apply (empty_text_tokens (source_of "  ")).
  - vm_compute. reflexivity.
  - reflexivity.
Defined.

(** X6: A token with text is a slice of the input: it starts at its
    [byte_offset], which only whitespace separates from the old cursor,
    and its text is the bytes from there up to the new cursor, decoded. *)
Theorem token_text_is_input_slice (s s' : io_source) (tok : Token) :
  next_token s = Some (Return (Some tok), s') ->
  text tok <> EmptyString ->
  exists p, byte_offset tok = Z.of_nat p /\
    (pos s <= p < pos s')%nat /\
    whitespace_between (data s) (pos s) p /\
    text tok = slice (data s) p (pos s') /\
    data s' = data s.
Proof.
  intros H Hne. destruct (next_token_scanned _ _ _ H)
    as [(_ & Hr & _)|(Hlt & p & Hle & Hws & [(_ & Hr & _)|(b & _ & _ & Hsc)])].
  - discriminate.
  - injection Hr as ->. contradiction.
  - destruct Hsc as (Hd & Hp & _ & Hoff & Htxt & _).
    exists p. repeat split; try assumption.
    destruct (Nat.eq_dec (pos s') p) as [E|]; [|lia].
    rewrite E, slice_empty in Htxt. contradiction.
Qed.

Lemma token_text_is_input_slice_witness :
  exists p, byte_offset (mkToken 2 NAME "/Foo") = Z.of_nat p /\
    (pos (source_of "  /Foo/Bar") <= p
     < pos (mkIO (data (source_of "  /Foo/Bar")) 6))%nat /\
    whitespace_between (data (source_of "  /Foo/Bar"))
      (pos (source_of "  /Foo/Bar")) p /\
    text (mkToken 2 NAME "/Foo")
    = slice (data (source_of "  /Foo/Bar")) p
        (pos (mkIO (data (source_of "  /Foo/Bar")) 6)) /\
    data (mkIO (data (source_of "  /Foo/Bar")) 6)
    = data (source_of "  /Foo/Bar").
Proof.
  apply (token_text_is_input_slice (source_of "  /Foo/Bar")).
  - vm_compute. reflexivity.
  - discriminate.
Defined.

(** X7: The text of a token has the shape of its kind: the one- and
    two-character tokens are their characters; a NAME is a slash and then
    no delimiter; a COMMENT starts with a percent sign and has no line
    end; a HEX_STRING starts with a less-than sign; a STRING starts with
    an opening and ends with a closing parenthesis; a NUMBER has only
    characters of [-+.0123456789] and an OTHER no delimiter.  No token is
    a REF, OBJ, END_OBJ or END_OF_FILE. *)
Theorem token_has_the_shape_of_its_kind (s s' : io_source) (tok : Token) :
  next_token s = Some (Return (Some tok), s') ->
  shape (token_type tok) (text tok) = true.
Proof.
  intros H. destruct (next_token_scanned _ _ _ H)
    as [(_ & Hr & _)|(Hlt & p & Hle & Hws & [(_ & Hr & _)|(b & _ & _ & Hsc)])].
  - discriminate.
  - injection Hr as ->. reflexivity.
  - destruct Hsc as (_ & _ & _ & _ & _ & Hshape & _). exact Hshape.
Qed.

Lemma token_has_the_shape_of_its_kind_witness :
  shape (token_type (mkToken 0 STRING "(a\)b)")) (text (mkToken 0 STRING "(a\)b)"))
  = true.
Proof.
  apply (token_has_the_shape_of_its_kind (source_of "(a\)b)")
           (mkIO (data (source_of "(a\)b)")) 6)).
  vm_compute. reflexivity.
Defined.

(** X8: A token is as long as it can be: the byte after a NAME or an OTHER
    token, if there is one, is a delimiter; the byte after a NUMBER token
    is no character of [-+.0123456789]; the byte after a COMMENT token
    is a carriage return or a line feed. *)
Theorem token_is_maximal (s s' : io_source) (tok : Token) :
  next_token s = Some (Return (Some tok), s') ->
  stops (token_type tok) (nth_error (data s) (pos s')) = true.
Proof.
  intros H. destruct (next_token_scanned _ _ _ H)
    as [(_ & Hr & _)|(Hlt & p & Hle & Hws & [(Hp & Hr & Hs')|(b & _ & _ & Hsc)])].
  - discriminate.
  - injection Hr as ->. subst s' p. cbn [pos token_type].
    assert (E : nth_error (data s) (List.length (data s)) = None)
      by (apply nth_error_None; lia).
    rewrite E. reflexivity.
  - destruct Hsc as (_ & _ & _ & _ & _ & _ & Hstops). exact Hstops.
Qed.

(** The number 12 before a space. *)
Lemma token_is_maximal_witness :
  stops (token_type (mkToken 0 NUMBER "12"))
    (nth_error (data (source_of "12 0 R"))
       (pos (mkIO (data (source_of "12 0 R")) 2))) = true.
Proof.
  apply (token_is_maximal (source_of "12 0 R")).
  vm_compute. reflexivity.
Defined.

(** X9: [next_token] raises two exceptions only: the end-of-file error of a
    string that is not closed, without byte offset, and the syntax error
    of a [>] that no second [>] follows, with the position of the cursor
    as byte offset. *)
Theorem raised_exceptions (s s' : io_source) (e : PDFException) :
  next_token s = Some (Raise e, s') ->
  e = PDFEOFError None \/
  exists ch, e = PDFSyntaxError
                   ("invalid character, expected >, received " ++ ch)
                   (Some (tell s')).
Proof.
  intros H. destruct (next_token_scanned _ _ _ H)
    as [(_ & Hr & _)|(Hlt & p & Hle & Hws & [(_ & Hr & _)|(b & _ & _ & Hsc)])].
  - discriminate.
  - discriminate.
  - destruct Hsc as (_ & _ & _ & Hr). exact Hr.
Qed.

Lemma raised_exceptions_witness :
  PDFSyntaxError "invalid character, expected >, received x" (Some 2%Z)
  = PDFEOFError None \/
  exists ch, PDFSyntaxError "invalid character, expected >, received x" (Some 2%Z)
             = PDFSyntaxError
                 ("invalid character, expected >, received " ++ ch)
                 (Some (tell (mkIO (data (source_of ">x")) 2))).
Proof.
  apply (raised_exceptions (source_of ">x")).
  vm_compute. reflexivity.
Defined.

(** X10: Lookahead and rewind: after a token with text, seeking back to its
    byte offset and calling [next_token] again gives the same token and
    the same source. *)
Theorem rewind_gives_the_same_token (s s' : io_source) (tok : Token) :
  next_token s = Some (Return (Some tok), s') ->
  text tok <> EmptyString ->
  exists s0, seek (byte_offset tok) 0 s' = Some (byte_offset tok, s0) /\
             next_token s0 = Some (Return (Some tok), s').
Proof.
  intros H Hne. destruct (next_token_scanned _ _ _ H)
    as [(_ & Hr & _)|(Hlt & p & Hle & Hws & [(_ & Hr & _)|(b & Hb & Hnw & Hsc)])].
  - discriminate.
  - injection Hr as ->. contradiction.
  - destruct Hsc as (Hd & _ & _ & Hoff & _).
    exists (mkIO (data s) p). split.
    + unfold seek. rewrite Hoff. cbn [Z.eqb].
      destruct (Z.ltb_spec (Z.of_nat p) 0) as [|_]; [lia|].
      rewrite Nat2Z.id, Hd. reflexivity.
    + rewrite <- H. symmetry.
      apply (next_token_skips_whitespace s p b Hle Hws Hb Hnw).
Qed.

Lemma rewind_gives_the_same_token_witness :
  exists s0,
    seek (byte_offset (mkToken 2 NAME "/Foo")) 0
      (mkIO (data (source_of "  /Foo/Bar")) 6)
    = Some (byte_offset (mkToken 2 NAME "/Foo"), s0) /\
    next_token s0
    = Some (Return (Some (mkToken 2 NAME "/Foo")),
            mkIO (data (source_of "  /Foo/Bar")) 6).
Proof.
  apply (rewind_gives_the_same_token (source_of "  /Foo/Bar")).
  - vm_compute. reflexivity.
  - discriminate.
Defined.

(** *** [next_non_comment_token] *)

Lemma comment_makes_progress (s s' : io_source) (t : option Token) :
  next_token s = Some (Return t, s') -> is_comment t = true ->
  data s' = data s /\ (pos s < pos s')%nat /\
  (pos s < List.length (data s))%nat.
Proof.
  intros H Hc. destruct (next_token_scanned _ _ _ H)
    as [(_ & Hr & _)|(Hlt & p & Hle & Hws & [(_ & Hr & _)|(b & _ & _ & Hsc)])].
  - injection Hr as ->. discriminate.
  - injection Hr as ->. discriminate.
  - destruct t as [tok|]; [|discriminate].
    destruct Hsc as (Hd & Hp & _ & _ & Htxt & Hshape & _).
    split; [exact Hd|]. split; [|exact Hlt].
    destruct (Nat.eq_dec (pos s') p) as [E|]; [|lia].
    rewrite E, slice_empty in Htxt. rewrite Htxt in Hshape.
    unfold is_comment in Hc. destruct (token_type tok); discriminate.
Qed.

Lemma skip_comments_total (fuel : nat) : forall t s,
  ((if is_comment t then S (remaining s) else 0) < fuel)%nat ->
  exists r s', skip_comments fuel t s = Some (r, s') /\
    match r with Return t' => is_comment t' = false | Raise _ => True end.
Proof.
  induction fuel as [|f IH]; intros t s Hf; [lia|].
  cbn [skip_comments]. destruct (is_comment t) eqn:Hc;
    [|exists (Return t), s; split; [reflexivity|exact Hc]].
  destruct (next_token_total s) as (r & s' & E). rewrite E.
  destruct r as [t'|e];
    [|exists (Raise e), s'; split; [reflexivity|exact I]].
  apply IH. destruct (is_comment t') eqn:Hc'; [|lia].
  destruct (comment_makes_progress _ _ _ E Hc') as (Hd & Hp & Hlt).
  unfold remaining in *. rewrite Hd. lia.
Qed.

(** X11: [next_non_comment_token] always comes to an end, and what it returns
    is never a COMMENT token. *)
Theorem next_non_comment_token_skips_comments (s : io_source) :
  exists r s', next_non_comment_token s = Some (r, s') /\
    match r with Return t => is_comment t = false | Raise _ => True end.
Proof.
  unfold next_non_comment_token.
  destruct (next_token_total s) as (r & s' & E). rewrite E.
  destruct r as [t|e];
    [|exists (Raise e), s'; split; [reflexivity|exact I]].
  apply skip_comments_total.
  destruct (is_comment t) eqn:Hc; [|lia].
  destruct (comment_makes_progress _ _ _ E Hc) as (Hd & Hp & Hlt).
  unfold remaining. rewrite Hd. lia.
Qed.

End Tokenizer_scan.

(* ------------------------------------------------------------------ *)
(** ** Glyph lines                                                      *)
(* ------------------------------------------------------------------ *)

Module GlyphLine_facts.
Import GlyphLine GlyphLine_defs.
Local Open Scope Z_scope.

Lemma latin1_font_single_byte : single_byte_font latin1_font.
Proof.
  split; intros c Hc; cbn.
  - destruct (Z.leb_spec 0 c), (Z.leb_spec c 255); try lia. cbn. eauto.
  - destruct (Z.leb_spec 0 c), (Z.leb_spec c 255); try lia; reflexivity.
Qed.

Lemma code_range (b : byte) : 0 <= code b <= 255.
Proof. unfold code. pose proof (Byte.to_N_bounded b). lia. Qed.

Lemma single_byte_glyph_mapped (font : Font.t) (b : byte) :
  single_byte_font font ->
  exists u, single_byte_glyph font b = Glyph.mk (code b) [u] (Dec 500) /\
            Font.character_identifier_to_unicode font (code b) = Some [u].
Proof.
  intros [Hin _]. destruct (Hin _ (code_range b)) as [[u Hu] Hw].
  exists u. unfold single_byte_glyph. rewrite Hu, Hw. split; reflexivity.
Qed.

(** One turn of the loop with two bytes or more to read. *)
Lemma glyphs_of_bytes_cons2 (font : Font.t) (b0 b1 : byte) (rest' : list byte) :
  glyphs_of_bytes font (b0 :: b1 :: rest') =
  match Font.character_identifier_to_unicode font (code b0 * 256 + code b1) with
  | Some unicode_chars =>
      Glyph.mk (code b0 * 256 + code b1) unicode_chars
        (width_or_zero (Font.get_width font (code b0 * 256 + code b1)))
      :: glyphs_of_bytes font rest'
  | None => single_byte_glyph font b0 :: glyphs_of_bytes font (b1 :: rest')
  end.
Proof. reflexivity. Qed.

(** With every leading byte non-zero, no two-byte code is mapped and the
    loop emits the single-byte glyph of each byte. *)
Lemma glyphs_of_bytes_single (font : Font.t) (text_bytes : list byte) :
  single_byte_font font ->
  zero_only_last text_bytes = true ->
  glyphs_of_bytes font text_bytes = map (single_byte_glyph font) text_bytes.
Proof.
  intros Hf. induction text_bytes as [|b0 rest IH]; [reflexivity|].
  intros Hz. cbn [zero_only_last] in Hz.
  destruct rest as [|b1 rest'].
  - reflexivity.
  - apply andb_prop in Hz as [Hb0 Hrest].
    apply negb_true_iff, Z.eqb_neq in Hb0.
    rewrite glyphs_of_bytes_cons2.
    destruct Hf as [_ Hout].
    rewrite Hout.
    + rewrite (IH Hrest). reflexivity.
    + pose proof (code_range b0). pose proof (code_range b1). lia.
Qed.

Lemma glyphs_of_bytes_length_le (font : Font.t) (n : nat) :
  forall text_bytes, (List.length text_bytes <= n)%nat ->
    (List.length (glyphs_of_bytes font text_bytes) <= List.length text_bytes)%nat.
Proof.
  induction n as [|n IH]; intros [|b0 [|b1 rest']] Hn;
    cbn [List.length] in Hn; try (cbn; lia).
  rewrite glyphs_of_bytes_cons2.
  assert (H1 : (List.length rest' <= n)%nat) by lia.
  assert (H2 : (List.length (b1 :: rest') <= n)%nat) by (cbn [List.length]; lia).
  apply IH in H1. apply IH in H2.
  destruct (Font.character_identifier_to_unicode font _);
    cbn [List.length] in *; lia.
Qed.

(** And a zero byte before another byte costs a glyph. *)
Lemma glyphs_of_bytes_short (font : Font.t) (text_bytes : list byte) :
  single_byte_font font ->
  zero_only_last text_bytes = false ->
  (List.length (glyphs_of_bytes font text_bytes) < List.length text_bytes)%nat.
Proof.
  intros Hf. induction text_bytes as [|b0 rest IH]; [discriminate|].
  intros Hz. cbn [zero_only_last] in Hz.
  destruct rest as [|b1 rest']; [discriminate|].
  rewrite glyphs_of_bytes_cons2.
  pose proof (glyphs_of_bytes_length_le font _ rest' (Nat.le_refl _)) as Hle.
  destruct (Z.eqb_spec (code b0) 0) as [E0|E0].
  - destruct Hf as [Hin _].
    destruct (Hin (code b0 * 256 + code b1)) as [[u ->] _].
    { pose proof (code_range b1). lia. }
    cbn [List.length]. lia.
  - cbn [negb andb] in Hz. specialize (IH Hz).
    destruct (Font.character_identifier_to_unicode font _);
      cbn [List.length] in *; lia.
Qed.

(** C3, as the code has it: for a font that maps exactly the single-byte
    codes, each to one character of width 500, and for bytes among which
    no zero byte is followed by another byte, the constructor makes one
    glyph per byte, in byte order, and [get_text] is the text of the
    bytes. *)
Theorem one_glyph_per_byte (font : Font.t) (text_bytes : list byte)
  (font_size character_spacing word_spacing horizontal_scaling : Decimal.t) :
  single_byte_font font ->
  zero_only_last text_bytes = true ->
  let line := init text_bytes font font_size character_spacing word_spacing
                horizontal_scaling in
  List.length (_glyphs line) = List.length text_bytes /\
  map Glyph.character_code (_glyphs line) = map code text_bytes /\
  Forall (fun g => Glyph.width g = Dec 500 /\
                   List.length (Glyph.unicode_str g) = 1%nat) (_glyphs line) /\
  get_text line = decode font text_bytes.
Proof.
  intros Hf Hz line. subst line. unfold init, get_text, decode. cbn [_glyphs].
  rewrite (glyphs_of_bytes_single font text_bytes Hf Hz).
  clear Hz. repeat split.
  - apply length_map.
  - rewrite map_map. apply map_ext. intros b.
    destruct (single_byte_glyph_mapped font b Hf) as (u & -> & _). reflexivity.
  - apply Forall_forall. intros g [b [<- _]]%in_map_iff.
    destruct (single_byte_glyph_mapped font b Hf) as (u & -> & _).
    split; reflexivity.
  - rewrite map_map. f_equal. apply map_ext. intros b.
    destruct (single_byte_glyph_mapped font b Hf) as (u & -> & ->). reflexivity.
Qed.

(** The two bytes of "AB" under the font of the examples. *)
Lemma one_glyph_per_byte_witness :
  let line := init ["A"%byte; "B"%byte] latin1_font (Dec 12) (Dec 0) (Dec 0)
                (Dec 100) in
  List.length (_glyphs line) = 2%nat /\
  map Glyph.character_code (_glyphs line) = [65; 66] /\
  Forall (fun g => Glyph.width g = Dec 500 /\
                   List.length (Glyph.unicode_str g) = 1%nat) (_glyphs line) /\
  get_text line = [65; 66].
Proof.
  apply (one_glyph_per_byte latin1_font ["A"%byte; "B"%byte]).
  - exact latin1_font_single_byte.
  - reflexivity.
Defined.

(** C3 fails as stated: the two bytes 00 41 make the two-byte code 65,
    which the font maps, so the line holds one glyph for two bytes and
    its text is "A" without the character of the zero byte. *)
Lemma zero_byte_merges_two_bytes :
  single_byte_font latin1_font /\
  let line := init [x00; x41] latin1_font (Dec 12) (Dec 0) (Dec 0) (Dec 100) in
  _glyphs line = [Glyph.mk 65 [65] (Dec 500)] /\
  List.length (_glyphs line) <> List.length [x00; x41] /\
  get_text line <> decode latin1_font [x00; x41].
Proof.
  split; [exact latin1_font_single_byte|].
  cbv zeta. repeat split; vm_compute; congruence.
Qed.

(** C8: a line of one glyph of width 1000, at font size 12 with spacings
    0 and scaling 100, has width 12.00000000000000024980018054 and not
    12: the factor [Decimal(0.001)] is the double next to 0.001. *)
Theorem one_em_glyph_width_is_not_12 (c : Z) (u : ustr) (font : Font.t) :
  let line := mk [Glyph.mk c u (Dec 1000)] font (Dec 12) (Dec 0) (Dec 0)
                (Dec 100) in
  get_width_in_text_space line = Decimal.mk 1200000000000000024980018054 (-26)
  /\ Decimal.eqb (get_width_in_text_space line) (Dec 12) = false
  /\ Decimal.ltb (Dec 12) (get_width_in_text_space line) = true.
Proof.
  cbv zeta.
  unfold get_width_in_text_space, glyph_width_in_text_space.
  cbn [_glyphs _font_size _word_spacing _horizontal_scaling _character_spacing
       fold_left Glyph.width Glyph.unicode_str].
  destruct (is_single_space u); repeat split; vm_compute; reflexivity.
Qed.

End GlyphLine_facts.

(* ------------------------------------------------------------------ *)
(** ** [GlyphLine.split] in the store                                   *)
(* ------------------------------------------------------------------ *)

Module Heap_facts.
Import Heap Heap_defs.

Lemma fresh_loc_unused (h : heap) : h !! fresh (dom h) = None.
Proof. apply not_elem_of_dom. apply is_fresh. Qed.

(** One turn of the loop: a new singleton line at an unused location. *)
Lemma split_step (h : heap) (o : GlyphLine.t) (g : Glyph.t) :
  let '(l, h1) := new_GlyphLine [] (GlyphLine._font o) (GlyphLine._font_size o)
                    (GlyphLine._character_spacing o)
                    (GlyphLine._word_spacing o)
                    (GlyphLine._horizontal_scaling o) h in
  set_glyphs l [g] h1 = Some (<[fresh (dom h) := singleton_of o g]> h) /\
  l = fresh (dom h).
Proof.
  unfold new_GlyphLine, set_glyphs.
  rewrite lookup_insert_eq. cbn [mbind option_bind].
  rewrite insert_insert_eq. split; reflexivity.
Qed.

Lemma preserved_insert_fresh (h0 h : heap) (x : GlyphLine.t) :
  preserved h0 h -> preserved h0 (<[fresh (dom h) := x]> h).
Proof.
  intros Hpres l y Hl. rewrite lookup_insert_ne; [apply Hpres, Hl|].
  intros <-. apply Hpres in Hl. rewrite fresh_loc_unused in Hl. discriminate.
Qed.

Lemma split_loop_spec (h0 : heap) (self : loc) (o : GlyphLine.t) (fuel : nat) :
  forall i out h,
    (List.length (GlyphLine._glyphs o) - i < fuel)%nat ->
    h0 !! self = Some o ->
    preserved h0 h ->
    Forall2 (fun l g => h0 !! l = None /\ h !! l = Some (singleton_of o g))
      out (take i (GlyphLine._glyphs o)) ->
    exists out' h',
      split_loop fuel self i out h = Some (out', h') /\
      preserved h0 h' /\
      Forall2 (fun l g => h0 !! l = None /\ h' !! l = Some (singleton_of o g))
        out' (GlyphLine._glyphs o).
Proof.
  induction fuel as [|f IH]; intros i out h Hf Hself Hpres Hout; [lia|].
  cbn [split_loop]. rewrite (Hpres _ _ Hself). cbn [mbind option_bind].
  destruct (GlyphLine._glyphs o !! i) as [g|] eqn:Hg.
  - pose proof (split_step h o g) as Hstep.
    destruct (new_GlyphLine _ _ _ _ _ _ h) as [l h1].
    destruct Hstep as [-> ->].
    cbn [mbind option_bind].
    apply IH.
    + apply lookup_lt_Some in Hg. lia.
    + exact Hself.
    + apply preserved_insert_fresh, Hpres.
    + rewrite (take_S_r _ _ _ Hg). apply Forall2_app.
      * eapply List.Forall2_impl; [|exact Hout].
        intros l g' [Hn Hs]. split; [exact Hn|].
        rewrite lookup_insert_ne; [exact Hs|].
        intros <-. rewrite fresh_loc_unused in Hs. discriminate.
      * constructor; [|constructor]. split; [|apply lookup_insert_eq].
        destruct (h0 !! fresh (dom h)) as [x|] eqn:E; [|reflexivity].
        apply Hpres in E. rewrite fresh_loc_unused in E. discriminate.
  - apply lookup_ge_None in Hg. rewrite take_ge in Hout by lia.
    eauto.
Qed.

(** C10: [split] leaves every object of the store as it was, the
    receiver with its glyphs, font and scalars among them; it returns one
    new line per glyph of the receiver, in order, each holding that one
    glyph with the receiver's font and scalars, so that the glyphs of the
    returned lines, concatenated, are the glyphs of the receiver. *)
Theorem split_frame (h : heap) (self : loc) (o : GlyphLine.t) :
  h !! self = Some o ->
  exists out h',
    split self h = Some (out, h') /\
    preserved h h' /\
    h' !! self = Some o /\
    Forall2 (fun l g => h !! l = None /\ h' !! l = Some (singleton_of o g))
      out (GlyphLine._glyphs o) /\
    List.concat (map (glyphs_at h') out) = GlyphLine._glyphs o.
Proof.
  intros Hself. unfold split. rewrite Hself. cbn [mbind option_bind].
  assert (Hfuel : (List.length (GlyphLine._glyphs o) - 0
                   < S (List.length (GlyphLine._glyphs o)))%nat) by lia.
  assert (Hrefl : preserved h h) by (intros l x Hx; exact Hx).
  destruct (split_loop_spec h self o _ 0 [] h Hfuel Hself Hrefl
              (Forall2_nil _)) as (out & h' & Hrun & Hpres & Hout).
  exists out, h'.
  split; [exact Hrun|]. split; [exact Hpres|].
  split; [exact (Hpres _ _ Hself)|]. split; [exact Hout|].
  clear Hrun Hfuel. induction Hout as [|l g out gs [_ Hl] _ IH]; [reflexivity|].
  cbn [map List.concat]. rewrite IH. unfold glyphs_at. rewrite Hl.
  reflexivity.
Qed.

(** The split of a line of two glyphs, alone in its store. *)
Lemma split_frame_witness :
  exists out h',
    split 0%nat {[ 0%nat := two_glyph_line ]} = Some (out, h') /\
    preserved {[ 0%nat := two_glyph_line ]} h' /\
    h' !! 0%nat = Some two_glyph_line /\
    Forall2 (fun l g => ({[ 0%nat := two_glyph_line ]} : heap) !! l = None /\
                        h' !! l = Some (singleton_of two_glyph_line g))
      out (GlyphLine._glyphs two_glyph_line) /\
    List.concat (map (glyphs_at h') out) = GlyphLine._glyphs two_glyph_line.
Proof.
  apply (split_frame {[ 0%nat := two_glyph_line ]} 0%nat two_glyph_line).
  reflexivity.
Defined.

End Heap_facts.

(* ------------------------------------------------------------------ *)
(** ** Text-render events                                               *)
(* ------------------------------------------------------------------ *)

Module TextRenderEvent_facts.
Import TextRenderEvent Event_defs.
Local Open Scope Z_scope.

Lemma is_single_space_eqb (u : ustr) :
  other_whitespace u = false ->
  GlyphLine.is_single_space u = UStr.eqb u UStr.SPACE.
Proof.
  unfold other_whitespace, GlyphLine.is_single_space, GlyphLine._isspace,
    UStr.eqb, UStr.SPACE.
  destruct u as [|n [|m u]]; [reflexivity| |].
  - cbn [existsb List.length]. intros H.
    destruct (list_eq_dec Z.eq_dec [n] [32]) as [[= ->]|Hne]; [reflexivity|].
    assert (n <> 32) by congruence.
    change (Z.of_nat 1 =? 1) with true. cbn [andb].
    repeat (apply orb_false_elim in H as [? H]). lia.
  - intros _. rewrite andb_false_r.
    destruct (list_eq_dec Z.eq_dec (n :: m :: u) [32]); [discriminate|reflexivity].
Qed.

Lemma fold_left_ext_Forall {A B : Type} (f g : A -> B -> A) (l : list B) :
  forall a, Forall (fun x => forall a, f a x = g a x) l ->
            fold_left f l a = fold_left g l a.
Proof.
  induction l as [|x l IH]; intros a Hl; [reflexivity|].
  inversion Hl as [|? ? Hx Hl']; subst. cbn [fold_left].
  rewrite Hx. apply IH, Hl'.
Qed.

Section Facts.
Context {Matrix Color : Type}.
Implicit Types a b e : TextRenderEvent.t Matrix Color.

(** C5, as the code has it: on a glyph line none of whose glyphs is a
    tab, line feed, vertical tab, form feed or carriage return, the
    string-level width and the width of the glyph line are the same
    number; the string-level formula adds the word spacing for the
    glyphs whose text is the space, and for no other. *)
Theorem string_width_agrees e (gs : CanvasGraphicsState.t)
  (line : GlyphLine.t) :
  glyph_line e = GlyphLine._glyphs line ->
  same_scalars gs line ->
  Forall (fun g => other_whitespace (Glyph.unicode_str g) = false)
    (glyph_line e) ->
  _get_pdf_string_width_in_text_space e gs
  = GlyphLine.get_width_in_text_space line.
Proof.
  intros Hg (Hfs & Hcs & Hws & Hhs) Hsp.
  unfold _get_pdf_string_width_in_text_space, GlyphLine.get_width_in_text_space.
  rewrite <- Hg, Hcs. f_equal.
  apply fold_left_ext_Forall.
  eapply Forall_impl; [|exact Hsp].
  intros g Hgsp acc. cbv beta in Hgsp.
  unfold character_width, GlyphLine.glyph_width_in_text_space.
  rewrite Hfs, Hcs, Hws, Hhs, (is_single_space_eqb _ Hgsp). reflexivity.
Qed.

(** C9: [cmp(a, b)] is [-cmp(b, a)], the one raising when the other
    does, and [cmp(a, a)] is zero unless [%] raises. *)
Theorem cmp_antisymmetric a b :
  cmp a b = Decimal.neg <$> cmp b a /\
  match cmp a a with
  | Some r => Decimal.eq r (Dec 0)
  | None => Decimal.rem (LineSegment.y0 (get_baseline a)) (Dec 5) = None
  end.
Proof.
  unfold cmp. split.
  - destruct (Decimal.rem (LineSegment.y0 (get_baseline a)) (Dec 5)) as [r0|];
      destruct (Decimal.rem (LineSegment.y0 (get_baseline b)) (Dec 5)) as [r1|];
      cbn [mbind option_bind fmap option_fmap option_map]; try reflexivity.
    rewrite Decimal_facts.eqb_sym.
    destruct (Decimal.eqb _ _);
      cbn [fmap option_fmap option_map]; f_equal.
    + symmetry. apply Decimal_facts.neg_sub.
    + f_equal. symmetry. apply Decimal_facts.neg_sub.
  - destruct (Decimal.rem (LineSegment.y0 (get_baseline a)) (Dec 5)) as [r0|];
      cbn [mbind option_bind]; [|reflexivity].
    rewrite Decimal_facts.eqb_refl, Decimal_facts.sub_self.
    apply Decimal_facts.zero_eq.
Qed.


(** The sign of [cmp(a, b)]: events are ordered by descending band of
    [y], and within a band by ascending [x]. *)
Lemma cmp_sign a b (r0 r1 : Decimal.t) :
  Decimal.rem (LineSegment.y0 (get_baseline a)) (Dec 5) = Some r0 ->
  Decimal.rem (LineSegment.y0 (get_baseline b)) (Dec 5) = Some r1 ->
  let y0_round := (LineSegment.y0 (get_baseline a) - r0)%dec in
  let y1_round := (LineSegment.y0 (get_baseline b) - r1)%dec in
  exists r, cmp a b = Some r /\
    Z.sgn (Decimal.coef r)
    = if (y0_round =? y1_round)%dec
      then Decimal_defs.order (LineSegment.x0 (get_baseline a))
                              (LineSegment.x0 (get_baseline b))
      else Decimal_defs.order y1_round y0_round.
Proof.
  intros H0 H1. cbv zeta. unfold cmp. rewrite H0, H1.
  cbn [mbind option_bind].
  destruct (Decimal.eqb _ _); eexists; (split; [reflexivity|]).
  - apply Decimal_facts.sub_sgn.
  - rewrite Decimal_facts.neg_sgn, Decimal_facts.sub_sgn.
    symmetry. apply Decimal_facts.order_swap.
Qed.

(** *** [split_on_glyphs] *)

(** No glyph is the string [" "]: the advance never has the word
    spacing in it. *)
Lemma glyph_advance_without_word_spacing (gs : CanvasGraphicsState.t)
  (g : Glyph.t) (ws : Decimal.t) :
  glyph_advance
    (CanvasGraphicsState.mk (CanvasGraphicsState.font_size gs)
       (CanvasGraphicsState.character_spacing gs) ws
       (CanvasGraphicsState.horizontal_scaling gs)
       (CanvasGraphicsState.text_rise gs)) g
  = glyph_advance gs g.
Proof.
  unfold glyph_advance, glyph_eq_str.
  cbn [CanvasGraphicsState.font_size CanvasGraphicsState.character_spacing
       CanvasGraphicsState.horizontal_scaling]. cbv iota.
  reflexivity.
Qed.

(** The baselines of the events are the text-space segments, each
    transformed by the matrix of the event that is split. *)
Lemma split_loop_baselines
  (transform_by : LineSegment.t -> Matrix -> LineSegment.t) e
  (glyphs : list Glyph.t) (prev_x : Decimal.t) :
  map baseline (split_loop transform_by e glyphs prev_x)
  = map (fun seg => transform_by seg (text_to_user_space_transform_matrix e))
      (text_space_segments (graphics_state e) glyphs prev_x).
Proof.
  revert prev_x. induction glyphs as [|g glyphs IH]; intros prev_x;
    [reflexivity|].
  cbn [split_loop text_space_segments map]. rewrite IH. reflexivity.
Qed.

Lemma text_space_segments_chained (gs : CanvasGraphicsState.t)
  (glyphs : list Glyph.t) (prev_x : Decimal.t) :
  chained prev_x (text_space_segments gs glyphs prev_x) /\
  Forall (fun seg => LineSegment.y0 seg = CanvasGraphicsState.text_rise gs /\
                     LineSegment.y1 seg = CanvasGraphicsState.text_rise gs)
    (text_space_segments gs glyphs prev_x).
Proof.
  revert prev_x. induction glyphs as [|g glyphs IH]; intros prev_x.
  - split; constructor.
  - cbn [text_space_segments chained]. destruct (IH (prev_x + glyph_advance gs g)%dec).
    repeat split; auto.
Qed.

End Facts.


(** A line of one space glyph: both formulas add the word spacing. *)
Lemma string_width_agrees_witness :
  _get_pdf_string_width_in_text_space
    (plain_event spaced_state [Glyph.mk 32 [32] (Dec 250)] (Dec 3) origin_segment)
    spaced_state
  = GlyphLine.get_width_in_text_space
      (GlyphLine.mk [Glyph.mk 32 [32] (Dec 250)] GlyphLine_defs.latin1_font
         (Dec 12) (Dec 0) (Dec 5) (Dec 100)).
Proof.
  apply string_width_agrees.
  - reflexivity.
  - repeat split.
  - repeat constructor.
Defined.

(** C5 fails as stated: for a glyph whose text is a tab the glyph line
    adds the word spacing (the width is 11.00000000000000012490009027)
    and the string-level formula does not
    (6.000000000000000124900090270). *)
Lemma string_width_differs_on_tab :
  let tab := Glyph.mk 9 [9] (Dec 500) in
  let line := GlyphLine.mk [tab] GlyphLine_defs.latin1_font
                (Dec 12) (Dec 0) (Dec 5) (Dec 100) in
  let e := plain_event spaced_state [tab] (Dec 3) origin_segment in
  same_scalars spaced_state line /\
  glyph_line e = GlyphLine._glyphs line /\
  GlyphLine.get_width_in_text_space line
    = Decimal.mk 1100000000000000012490009027 (-26) /\
  _get_pdf_string_width_in_text_space e spaced_state
    = Decimal.mk 6000000000000000124900090270 (-27) /\
  Decimal.eqb (_get_pdf_string_width_in_text_space e spaced_state)
    (GlyphLine.get_width_in_text_space line) = false.
Proof. cbv zeta. repeat split; vm_compute; reflexivity. Qed.

(** C6: for an event of one space glyph of width 250, at font size 12
    with word spacing 5, [split_on_glyphs] makes the segment from 0 to
    3.000000000000000062450045135: the word spacing is not in it. *)
Theorem split_on_glyphs_drops_word_spacing :
  map baseline
    (split_on_glyphs no_transform
       (plain_event spaced_state [Glyph.mk 32 [32] (Dec 250)] (Dec 3)
          origin_segment))
  = [LineSegment.mk (Dec 0) (Dec 0)
       (Decimal.mk 3000000000000000062450045135 (-27)) (Dec 0)].
Proof. vm_compute. reflexivity. Qed.

End TextRenderEvent_facts.

(* ------------------------------------------------------------------ *)
(** ** Line-render events                                               *)
(* ------------------------------------------------------------------ *)

Module LineRenderEvent_facts.
Import LineRenderEvent Event_defs.
Local Open Scope Z_scope.

Lemma startswith_no_space (s : ustr) :
  ~ In 32 s -> UStr.startswith_space s = false.
Proof.
  destruct s as [|c s]; [reflexivity|]. cbn [UStr.startswith_space In].
  intros H. apply Z.eqb_neq. intros ->. apply H. left. reflexivity.
Qed.

Lemma endswith_no_space (s : ustr) :
  ~ In 32 s -> UStr.endswith_space s = false.
Proof.
  unfold UStr.endswith_space. intros H.
  destruct (rev s) as [|c r] eqn:E; [reflexivity|].
  apply Z.eqb_neq. intros ->. apply H, in_rev. rewrite E. left. reflexivity.
Qed.

Section Facts.
Context {Matrix Color : Type}.
Implicit Types e : TextRenderEvent.t Matrix Color.

Lemma inferred_space_rounded e (right w : Decimal.t) :
  Decimal.round (TextRenderEvent.get_space_character_width_in_text_space e) 1
    = Some w ->
  inferred_space right e
  = Some (if (w * Decimal.d0_90
              <? Decimal.abs
                   (right - LineSegment.x0 (TextRenderEvent.get_baseline e)))%dec
          then UStr.SPACE else []).
Proof. intros H. unfold inferred_space. rewrite H. reflexivity. Qed.

(** C4, as the code has it: for two events without a space in their
    texts, and no space inferred before the first, [get_text] puts one
    space between the two texts if 90% of the second event's space
    width, rounded to one decimal, is less than the distance from the
    first event's right edge to the second event's baseline start, and
    puts nothing between them otherwise. *)
Theorem two_events_text e1 e2 (w1 w2 : Decimal.t) :
  ~ In 32 (TextRenderEvent.get_text e1) ->
  ~ In 32 (TextRenderEvent.get_text e2) ->
  Decimal.round (TextRenderEvent.get_space_character_width_in_text_space e1) 1
    = Some w1 ->
  Decimal.round (TextRenderEvent.get_space_character_width_in_text_space e2) 1
    = Some w2 ->
  (w1 * Decimal.d0_90
   <? Decimal.abs (left_end e1
                   - LineSegment.x0 (TextRenderEvent.get_baseline e1)))%dec
    = false ->
  get_text [e1; e2]
  = Some (TextRenderEvent.get_text e1
          ++ (if (w2 * Decimal.d0_90
                  <? Decimal.abs
                       (right_end e1
                        - LineSegment.x0 (TextRenderEvent.get_baseline e2)))%dec
              then UStr.SPACE else [])
          ++ TextRenderEvent.get_text e2).
Proof.
  intros H1 H2 Hw1 Hw2 Hlead.
  unfold get_text. cbn [get_text_loop].
  rewrite (startswith_no_space _ H1). change (UStr.endswith_space []) with false.
  cbn [orb].
  rewrite (inferred_space_rounded e1 _ w1 Hw1), Hlead.
  cbn [mbind option_bind app].
  rewrite (startswith_no_space _ H2), (endswith_no_space _ H1). cbn [orb].
  rewrite (inferred_space_rounded e2 _ w2 Hw2).
  cbn [mbind option_bind].
  rewrite <- app_assoc. reflexivity.
Qed.

Lemma min3_of_min2 (x0 x1 : Decimal.t) :
  Decimal.min3 (Decimal.min2 x0 x1) x0 x1 = Decimal.min2 x0 x1.
Proof.
  unfold Decimal.min3, Decimal.min2.
  destruct (Decimal.ltb x1 x0) eqn:E.
  - rewrite (Decimal_facts.ltb_asym _ _ E), Decimal_facts.ltb_irrefl.
    reflexivity.
  - rewrite Decimal_facts.ltb_irrefl, E. reflexivity.
Qed.

Lemma max3_of_min2 (x0 x1 : Decimal.t) :
  Decimal.max3 (Decimal.min2 x0 x1) x0 x1 = Decimal.max2 x0 x1.
Proof.
  unfold Decimal.max3, Decimal.max2, Decimal.min2, Decimal.gtb.
  destruct (Decimal.ltb x1 x0) eqn:E.
  - rewrite E, (Decimal_facts.ltb_asym _ _ E). reflexivity.
  - rewrite Decimal_facts.ltb_irrefl. reflexivity.
Qed.

(** C7, as the code has it: the baseline of a line of one event runs
    from the smaller to the larger of the event's two x-endpoints, at the
    event's [y0]; its two ends are equal just when the event's two
    x-endpoints are. *)
Theorem single_event_baseline e :
  get_baseline [e]
  = Some (LineSegment.mk (left_end e)
            (LineSegment.y0 (TextRenderEvent.get_baseline e))
            (right_end e)
            (LineSegment.y0 (TextRenderEvent.get_baseline e)))
  /\ Decimal.eqb (left_end e) (right_end e)
     = Decimal.eqb (LineSegment.x0 (TextRenderEvent.get_baseline e))
                   (LineSegment.x1 (TextRenderEvent.get_baseline e)).
Proof.
  unfold get_baseline, left_end, right_end. cbn [get_baseline_loop].
  rewrite min3_of_min2, max3_of_min2. split; [reflexivity|].
  set (x0 := LineSegment.x0 _). set (x1 := LineSegment.x1 _).
  unfold Decimal.min2, Decimal.max2, Decimal.gtb.
  destruct (Decimal.ltb x1 x0) eqn:E10.
  - rewrite (Decimal_facts.ltb_asym _ _ E10).
    rewrite (Decimal_facts.ltb_not_eqb _ _ E10).
    symmetry. apply Decimal_facts.ltb_not_eqb_sym, E10.
  - destruct (Decimal.ltb x0 x1) eqn:E01; [reflexivity|].
    rewrite Decimal_facts.eqb_refl. symmetry.
    apply Decimal_facts.not_ltb_eqb; assumption.
Qed.

End Facts.

(** "A" from 0 to 10, then "B" from 22 (a gap of 12, 120% of the space
    width) to 32: one space between them. *)
Lemma two_events_text_witness :
  get_text [letter_event 65 (Dec 0) (Dec 10); letter_event 66 (Dec 22) (Dec 32)]
  = Some [65; 32; 66].
Proof.
  apply (two_events_text (letter_event 65 (Dec 0) (Dec 10))
           (letter_event 66 (Dec 22) (Dec 32))
           (Decimal.mk 100 (-1)) (Decimal.mk 100 (-1))).
  - vm_compute. intuition lia.
  - vm_compute. intuition lia.
  - reflexivity.
  - reflexivity.
  - reflexivity.
Defined.

(** C4 fails as stated: "A" from 0 to 10, then "B" starting at 19.5, a
    gap of 9.5, which is 95% of the space width 10; the threshold is
    10.0 * Decimal(0.90) = 9.000000000000000222044604925, less than the
    gap, and the text has the inferred space. *)
Lemma space_inferred_at_95_percent :
  let e1 := letter_event 65 (Dec 0) (Dec 10) in
  let e2 := letter_event 66 (Decimal.mk 195 (-1)) (Decimal.mk 295 (-1)) in
  let gap := (LineSegment.x0 (TextRenderEvent.get_baseline e2) - right_end e1)%dec in
  gap = Decimal.mk 95 (-1) /\
  Decimal.eqb (gap * Dec 100)%dec
    (TextRenderEvent.get_space_character_width_in_text_space e2 * Dec 95)%dec
    = true /\
  get_text [e1; e2] = Some [65; 32; 66] /\
  get_text [e1; e2]
    <> Some (TextRenderEvent.get_text e1 ++ TextRenderEvent.get_text e2).
Proof. cbv zeta. repeat split; vm_compute; congruence. Qed.

(** C7 fails as stated: the baseline of the line of one event from 0 to
    10 runs from 0 to 10; its right end is not the event's minimum. *)
Lemma single_event_baseline_not_collapsed :
  let e := letter_event 65 (Dec 0) (Dec 10) in
  get_baseline [e] = Some (LineSegment.mk (Dec 0) (Dec 0) (Dec 10) (Dec 0)) /\
  left_end e = Dec 0 /\
  get_baseline [e]
    <> Some (LineSegment.mk (left_end e) (Dec 0) (left_end e) (Dec 0)).
Proof. cbv zeta. repeat split; vm_compute; congruence. Qed.

End LineRenderEvent_facts.

(* ------------------------------------------------------------------ *)
(** ** Glyph lines, for any font *)
(* ------------------------------------------------------------------ *)

Module GlyphLine_more.
Import GlyphLine GlyphLine_defs GlyphLine_facts.
Local Open Scope Z_scope.

(** *** The constructor, for any font *)

Lemma glyphs_of_bytes_chunks (font : Font.t) (n : nat) :
  forall text_bytes, (List.length text_bytes <= n)%nat ->
    exists chunks,
      List.concat chunks = text_bytes /\
      Forall2 (chunk_glyph font) chunks (glyphs_of_bytes font text_bytes).
Proof.
  induction n as [|n IH]; intros [|b0 [|b1 rest']] Hn;
    cbn [List.length] in Hn; try lia.
  - exists []. split; constructor.
  - exists []. split; constructor.
  - exists [[b0]]. split; [reflexivity|]. repeat constructor.
  - rewrite glyphs_of_bytes_cons2.
    destruct (Font.character_identifier_to_unicode font (code b0 * 256 + code b1))
      as [u|] eqn:E.
    + destruct (IH rest') as (chunks & Hc & Hg); [lia|].
      exists ([b0; b1] :: chunks). split; [cbn; rewrite Hc; reflexivity|].
      constructor; [|exact Hg]. exists u. split; [exact E|reflexivity].
    + destruct (IH (b1 :: rest')) as (chunks & Hc & Hg); [cbn; lia|].
      exists ([b0] :: chunks). split; [cbn; rewrite Hc; reflexivity|].
      constructor; [reflexivity|exact Hg].
Qed.

Lemma chunks_length (font : Font.t) (chunks : list (list byte))
  (glyphs : list Glyph.t) :
  Forall2 (chunk_glyph font) chunks glyphs ->
  (List.length glyphs <= List.length (List.concat chunks)
   <= 2 * List.length glyphs)%nat.
Proof.
  induction 1 as [|chunk g chunks glyphs Hg _ IH]; [cbn; lia|].
  cbn [List.concat List.length]. rewrite length_app.
  destruct chunk as [|b0 [|b1 [|b2 chunk]]]; cbn [chunk_glyph] in Hg;
    try contradiction; cbn [List.length]; lia.
Qed.

(** X13: For every font, the constructor reads each byte once and in order:
    the bytes fall into chunks of two bytes whose big-endian code the
    font maps and of single bytes, one glyph per chunk; so a line has as
    many glyphs as bytes at most, and half as many at least. *)
Theorem glyphs_partition_the_bytes (text_bytes : list byte) (font : Font.t)
  (font_size character_spacing word_spacing horizontal_scaling : Decimal.t) :
  let line := init text_bytes font font_size character_spacing word_spacing
                horizontal_scaling in
  (exists chunks,
     List.concat chunks = text_bytes /\
     Forall2 (chunk_glyph font) chunks (_glyphs line)) /\
  len line <= Z.of_nat (List.length text_bytes) <= 2 * len line.
Proof.
  cbv zeta. unfold init, len. cbn [_glyphs].
  destruct (glyphs_of_bytes_chunks font _ text_bytes (Nat.le_refl _))
    as (chunks & Hc & Hg).
  split; [exists chunks; split; assumption|].
  pose proof (chunks_length _ _ _ Hg) as Hl. rewrite Hc in Hl. lia.
Qed.

(** X14: With a font that maps no code, every byte gives the replacement
    glyph: the code of the byte, the text U+FFFD and the width 250. *)
Theorem unmapped_bytes_give_replacement_glyphs (text_bytes : list byte)
  (font : Font.t)
  (font_size character_spacing word_spacing horizontal_scaling : Decimal.t) :
  (forall c, Font.character_identifier_to_unicode font c = None) ->
  let line := init text_bytes font font_size character_spacing word_spacing
                horizontal_scaling in
  _glyphs line
  = map (fun b => Glyph.mk (code b) UStr.REPLACEMENT_CHARACTER (Dec 250))
      text_bytes /\
  get_text line = map (fun _ => 65533) text_bytes.
Proof.
  intros Hnone. cbv zeta. unfold init, get_text. cbn [_glyphs].
  assert (H : glyphs_of_bytes font text_bytes
              = map (fun b => Glyph.mk (code b) UStr.REPLACEMENT_CHARACTER
                                (Dec 250)) text_bytes).
  { induction text_bytes as [|b0 rest IH]; [reflexivity|].
    destruct rest as [|b1 rest'].
    - cbn [glyphs_of_bytes map]. unfold single_byte_glyph.
      rewrite Hnone. reflexivity.
    - rewrite glyphs_of_bytes_cons2, Hnone, IH.
      unfold single_byte_glyph. rewrite Hnone. reflexivity. }
  rewrite H. split; [reflexivity|].
  rewrite map_map. cbn [Glyph.unicode_str]. unfold UStr.join.
  clear. induction text_bytes as [|b rest IH]; [reflexivity|].
  cbn [map List.concat]. rewrite IH. reflexivity.
Qed.

Lemma unmapped_bytes_give_replacement_glyphs_witness :
  let line := init ["H"%byte; "i"%byte] unmapped_font (Dec 12) (Dec 0) (Dec 0)
                (Dec 100) in
  _glyphs line
  = map (fun b => Glyph.mk (code b) UStr.REPLACEMENT_CHARACTER (Dec 250))
      ["H"%byte; "i"%byte] /\
  get_text line = map (fun _ => 65533) ["H"%byte; "i"%byte].
Proof.
  apply (unmapped_bytes_give_replacement_glyphs ["H"%byte; "i"%byte]
           unmapped_font).
  reflexivity.
Defined.

(** X15: For a font that maps exactly the single-byte codes, the line has
    one glyph per byte if and only if no zero byte has a byte after
    it. *)
Theorem one_glyph_per_byte_iff (text_bytes : list byte) (font : Font.t)
  (font_size character_spacing word_spacing horizontal_scaling : Decimal.t) :
  single_byte_font font ->
  len (init text_bytes font font_size character_spacing word_spacing
         horizontal_scaling) = Z.of_nat (List.length text_bytes)
  <-> zero_only_last text_bytes = true.
Proof.
  intros Hf. unfold init, len. cbn [_glyphs]. split.
  - intros Hlen. destruct (zero_only_last text_bytes) eqn:Hz; [reflexivity|].
    pose proof (glyphs_of_bytes_short font text_bytes Hf Hz). lia.
  - intros Hz. rewrite (glyphs_of_bytes_single font text_bytes Hf Hz).
    rewrite length_map. reflexivity.
Qed.

Lemma one_glyph_per_byte_iff_witness :
  len (init [x00; x41] latin1_font (Dec 12) (Dec 0) (Dec 0) (Dec 100))
  = Z.of_nat (List.length [x00; x41])
  <-> zero_only_last [x00; x41] = true.
Proof.
  apply (one_glyph_per_byte_iff [x00; x41] latin1_font).
  exact latin1_font_single_byte.
Defined.

(** *** The width of a line *)

(** X16: The word spacing counts for the glyphs whose text is one character
    of tab, line feed, vertical tab, form feed, carriage return and
    space only: a line without such a glyph has the same width whatever
    its word spacing. *)
Theorem width_without_spaces_ignores_word_spacing (self : t)
  (word_spacing : Decimal.t) :
  Forall (fun g => is_single_space (Glyph.unicode_str g) = false)
    (_glyphs self) ->
  get_width_in_text_space (with_word_spacing self word_spacing)
  = get_width_in_text_space self.
Proof.
  intros Hsp. unfold get_width_in_text_space, with_word_spacing.
  cbn [_glyphs _character_spacing]. f_equal.
  apply TextRenderEvent_facts.fold_left_ext_Forall.
  eapply Forall_impl; [|exact Hsp].
  intros g Hg acc. cbv beta in Hg.
  unfold glyph_width_in_text_space.
  cbn [_font_size _word_spacing _horizontal_scaling _character_spacing].
  rewrite Hg. reflexivity.
Qed.

Lemma width_without_spaces_ignores_word_spacing_witness :
  get_width_in_text_space
    (with_word_spacing
       (init ["H"%byte; "i"%byte] latin1_font (Dec 12) (Dec 0) (Dec 0) (Dec 100))
       (Dec 5))
  = get_width_in_text_space
      (init ["H"%byte; "i"%byte] latin1_font (Dec 12) (Dec 0) (Dec 0) (Dec 100)).
Proof.
  apply width_without_spaces_ignores_word_spacing.
  repeat constructor.
Defined.

End GlyphLine_more.

(* ------------------------------------------------------------------ *)
(** ** [GlyphLine.append] in the store *)
(* ------------------------------------------------------------------ *)

Module Heap_append.
Import Heap Heap_defs Heap_facts.

Lemma push_glyph_spec (h : heap) (self : loc) (o : GlyphLine.t) (g : Glyph.t) :
  h !! self = Some o ->
  push_glyph self g h
  = Some (<[self := with_glyphs o (GlyphLine._glyphs o ++ [g])]> h).
Proof.
  intros Hs. unfold push_glyph, set_glyphs. rewrite Hs.
  cbn [mbind option_bind]. reflexivity.
Qed.

Lemma with_glyphs_same (o : GlyphLine.t) : with_glyphs o (GlyphLine._glyphs o) = o.
Proof. destruct o; reflexivity. Qed.

Lemma with_glyphs_twice (o : GlyphLine.t) (gs gs' : list Glyph.t) :
  with_glyphs (with_glyphs o gs) gs' = with_glyphs o gs'.
Proof. reflexivity. Qed.

(** The loop over the glyphs of another line: at index [i] the receiver
    holds its own glyphs and the first [i] glyphs of the argument. *)
Lemma append_loop_other (self other : loc) (o o' : GlyphLine.t) (h0 : heap)
  (fuel : nat) :
  self <> other -> h0 !! self = Some o -> h0 !! other = Some o' ->
  forall i,
    (List.length (GlyphLine._glyphs o') - i < fuel)%nat ->
    append_loop fuel self other i
      (<[self := with_glyphs o (GlyphLine._glyphs o
                                ++ take i (GlyphLine._glyphs o'))]> h0)
    = Some (<[self := with_glyphs o (GlyphLine._glyphs o
                                     ++ GlyphLine._glyphs o')]> h0).
Proof.
  intros Hne Hs Ho. induction fuel as [|f IH]; intros i Hf; [lia|].
  cbn [append_loop]. rewrite lookup_insert_ne by exact Hne. rewrite Ho.
  cbn [mbind option_bind].
  destruct (GlyphLine._glyphs o' !! i) as [g|] eqn:Hg.
  - erewrite push_glyph_spec by apply lookup_insert_eq.
    cbn [mbind option_bind]. rewrite insert_insert_eq.
    rewrite with_glyphs_twice. cbn [with_glyphs GlyphLine._glyphs].
    rewrite <- app_assoc, <- (take_S_r _ _ _ Hg).
    apply IH. apply lookup_lt_Some in Hg. lia.
  - apply lookup_ge_None in Hg. rewrite take_ge by lia. reflexivity.
Qed.

Lemma get_text_app (o : GlyphLine.t) (gs gs' : list Glyph.t) :
  GlyphLine.get_text (with_glyphs o (gs ++ gs'))
  = GlyphLine.get_text (with_glyphs o gs) ++ GlyphLine.get_text (with_glyphs o gs').
Proof.
  unfold GlyphLine.get_text, UStr.join. cbn [with_glyphs GlyphLine._glyphs].
  rewrite map_app. apply concat_app.
Qed.

Lemma append_line_result (h : heap) (self other : loc) (o o' : GlyphLine.t)
  (fuel : nat) :
  self <> other -> h !! self = Some o -> h !! other = Some o' ->
  (List.length (GlyphLine._glyphs o') < fuel)%nat ->
  append fuel self (a_GlyphLine other) h
  = Some (self, <[self := with_glyphs o (GlyphLine._glyphs o
                                         ++ GlyphLine._glyphs o')]> h).
Proof.
  intros Hne Hs Ho Hf. unfold append.
  pose proof (append_loop_other self other o o' h fuel Hne Hs Ho 0) as H.
  rewrite take_0, app_nil_r, with_glyphs_same, (insert_id _ _ _ Hs) in H.
  rewrite H by lia. reflexivity.
Qed.

(** X17: Appending another line: the call returns the receiver, which now
    holds its glyphs followed by the glyphs of the argument, with its
    font and scalars as before; every other object of the store, the
    argument among them, is as it was.  The text of the receiver is the
    two texts, one after the other, and it uses the descent when one of
    the two lines did. *)
Theorem append_other_line (h : heap) (self other : loc) (o o' : GlyphLine.t)
  (fuel : nat) :
  self <> other -> h !! self = Some o -> h !! other = Some o' ->
  (List.length (GlyphLine._glyphs o') < fuel)%nat ->
  let o2 := with_glyphs o (GlyphLine._glyphs o ++ GlyphLine._glyphs o') in
  append fuel self (a_GlyphLine other) h = Some (self, <[self := o2]> h) /\
  GlyphLine.get_text o2 = GlyphLine.get_text o ++ GlyphLine.get_text o' /\
  GlyphLine.uses_descent o2
  = GlyphLine.uses_descent o || GlyphLine.uses_descent o'.
Proof.
  intros Hne Hs Ho Hf o2. subst o2.
  assert (Ht : GlyphLine.get_text
                 (with_glyphs o (GlyphLine._glyphs o ++ GlyphLine._glyphs o'))
               = GlyphLine.get_text o ++ GlyphLine.get_text o').
  { rewrite get_text_app, with_glyphs_same. reflexivity. }
  split; [|split; [exact Ht|]].
  - apply append_line_result; assumption.
  - unfold GlyphLine.uses_descent. rewrite Ht. apply existsb_app.
Qed.

Lemma append_other_line_witness :
  let o2 := with_glyphs two_glyph_line
              (GlyphLine._glyphs two_glyph_line
               ++ GlyphLine._glyphs two_glyph_line) in
  append 3 0%nat (a_GlyphLine 1%nat)
    (<[1%nat := two_glyph_line]> {[ 0%nat := two_glyph_line ]})
  = Some (0%nat,
          <[0%nat := o2]>
            (<[1%nat := two_glyph_line]> {[ 0%nat := two_glyph_line ]})) /\
  GlyphLine.get_text o2
  = GlyphLine.get_text two_glyph_line ++ GlyphLine.get_text two_glyph_line /\
  GlyphLine.uses_descent o2
  = GlyphLine.uses_descent two_glyph_line
    || GlyphLine.uses_descent two_glyph_line.
Proof.
  apply (append_other_line
           (<[1%nat := two_glyph_line]> {[ 0%nat := two_glyph_line ]})
           0%nat 1%nat two_glyph_line two_glyph_line 3).
  - discriminate.
  - reflexivity.
  - reflexivity.
  - vm_compute. lia.
Defined.

(** The loop of a line appended to itself: the list grows by one glyph
    in every turn, so the index never reaches its end. *)
Lemma append_loop_self (self : loc) (fuel : nat) :
  forall (h : heap) (o : GlyphLine.t) (i : nat),
    h !! self = Some o -> (i < List.length (GlyphLine._glyphs o))%nat ->
    append_loop fuel self self i h = None.
Proof.
  induction fuel as [|f IH]; intros h o i Hs Hi; [reflexivity|].
  cbn [append_loop]. rewrite Hs. cbn [mbind option_bind].
  destruct (GlyphLine._glyphs o !! i) as [g|] eqn:Hg.
  - rewrite (push_glyph_spec _ _ _ _ Hs). cbn [mbind option_bind].
    apply (IH _ (with_glyphs o (GlyphLine._glyphs o ++ [g]))).
    + apply lookup_insert_eq.
    + cbn [with_glyphs GlyphLine._glyphs]. rewrite length_app. cbn. lia.
  - apply lookup_ge_None in Hg. lia.
Qed.

(** X18: Appending a line that holds a glyph to itself never returns:
    whatever the number of turns allowed, the loop is still running
    after them. *)
Theorem append_to_itself_never_ends (h : heap) (self : loc) (o : GlyphLine.t)
  (fuel : nat) :
  h !! self = Some o -> GlyphLine._glyphs o <> [] ->
  append fuel self (a_GlyphLine self) h = None.
Proof.
  intros Hs Hne. unfold append.
  rewrite (append_loop_self self fuel h o 0 Hs); [reflexivity|].
  destruct (GlyphLine._glyphs o); [contradiction|cbn; lia].
Qed.

(** A line of two glyphs, and a thousand turns. *)
Lemma append_to_itself_never_ends_witness :
  append 1000 0%nat (a_GlyphLine 0%nat) {[ 0%nat := two_glyph_line ]} = None.
Proof.
  apply (append_to_itself_never_ends {[ 0%nat := two_glyph_line ]} 0%nat
           two_glyph_line).
  - reflexivity.
  - discriminate.
Defined.

(** [append_all] onto a line that is none of [lines]. *)
Lemma append_all_spec (self : loc) (o : GlyphLine.t) (fuel : nat)
  (lines : list loc) :
  forall (h : heap) (acc : list Glyph.t),
    h !! self = Some (with_glyphs o acc) ->
    Forall (fun l => l <> self /\
                     exists x, h !! l = Some x /\
                       (List.length (GlyphLine._glyphs x) < fuel)%nat) lines ->
    append_all fuel self lines h
    = Some (<[self := with_glyphs o
                        (acc ++ List.concat (map (glyphs_at h) lines))]> h).
Proof.
  induction lines as [|l lines IH]; intros h acc Hs Hl.
  - cbn. rewrite app_nil_r. rewrite insert_id by exact Hs. reflexivity.
  - inversion Hl as [|? ? (Hne & x & Hx & Hfx) Hl']; subst.
    cbn [append_all].
    rewrite (append_line_result h self l (with_glyphs o acc) x fuel)
      by auto.
    cbn [mbind option_bind]. rewrite with_glyphs_twice.
    cbn [with_glyphs GlyphLine._glyphs].
    rewrite (IH _ (acc ++ GlyphLine._glyphs x)).
    + rewrite insert_insert_eq. cbn [map List.concat].
      unfold glyphs_at at 2. rewrite Hx. cbn [fmap option_fmap option_map default].
      rewrite <- app_assoc. do 4 f_equal. unfold id. do 2 f_equal.
      apply map_ext_Forall. eapply Forall_impl; [|exact Hl'].
      intros l' (Hne' & _). cbv beta. unfold glyphs_at.
      rewrite lookup_insert_ne by auto. reflexivity.
    + apply lookup_insert_eq.
    + eapply Forall_impl; [|exact Hl'].
      intros l' (Hne' & x' & Hx' & Hf'). cbv beta. split; [exact Hne'|].
      exists x'. rewrite lookup_insert_ne by auto. auto.
Qed.

(** X19: Split and append are inverse to each other: appending the lines that
    [split] returns, one after the other, to an empty line of the store
    gives that line the glyphs of the line that was split, in order. *)
Theorem append_of_split (h : heap) (self target : loc) (o t : GlyphLine.t) :
  h !! self = Some o -> h !! target = Some t -> GlyphLine._glyphs t = [] ->
  exists out h1 h2,
    split self h = Some (out, h1) /\
    append_all 2 target out h1 = Some h2 /\
    h2 !! target = Some (with_glyphs t (GlyphLine._glyphs o)) /\
    (forall l, l <> target -> h2 !! l = h1 !! l).
Proof.
  intros Hself Ht Hempty. unfold split. rewrite Hself. cbn [mbind option_bind].
  assert (Hfuel : (List.length (GlyphLine._glyphs o) - 0
                   < S (List.length (GlyphLine._glyphs o)))%nat) by lia.
  assert (Hrefl : preserved h h) by (intros l x Hx; exact Hx).
  destruct (split_loop_spec h self o _ 0 [] h Hfuel Hself Hrefl
              (Forall2_nil _)) as (out & h1 & Hrun & Hpres & Hout).
  exists out, h1.
  assert (Ht1 : h1 !! target = Some (with_glyphs t [])).
  { rewrite <- Hempty, with_glyphs_same. apply Hpres, Ht. }
  assert (Hlines : Forall (fun l => l <> target /\
                     exists x, h1 !! l = Some x /\
                       (List.length (GlyphLine._glyphs x) < 2)%nat) out).
  { clear Hrun Hfuel. induction Hout as [|l g out gs [Hn Hl] _ IH];
      constructor; [|exact IH].
    split; [intros ->; rewrite Ht in Hn; discriminate|].
    eexists. split; [exact Hl|]. cbn. lia. }
  assert (Hcat : List.concat (map (glyphs_at h1) out) = GlyphLine._glyphs o).
  { clear Hrun Hfuel Hlines.
    induction Hout as [|l g out gs [_ Hl] _ IH]; [reflexivity|].
    cbn [map List.concat]. rewrite IH. unfold glyphs_at. rewrite Hl.
    reflexivity. }
  eexists. split; [exact Hrun|].
  rewrite (append_all_spec target t 2 out h1 [] Ht1 Hlines).
  split; [reflexivity|]. rewrite Hcat. cbn [app]. split.
  - apply lookup_insert_eq.
  - intros l Hl. apply lookup_insert_ne. auto.
Qed.

Lemma append_of_split_witness :
  exists out h1 h2,
    split 0%nat (<[1%nat := with_glyphs two_glyph_line []]>
                   {[ 0%nat := two_glyph_line ]}) = Some (out, h1) /\
    append_all 2 1%nat out h1 = Some h2 /\
    h2 !! 1%nat
    = Some (with_glyphs (with_glyphs two_glyph_line [])
              (GlyphLine._glyphs two_glyph_line)) /\
    (forall l, l <> 1%nat -> h2 !! l = h1 !! l).
Proof.
  apply (append_of_split
           (<[1%nat := with_glyphs two_glyph_line []]>
              {[ 0%nat := two_glyph_line ]})
           0%nat 1%nat two_glyph_line (with_glyphs two_glyph_line [])).
  - reflexivity.
  - reflexivity.
  - reflexivity.
Defined.

End Heap_append.

(* ------------------------------------------------------------------ *)
(** ** Text-render events: the split and the comparator *)
(* ------------------------------------------------------------------ *)

Module TextRenderEvent_more.
Import TextRenderEvent Event_defs TextRenderEvent_facts.
Local Open Scope Z_scope.

Section Facts.
Context {Matrix Color : Type}.
Variable transform_by : LineSegment.t -> Matrix -> LineSegment.t.
Implicit Types a b c e : TextRenderEvent.t Matrix Color.

(** *** [split_on_glyphs] *)

Lemma split_loop_events e (glyphs : list Glyph.t) :
  forall prev_x,
    map glyph_line (split_loop transform_by e glyphs prev_x)
    = map (fun g => [g]) glyphs /\
    Forall (copied_from e) (split_loop transform_by e glyphs prev_x) /\
    UStr.join (map get_text (split_loop transform_by e glyphs prev_x))
    = UStr.join (map Glyph.unicode_str glyphs).
Proof.
  induction glyphs as [|g glyphs IH]; intros prev_x.
  - repeat split. constructor.
  - cbn [split_loop map].
    destruct (IH (prev_x + glyph_advance (graphics_state e) g)%dec)
      as (Hg & Hc & Ht).
    split; [rewrite Hg; reflexivity|]. split.
    + constructor; [repeat split|exact Hc].
    + unfold UStr.join in *. cbn [List.concat]. rewrite Ht.
      unfold get_text, UStr.join. cbn [glyph_event glyph_line map List.concat].
      rewrite app_nil_r. reflexivity.
Qed.

(** X20: [split_on_glyphs] makes one event per glyph of the event, in order,
    each holding that one glyph; the events share the graphics state and
    carry the matrix, the font size, colour, family and ascent and the
    space width of the event that is split; their texts, one after the
    other, are its text. *)
Theorem split_on_glyphs_one_event_per_glyph e :
  map glyph_line (split_on_glyphs transform_by e)
  = map (fun g => [g]) (glyph_line e) /\
  Forall (copied_from e) (split_on_glyphs transform_by e) /\
  UStr.join (map get_text (split_on_glyphs transform_by e)) = get_text e.
Proof. apply split_loop_events. Qed.

(** X21: The baselines of the events of [split_on_glyphs] are segments on the
    line [y = text_rise] of text space, the first starting at 0 and each
    other where the one before ends, every one transformed by the matrix
    of the event. *)
Theorem split_on_glyphs_segments_are_contiguous e :
  exists segments,
    map baseline (split_on_glyphs transform_by e)
    = map (fun seg => transform_by seg (text_to_user_space_transform_matrix e))
        segments /\
    List.length segments = List.length (glyph_line e) /\
    chained (Dec 0) segments /\
    Forall (fun seg =>
              LineSegment.y0 seg = CanvasGraphicsState.text_rise (graphics_state e) /\
              LineSegment.y1 seg = CanvasGraphicsState.text_rise (graphics_state e))
      segments.
Proof.
  exists (text_space_segments (graphics_state e) (glyph_line e) (Dec 0)).
  split; [apply split_loop_baselines|].
  split; [|apply text_space_segments_chained].
  generalize (Dec 0). induction (glyph_line e) as [|g glyphs IH]; intros x;
    [reflexivity|].
  cbn [text_space_segments List.length]. rewrite IH. reflexivity.
Qed.

Lemma text_space_segments_word_spacing (gs : CanvasGraphicsState.t)
  (ws : Decimal.t) (glyphs : list Glyph.t) :
  forall prev_x,
    text_space_segments (state_with_word_spacing gs ws) glyphs prev_x
    = text_space_segments gs glyphs prev_x.
Proof.
  induction glyphs as [|g glyphs IH]; intros prev_x; [reflexivity|].
  cbn [text_space_segments].
  change (glyph_advance (state_with_word_spacing gs ws) g)
    with (glyph_advance
            (CanvasGraphicsState.mk (CanvasGraphicsState.font_size gs)
               (CanvasGraphicsState.character_spacing gs) ws
               (CanvasGraphicsState.horizontal_scaling gs)
               (CanvasGraphicsState.text_rise gs)) g).
  rewrite glyph_advance_without_word_spacing, IH. reflexivity.
Qed.

(** X22: The word spacing has no part in [split_on_glyphs]: whatever the word
    spacing of the graphics state and whatever the glyphs, spaces among
    them, the baselines of the events are the same. *)
Theorem split_on_glyphs_ignores_word_spacing e (word_spacing : Decimal.t) :
  map baseline
    (split_on_glyphs transform_by
       (on_state e (state_with_word_spacing (graphics_state e) word_spacing)))
  = map baseline (split_on_glyphs transform_by e).
Proof.
  unfold split_on_glyphs. rewrite !split_loop_baselines.
  cbn [on_state graphics_state glyph_line text_to_user_space_transform_matrix].
  rewrite text_space_segments_word_spacing. reflexivity.
Qed.

(** *** The comparator *)

Lemma order_lt (x y : Decimal.t) :
  Decimal_defs.order x y = -1 <-> Decimal.ltb x y = true.
Proof.
  unfold Decimal_defs.order. destruct (Decimal.ltb x y); [tauto|].
  destruct (Decimal.ltb y x); split; intros; discriminate.
Qed.

Lemma cmp_of_bands a b (ya yb : Decimal.t) :
  band a = Some ya -> band b = Some yb ->
  exists r, cmp a b = Some r /\
    Z.sgn (Decimal.coef r)
    = if Decimal.eqb ya yb
      then Decimal_defs.order (LineSegment.x0 (get_baseline a))
                              (LineSegment.x0 (get_baseline b))
      else Decimal_defs.order yb ya.
Proof.
  unfold band. intros Ha Hb.
  destruct (Decimal.rem (LineSegment.y0 (get_baseline a)) (Dec 5)) as [r0|] eqn:E0;
    [|discriminate].
  destruct (Decimal.rem (LineSegment.y0 (get_baseline b)) (Dec 5)) as [r1|] eqn:E1;
    [|discriminate].
  cbn [mbind option_bind] in Ha, Hb. injection Ha as <-. injection Hb as <-.
  exact (cmp_sign a b r0 r1 E0 E1).
Qed.

Lemma cmp_band a b (r : Decimal.t) :
  cmp a b = Some r -> exists ya yb, band a = Some ya /\ band b = Some yb.
Proof.
  unfold cmp, band.
  destruct (Decimal.rem (LineSegment.y0 (get_baseline a)) (Dec 5)) as [r0|];
    [|discriminate].
  destruct (Decimal.rem (LineSegment.y0 (get_baseline b)) (Dec 5)) as [r1|];
    [|discriminate].
  intros _. eauto.
Qed.

Lemma cmp_negative_iff a b (ya yb r : Decimal.t) :
  band a = Some ya -> band b = Some yb -> cmp a b = Some r ->
  Decimal.coef r < 0
  <-> Decimal.ltb yb ya = true \/
      (Decimal.eqb ya yb = true /\
       Decimal.ltb (LineSegment.x0 (get_baseline a))
                   (LineSegment.x0 (get_baseline b)) = true).
Proof.
  intros Ha Hb Hc.
  destruct (cmp_of_bands a b ya yb Ha Hb) as (r' & Hr' & Hs).
  rewrite Hc in Hr'. injection Hr' as <-.
  assert (Hneg : Decimal.coef r < 0 <-> Z.sgn (Decimal.coef r) = -1) by lia.
  rewrite Hneg, Hs.
  destruct (Decimal.eqb _ _) eqn:Eq.
  - rewrite order_lt. split; [auto|]. intros [Hlt|[_ Hlt]]; [|exact Hlt].
    apply Decimal_facts.ltb_not_eqb_sym in Hlt. congruence.
  - rewrite order_lt. split; [auto|]. intros [Hlt|[Hf _]]; [exact Hlt|discriminate].
Qed.

(** X23: The order of the comparator: [cmp(a, b)] is negative when the band
    of [a] is above the band of [b], or the bands are equal and [a]
    starts left of [b]; it is zero when the bands are equal and the two
    events start at the same [x]; it is positive in the cases left. *)
Theorem cmp_orders_by_band_then_x a b (ya yb r : Decimal.t) :
  band a = Some ya -> band b = Some yb -> cmp a b = Some r ->
  (Decimal.coef r < 0
   <-> Decimal.ltb yb ya = true \/
       (Decimal.eqb ya yb = true /\
        Decimal.ltb (LineSegment.x0 (get_baseline a))
                    (LineSegment.x0 (get_baseline b)) = true)) /\
  (Decimal.coef r = 0
   <-> Decimal.eqb ya yb = true /\
       Decimal.eqb (LineSegment.x0 (get_baseline a))
                   (LineSegment.x0 (get_baseline b)) = true) /\
  (0 < Decimal.coef r
   <-> Decimal.ltb ya yb = true \/
       (Decimal.eqb ya yb = true /\
        Decimal.ltb (LineSegment.x0 (get_baseline b))
                    (LineSegment.x0 (get_baseline a)) = true)).
Proof.
  intros Ha Hb Hc.
  split; [exact (cmp_negative_iff a b ya yb r Ha Hb Hc)|].
  destruct (cmp_of_bands a b ya yb Ha Hb) as (r' & Hr' & Hs).
  rewrite Hc in Hr'. injection Hr' as <-.
  assert (Hz : Decimal.coef r = 0 <-> Z.sgn (Decimal.coef r) = 0) by lia.
  assert (Hp : 0 < Decimal.coef r <-> Z.sgn (Decimal.coef r) = 1) by lia.
  rewrite Hz, Hp, Hs. clear Hz Hp Hs Hc.
  set (xa := LineSegment.x0 (get_baseline a)).
  set (xb := LineSegment.x0 (get_baseline b)).
  unfold Decimal_defs.order.
  destruct (Decimal.eqb ya yb) eqn:Ey.
  - assert (Decimal.ltb ya yb = false).
    { destruct (Decimal.ltb ya yb) eqn:E; [|reflexivity].
      apply Decimal_facts.ltb_not_eqb in E. congruence. }
    destruct (Decimal.ltb xa xb) eqn:E1.
    + pose proof (Decimal_facts.ltb_not_eqb _ _ E1).
      pose proof (Decimal_facts.ltb_asym _ _ E1).
      split; split; try discriminate; intros; intuition congruence.
    + destruct (Decimal.ltb xb xa) eqn:E2.
      * pose proof (Decimal_facts.ltb_not_eqb_sym _ _ E2).
        split; split; try discriminate; intros; intuition congruence.
      * pose proof (Decimal_facts.not_ltb_eqb _ _ E1 E2).
        split; split; try discriminate; intros; intuition congruence.
  - destruct (Decimal.ltb yb ya) eqn:E1.
    + pose proof (Decimal_facts.ltb_asym _ _ E1).
      split; split; try discriminate; intros; intuition congruence.
    + destruct (Decimal.ltb ya yb) eqn:E2.
      * split; split; try discriminate; intros; intuition congruence.
      * pose proof (Decimal_facts.not_ltb_eqb _ _ E2 E1). congruence.
Qed.


End Facts.

(** Two letters on the line [y = 0], the first left of the second. *)
Lemma cmp_orders_by_band_then_x_witness :
  let a := letter_event 65 (Dec 0) (Dec 5) in
  let b := letter_event 66 (Dec 10) (Dec 15) in
  (Decimal.coef (Dec (-10)) < 0
   <-> Decimal.ltb (Dec 0) (Dec 0) = true \/
       (Decimal.eqb (Dec 0) (Dec 0) = true /\
        Decimal.ltb (LineSegment.x0 (get_baseline a))
                    (LineSegment.x0 (get_baseline b)) = true)) /\
  (Decimal.coef (Dec (-10)) = 0
   <-> Decimal.eqb (Dec 0) (Dec 0) = true /\
       Decimal.eqb (LineSegment.x0 (get_baseline a))
                   (LineSegment.x0 (get_baseline b)) = true) /\
  (0 < Decimal.coef (Dec (-10))
   <-> Decimal.ltb (Dec 0) (Dec 0) = true \/
       (Decimal.eqb (Dec 0) (Dec 0) = true /\
        Decimal.ltb (LineSegment.x0 (get_baseline b))
                    (LineSegment.x0 (get_baseline a)) = true)).
Proof.
  apply (cmp_orders_by_band_then_x
           (letter_event 65 (Dec 0) (Dec 5))
           (letter_event 66 (Dec 10) (Dec 15)));
    vm_compute; reflexivity.
Defined.


End TextRenderEvent_more.

(* ------------------------------------------------------------------ *)
(** ** Line-render events: the span and the text *)
(* ------------------------------------------------------------------ *)

Module LineRenderEvent_more.
Import LineRenderEvent Event_defs LineRenderEvent_facts.
Local Open Scope Z_scope.

Lemma not_ltb_trans (a b c : Decimal.t) :
  Decimal.ltb b a = false -> Decimal.ltb c b = false -> Decimal.ltb c a = false.
Proof.
  set (m := Z.min (Decimal.expo a) (Z.min (Decimal.expo b) (Decimal.expo c))).
  rewrite (Decimal_facts.ltb_scaled b a m), (Decimal_facts.ltb_scaled c b m),
    (Decimal_facts.ltb_scaled c a m) by (subst m; lia).
  lia.
Qed.

(** [round(a, 1)] is defined for [a] below [10 ^ 26]. *)
Lemma round_1_defined (a : Decimal.t) :
  Decimal.adjusted a <= 25 -> exists w, Decimal.round a 1 = Some w.
Proof.
  intros Hadj. unfold Decimal.round.
  destruct (Decimal.is_zero a); [eauto|].
  destruct (Z.ltb_spec Decimal.prec (Decimal.adjusted a + 1 + 1)) as [Hgt|_];
    [unfold Decimal.prec in Hgt; lia|].
  match goal with |- context [Decimal.prec <? ?x] =>
    assert (Hd : x <= Decimal.prec);
      [|apply Z.ltb_ge in Hd; rewrite Hd; eauto] end.
  unfold Decimal.adjusted in Hadj.
  set (n := Z.abs (Decimal.coef a)) in *.
  destruct (Decimal_facts.ndigits_bounds n ltac:(subst n; lia)) as (Hd1 & Hub & _).
  set (d := Decimal.ndigits n) in *.
  unfold Decimal.rescale.
  destruct (Z.leb_spec (- (1)) (Decimal.expo a)) as [Hle|Hlt]; cbn [Decimal.coef].
  - apply Decimal_facts.ndigits_le; [lia|unfold Decimal.prec; lia|].
    rewrite Z.abs_mul. fold n.
    rewrite (Z.abs_eq (10 ^ _)) by (apply Z.pow_nonneg; lia).
    assert (H1 : n * 10 ^ (Decimal.expo a - - (1))
                 < 10 ^ d * 10 ^ (Decimal.expo a - - (1))).
    { apply Z.mul_lt_mono_pos_r; [apply Z.pow_pos_nonneg; lia|assumption]. }
    rewrite <- Z.pow_add_r in H1 by lia.
    apply Z.lt_le_trans with (1 := H1).
    apply Z.pow_le_mono_r; unfold Decimal.prec; lia.
  - set (k := - (1) - Decimal.expo a) in *.
    assert (Hk : 0 < k) by (subst k; lia).
    pose proof (Decimal_facts.round_half_even_range n k ltac:(subst n; lia) Hk)
      as Hr.
    set (q := Decimal.round_half_even n k) in *.
    assert (Hq0 : 0 <= n / 10 ^ k)
      by (apply Z.div_pos; [subst n; lia|apply Z.pow_pos_nonneg; lia]).
    assert (Hq : n / 10 ^ k < 10 ^ 27).
    { apply Z.div_lt_upper_bound; [apply Z.pow_pos_nonneg; lia|].
      rewrite <- Z.pow_add_r by lia.
      apply Z.lt_le_trans with (1 := Hub).
      apply Z.pow_le_mono_r; subst k; lia. }
    apply Decimal_facts.ndigits_le; [lia|unfold Decimal.prec; lia|].
    fold n. fold q.
    rewrite Z.abs_mul, (Z.abs_eq q) by lia.
    assert (Z.abs (Z.sgn (Decimal.coef a)) <= 1) by lia.
    change (10 ^ Decimal.prec) with (10 * 10 ^ 27).
    assert (0 < 10 ^ 27) by reflexivity.
    nia.
Qed.

Lemma min2_spec (a b : Decimal.t) :
  (Decimal.min2 a b = a \/ Decimal.min2 a b = b) /\
  Decimal.ltb a (Decimal.min2 a b) = false /\
  Decimal.ltb b (Decimal.min2 a b) = false.
Proof.
  unfold Decimal.min2. destruct (Decimal.ltb b a) eqn:E.
  - rewrite (Decimal_facts.ltb_asym _ _ E), Decimal_facts.ltb_irrefl. auto.
  - rewrite E, Decimal_facts.ltb_irrefl. auto.
Qed.

Lemma max2_spec (a b : Decimal.t) :
  (Decimal.max2 a b = a \/ Decimal.max2 a b = b) /\
  Decimal.ltb (Decimal.max2 a b) a = false /\
  Decimal.ltb (Decimal.max2 a b) b = false.
Proof.
  unfold Decimal.max2, Decimal.gtb. destruct (Decimal.ltb a b) eqn:E.
  - rewrite (Decimal_facts.ltb_asym _ _ E), Decimal_facts.ltb_irrefl. auto.
  - rewrite E, Decimal_facts.ltb_irrefl. auto.
Qed.

Section Facts.
Context {Matrix Color : Type}.
Implicit Types e : TextRenderEvent.t Matrix Color.
Implicit Types events : list (TextRenderEvent.t Matrix Color).

(** *** [get_baseline] *)

(** The loop keeps the least and the greatest x-coordinate seen. *)
Lemma get_baseline_loop_spec events :
  forall min_x max_x,
    let (min_x', max_x') := get_baseline_loop Matrix Color events min_x max_x in
    (min_x' = min_x \/ In min_x' (endpoints events)) /\
    (max_x' = max_x \/ In max_x' (endpoints events)) /\
    Decimal.ltb min_x min_x' = false /\
    Decimal.ltb max_x' max_x = false /\
    Forall (fun x => Decimal.ltb x min_x' = false /\
                     Decimal.ltb max_x' x = false) (endpoints events).
Proof.
  induction events as [|e events IH]; intros min_x max_x.
  - cbn [get_baseline_loop]. rewrite !Decimal_facts.ltb_irrefl.
    repeat split; auto.
  - cbn [get_baseline_loop].
    set (x0 := LineSegment.x0 (TextRenderEvent.get_baseline e)).
    set (x1 := LineSegment.x1 (TextRenderEvent.get_baseline e)).
    specialize (IH (Decimal.min3 min_x x0 x1) (Decimal.max3 max_x x0 x1)).
    destruct (get_baseline_loop Matrix Color events _ _) as [min_x' max_x'].
    destruct IH as (Hmin & Hmax & Hle & Hge & Hall).
    unfold Decimal.min3 in *. unfold Decimal.max3 in *.
    destruct (min2_spec min_x x0) as (Hm1 & Hm1a & Hm1b).
    destruct (min2_spec (Decimal.min2 min_x x0) x1) as (Hm2 & Hm2a & Hm2b).
    destruct (max2_spec max_x x0) as (HM1 & HM1a & HM1b).
    destruct (max2_spec (Decimal.max2 max_x x0) x1) as (HM2 & HM2a & HM2b).
    set (m := Decimal.min2 (Decimal.min2 min_x x0) x1) in *.
    set (M := Decimal.max2 (Decimal.max2 max_x x0) x1) in *.
    assert (Hmx0 : Decimal.ltb x0 m = false)
      by (exact (not_ltb_trans _ _ _ Hm2a Hm1b)).
    assert (Hmm : Decimal.ltb min_x m = false)
      by (exact (not_ltb_trans _ _ _ Hm2a Hm1a)).
    assert (HMx0 : Decimal.ltb M x0 = false)
      by (exact (not_ltb_trans _ _ _ HM1b HM2a)).
    assert (HMM : Decimal.ltb M max_x = false)
      by (exact (not_ltb_trans _ _ _ HM1a HM2a)).
    change (endpoints (e :: events)) with (x0 :: x1 :: endpoints events).
    repeat split.
    + destruct Hmin as [->|Hin]; [|right; right; right; exact Hin].
      subst m. destruct Hm2 as [->| ->]; [|right; right; left; reflexivity].
      destruct Hm1 as [->| ->]; [left; reflexivity|right; left; reflexivity].
    + destruct Hmax as [->|Hin]; [|right; right; right; exact Hin].
      subst M. destruct HM2 as [->| ->]; [|right; right; left; reflexivity].
      destruct HM1 as [->| ->]; [left; reflexivity|right; left; reflexivity].
    + exact (not_ltb_trans _ _ _ Hle Hmm).
    + exact (not_ltb_trans _ _ _ HMM Hge).
    + constructor; [|constructor; [|exact Hall]]; split.
      * exact (not_ltb_trans _ _ _ Hle Hmx0).
      * exact (not_ltb_trans _ _ _ HMx0 Hge).
      * exact (not_ltb_trans _ _ _ Hle Hm2b).
      * exact (not_ltb_trans _ _ _ HM2b Hge).
Qed.

(** X25: The baseline of a line with one event or more lies at the [y0] of
    its first event and spans the baselines of all its events: its two
    ends are x-coordinates of ends of those baselines, none of which is
    left of its start or right of its end. *)
Theorem baseline_spans_the_events e0 events :
  exists seg,
    get_baseline (e0 :: events) = Some seg /\
    LineSegment.y0 seg = LineSegment.y0 (TextRenderEvent.get_baseline e0) /\
    LineSegment.y1 seg = LineSegment.y0 (TextRenderEvent.get_baseline e0) /\
    In (LineSegment.x0 seg) (endpoints (e0 :: events)) /\
    In (LineSegment.x1 seg) (endpoints (e0 :: events)) /\
    Forall (fun x => Decimal.ltb x (LineSegment.x0 seg) = false /\
                     Decimal.ltb (LineSegment.x1 seg) x = false)
      (endpoints (e0 :: events)).
Proof.
  unfold get_baseline.
  pose proof (get_baseline_loop_spec (e0 :: events) (left_end e0) (left_end e0))
    as H.
  destruct (get_baseline_loop Matrix Color (e0 :: events) _ _) as [min_x max_x].
  destruct H as (Hmin & Hmax & _ & _ & Hall).
  eexists. split; [reflexivity|]. cbn [LineSegment.x0 LineSegment.x1
    LineSegment.y0 LineSegment.y1].
  assert (Hl : In (left_end e0) (endpoints (e0 :: events))).
  { unfold left_end. destruct (min2_spec
      (LineSegment.x0 (TextRenderEvent.get_baseline e0))
      (LineSegment.x1 (TextRenderEvent.get_baseline e0))) as ([-> | ->] & _).
    - left. reflexivity.
    - right. left. reflexivity. }
  repeat split.
  - destruct Hmin as [->|Hin]; assumption.
  - destruct Hmax as [->|Hin]; assumption.
  - exact Hall.
Qed.

(** *** [get_text] *)

Lemma get_text_loop_spec events :
  forall (text : ustr) (right : Decimal.t) (out : ustr),
    get_text_loop Matrix Color events text right = Some out ->
    exists seps,
      separators text seps (map TextRenderEvent.get_text events) /\
      out = text ++ interleave seps (map TextRenderEvent.get_text events).
Proof.
  induction events as [|e events IH]; intros text right out H.
  - cbn in H. injection H as <-. exists []. split; [exact I|].
    cbn. rewrite app_nil_r. reflexivity.
  - cbn [get_text_loop] in H.
    destruct (UStr.startswith_space (TextRenderEvent.get_text e)
              || UStr.endswith_space text) eqn:Hsp.
    + destruct (IH _ _ _ H) as (seps & Hs & ->).
      exists ([] :: seps). cbn [map separators interleave app]. split.
      * split; [left; reflexivity|exact Hs].
      * rewrite <- app_assoc. reflexivity.
    + destruct (inferred_space right e) as [sp|] eqn:Ei; [|discriminate].
      cbn [mbind option_bind] in H.
      destruct (IH _ _ _ H) as (seps & Hs & ->).
      apply orb_false_elim in Hsp as [Hst Hen].
      exists (sp :: seps). cbn [map separators interleave]. split.
      * rewrite <- app_assoc in Hs. split; [|exact Hs].
        unfold inferred_space in Ei.
        destruct (Decimal.round _ 1) as [w|]; [|discriminate].
        cbn [mbind option_bind] in Ei. injection Ei as <-.
        destruct (Decimal.ltb _ _); [right|left]; auto.
      * rewrite <- !app_assoc. reflexivity.
Qed.

(** X26: [get_text] keeps the texts of the events, whole and in order, and
    puts before each nothing or one space; a space is put only where
    the text so far does not end with a space and the text of the event
    does not start with one. *)
Theorem get_text_interleaves_spaces events (text : ustr) :
  get_text events = Some text ->
  exists seps,
    separators [] seps (map TextRenderEvent.get_text events) /\
    text = interleave seps (map TextRenderEvent.get_text events).
Proof.
  unfold get_text. destruct events as [|e0 events]; [discriminate|].
  intros H. destruct (get_text_loop_spec _ _ _ _ H) as (seps & Hs & ->).
  exists seps. split; [exact Hs|reflexivity].
Qed.

Lemma get_text_loop_defined events :
  Forall (fun e => Decimal.adjusted
                     (TextRenderEvent.get_space_character_width_in_text_space e)
                   <= 25) events ->
  forall (text : ustr) (right : Decimal.t),
    exists out, get_text_loop Matrix Color events text right = Some out.
Proof.
  induction 1 as [|e events He _ IH]; intros text right; [cbn; eauto|].
  cbn [get_text_loop]. destruct (_ || _); [apply IH|].
  unfold inferred_space. destruct (round_1_defined _ He) as [w ->].
  cbn [mbind option_bind]. apply IH.
Qed.


End Facts.


Lemma get_text_interleaves_spaces_witness :
  exists seps,
    separators [] seps
      (map TextRenderEvent.get_text
         [letter_event 65 (Dec 0) (Dec 10); letter_event 66 (Dec 22) (Dec 32)]) /\
    [65; 32; 66]
    = interleave seps
        (map TextRenderEvent.get_text
           [letter_event 65 (Dec 0) (Dec 10); letter_event 66 (Dec 22) (Dec 32)]).
Proof.
  apply (get_text_interleaves_spaces
           [letter_event 65 (Dec 0) (Dec 10); letter_event 66 (Dec 22) (Dec 32)]).
  vm_compute. reflexivity.
Defined.

End LineRenderEvent_more.

(* ------------------------------------------------------------------ *)
(** ** Text extraction without ligatures *)
(* ------------------------------------------------------------------ *)

Module SimpleNonLigatureTextExtraction_facts.
Import SimpleNonLigatureTextExtraction.
Local Open Scope Z_scope.

(** The test of the loop raises when a key is not of two characters,
    wherever the key stands among the keys. *)
Lemma key_flags_raises (keys : list ustr) (text : ustr) :
  Exists (fun key => List.length key <> 2%nat) keys ->
  key_flags keys text = None.
Proof.
  induction 1 as [key keys Hk|key keys _ IH]; cbn [key_flags].
  - destruct key as [|a [|b [|c key]]]; cbn in Hk; try reflexivity. lia.
  - rewrite IH. destruct (unpack_pair key) as [[k v]|]; reflexivity.
Qed.

(** X28: [get_text] returns the empty text for a page without text, and for
    every page with a text, whatever the text, it raises ValueError in
    the test of its loop: the test iterates the keys of the dict of
    ligatures and unpacks each into two names, and the first key is one
    character. *)
Theorem get_text_raises_on_every_text (fuel : nat)
  (text_per_page : gmap Z ustr) (page_nr : Z) :
  get_text (S fuel) text_per_page page_nr
  = Some (match text_per_page !! page_nr with
          | Some _ => Raised_ValueError
          | None => Returned []
          end).
Proof.
  unfold get_text. destruct (text_per_page !! page_nr) as [text|];
    [|reflexivity].
  cbn [get_text_loop]. rewrite key_flags_raises; [reflexivity|].
  left. cbn. lia.
Qed.

End SimpleNonLigatureTextExtraction_facts.
